(** * SIGPRINT enhanced firmware: lock-in bank, fingerprint composer, packet codec

    A shallow embedding of [main_enhanced.cpp].  Single-precision values are
    IEEE-754 binary32 numbers ([spec_float] at precision 24, emax 128), the
    fixed-size [std::array]s are lists, unsigned machine integers are [Z] with
    their wrap-around written out, and the C math library is a record of
    functions that the firmware is parameterised by. *)

From Stdlib Require Import ZArith Bool Lia.
From Stdlib Require Import Floats.SpecFloat.
From stdpp Require Import base list.

Open Scope Z_scope.

(** ** Binary32 arithmetic *)

Definition prec : Z := 24.
Definition emax : Z := 128.

Abbreviation f32 := spec_float.

Definition f32_add : f32 -> f32 -> f32 := SFadd prec emax.
Definition f32_sub : f32 -> f32 -> f32 := SFsub prec emax.
Definition f32_mul : f32 -> f32 -> f32 := SFmul prec emax.
Definition f32_div : f32 -> f32 -> f32 := SFdiv prec emax.
Definition f32_lt : f32 -> f32 -> bool := SFltb.
Definition f32_le : f32 -> f32 -> bool := SFleb.
Definition f32_ge (x y : f32) : bool := SFleb y x.
Definition sqrtf : f32 -> f32 := SFsqrt prec emax.
Definition fabsf : f32 -> f32 := SFabs.

Declare Scope f32_scope.
Delimit Scope f32_scope with f32.
Infix "+" := f32_add : f32_scope.
Infix "-" := f32_sub : f32_scope.
Infix "*" := f32_mul : f32_scope.
Infix "/" := f32_div : f32_scope.
Infix "<?" := f32_lt : f32_scope.
Infix "<=?" := f32_le : f32_scope.
Infix ">=?" := f32_ge (at level 70) : f32_scope.

(** [static_cast<float>(n)] for an integer [n]. *)
Definition f32_of_Z (n : Z) : f32 := binary_normalize prec emax n 0 false.

(** The literal [n/d] written in decimal in the source, rounded once to
    nearest-even: the division of two integers is correctly rounded whatever
    their size. *)
Definition f32_lit (n d : positive) : f32 :=
  SFdiv prec emax (S754_finite false n 0) (S754_finite false d 0).

Definition f32_zero : f32 := S754_zero false.
Definition f32_one : f32 := f32_of_Z 1.

(** A value of type [float]: canonical mantissa and exponent in range. *)
Definition is_f32 (x : f32) : Prop := valid_binary prec emax x = true.

(** Neither an infinity nor a NaN. *)
Definition f32_finite (x : f32) : bool :=
  match x with
  | S754_zero _ | S754_finite _ _ _ => true
  | _ => false
  end.

(** The object representation of a [float], as the 32-bit word that [memcpy]
    moves.  The model has one NaN; it is given the default quiet pattern. *)
Definition f32_bits (x : f32) : Z :=
  match x with
  | S754_zero s => if s then 0x80000000 else 0
  | S754_infinity s => (if s then 0x80000000 else 0) + 0x7F800000
  | S754_nan => 0x7FC00000
  | S754_finite s m e =>
      (if s then 0x80000000 else 0)
      + (if Zpos m <? 0x800000 then Zpos m
         else (e + 150) * 0x800000 + (Zpos m - 0x800000))
  end.

Definition f32_of_bits (w : Z) : f32 :=
  let s := Z.testbit w 31 in
  let ex := Z.land (Z.shiftr w 23) 0xFF in
  let mant := Z.land w 0x7FFFFF in
  if ex =? 0 then
    match mant with
    | Zpos m => S754_finite s m (-149)
    | _ => S754_zero s
    end
  else if ex =? 255 then
    (if mant =? 0 then S754_infinity s else S754_nan)
  else
    match mant + 0x800000 with
    | Zpos m => S754_finite s m (ex - 150)
    | _ => S754_nan
    end.

(** ** [std::min], [std::max] and the firmware's [clampValue] *)

Section Clamp.
Context {T : Type} (lt : T -> T -> bool).

Definition std_min (a b : T) : T := if lt b a then b else a.
Definition std_max (a b : T) : T := if lt a b then b else a.

Definition clampValue (value min_v max_v : T) : T :=
  std_max min_v (std_min max_v value).
End Clamp.

(** ** Constants *)

Definition CHANNEL_COUNT : nat := 8.
Definition BAND_COUNT : nat := 5.
Definition SAMPLE_RATE_HZ : Z := 250.
Definition PI_F : f32 := f32_lit 314159265358979323846 100000000000000000000.
Definition TWO_PI_F : f32 := (f32_of_Z 2 * PI_F)%f32.
Definition ADC_SCALE_UV : f32 :=
  ((f32_lit 45 10 * f32_of_Z 1000000) / (f32_of_Z 24 * f32_of_Z 8388607))%f32.

Definition HEADER_SIZE : Z := 12.
Definition EEG_PAYLOAD_BYTES : Z := 344.
Definition SIGPRINT_PAYLOAD_BYTES : Z := 24.
Definition PAYLOAD_BYTES : Z := EEG_PAYLOAD_BYTES + SIGPRINT_PAYLOAD_BYTES + 1 + 2.
Definition PACKET_BYTES : Z := HEADER_SIZE + PAYLOAD_BYTES.

Definition CRC16_POLY : Z := 0x1021.
Definition CRC16_INIT : Z := 0xFFFF.

Record FrequencyBand := {
  center_hz : f32;
  bandwidth_hz : f32;
  weight : f32
}.

Definition kBands : list FrequencyBand :=
  [ {| center_hz := f32_lit 25 10; bandwidth_hz := f32_of_Z 3;  weight := f32_lit 15 100 |};
    {| center_hz := f32_of_Z 6;    bandwidth_hz := f32_of_Z 3;  weight := f32_lit 20 100 |};
    {| center_hz := f32_of_Z 10;   bandwidth_hz := f32_of_Z 3;  weight := f32_lit 30 100 |};
    {| center_hz := f32_of_Z 20;   bandwidth_hz := f32_of_Z 10; weight := f32_lit 20 100 |};
    {| center_hz := f32_of_Z 40;   bandwidth_hz := f32_of_Z 20; weight := f32_lit 15 100 |} ].

Definition band_default : FrequencyBand :=
  {| center_hz := f32_zero; bandwidth_hz := f32_zero; weight := f32_zero |}.

Definition kBand (band : nat) : FrequencyBand := nth band kBands band_default.

Record SigprintResult := {
  digits : list Z;
  coherence : f32;
  gate_flags : Z;
  loop_flags : Z;
  entropy : f32
}.

(** [BandMatrix]: [CHANNEL_COUNT] rows of [BAND_COUNT] floats. *)
Definition BandMatrix := list (list f32).

Definition mat_get (m : BandMatrix) (ch band : nat) : f32 :=
  nth band (nth ch m []) f32_zero.

Definition wf_matrix (m : BandMatrix) : Prop :=
  length m = CHANNEL_COUNT /\ Forall (fun row => length row = BAND_COUNT) m.

(** Every entry is a value of type [float]. *)
Definition all_f32 (m : BandMatrix) : Prop := Forall (Forall is_f32) m.

(** A decimal digit. *)
Definition is_digit (d : Z) : Prop := 0 <= d <= 9.

(** ** Fixed-width integers *)

Definition u8 (x : Z) : Z := x mod 0x100.
Definition u16 (x : Z) : Z := x mod 0x10000.
Definition u32 (x : Z) : Z := x mod 0x100000000.
Definition i32 (x : Z) : Z := (x + 0x80000000) mod 0x100000000 - 0x80000000.

Definition in_u8 (x : Z) : Prop := 0 <= x < 0x100.
Definition in_i32 (x : Z) : Prop := - 0x80000000 <= x < 0x80000000.
Definition in_i24 (x : Z) : Prop := - 8388608 <= x <= 8388607.

(** ** CRC *)

Definition crc16_bit (crc : Z) : Z :=
  if Z.land crc 0x8000 =? 0 then u16 (Z.shiftl crc 1)
  else u16 (Z.lxor (Z.shiftl crc 1) CRC16_POLY).

Definition crc16_byte (crc byte : Z) : Z :=
  Nat.iter 8 crc16_bit (Z.lxor crc (u16 (Z.shiftl byte 8))).

Definition crc16_ccitt (data : list Z) : Z :=
  fold_left crc16_byte data CRC16_INIT.

(** ** Packet encoder *)

Definition writeUint16LE (value : Z) : list Z :=
  [ Z.land value 0xFF; Z.land (Z.shiftr value 8) 0xFF ].

Definition writeUint32LE (value : Z) : list Z :=
  [ Z.land value 0xFF; Z.land (Z.shiftr value 8) 0xFF;
    Z.land (Z.shiftr value 16) 0xFF; Z.land (Z.shiftr value 24) 0xFF ].

(** [memcpy(dst, &value, sizeof(float))] on the little-endian target. *)
Definition memcpy_float (value : f32) : list Z := writeUint32LE (f32_bits value).

Definition raw_sample_bytes (value : Z) : list Z :=
  [ u8 (Z.land value 0xFF); u8 (Z.land (Z.shiftr value 8) 0xFF);
    u8 (Z.land (Z.shiftr value 16) 0xFF) ].

Definition matrix_bytes (m : BandMatrix) : list Z :=
  flat_map (fun ch => flat_map (fun band => memcpy_float (mat_get m ch band))
                               (seq 0 BAND_COUNT))
           (seq 0 CHANNEL_COUNT).

Definition digit_at (ds : list Z) (i : nat) : Z := nth i ds 0.

Definition bcd_byte (ds : list Z) (pair : nat) : Z :=
  let high := u8 (digit_at ds (pair * 2) mod 10) in
  let low := u8 (digit_at ds (pair * 2 + 1) mod 10) in
  u8 (Z.lor (Z.shiftl high 4) low).

(** Writing [bytes] into [buf] from offset [off] on. *)
Definition write_at (buf : list Z) (off : nat) (bytes : list Z) : list Z :=
  take off buf ++ bytes ++ drop (off + length bytes) buf.

Definition payload_bytes (raw_samples : list Z) (amplitude phases : BandMatrix)
    (sigprint : SigprintResult) (stage zipper_freq_hz : Z) : list Z :=
  flat_map (fun ch => raw_sample_bytes (nth ch raw_samples 0)) (seq 0 CHANNEL_COUNT)
  ++ matrix_bytes amplitude
  ++ matrix_bytes phases
  ++ map (bcd_byte (digits sigprint)) (seq 0 (20 / 2))
  ++ memcpy_float (coherence sigprint)
  ++ [gate_flags sigprint; loop_flags sigprint]
  ++ memcpy_float (entropy sigprint)
  ++ [0; 0; 0; 0]
  ++ [stage]
  ++ writeUint16LE zipper_freq_hz.

Definition encodePacket (raw_samples : list Z) (amplitude phases : BandMatrix)
    (sigprint : SigprintResult) (stage zipper_freq_hz timestamp_ms : Z)
    (out : list Z) : list Z :=
  let payload :=
    payload_bytes raw_samples amplitude phases sigprint stage zipper_freq_hz in
  let out := write_at out (Z.to_nat HEADER_SIZE) payload in
  let crc := crc16_ccitt (take (Z.to_nat PAYLOAD_BYTES) (drop (Z.to_nat HEADER_SIZE) out)) in
  let out := write_at out 0 (writeUint16LE 0x5347) in
  let out := write_at out 2 [0x01] in
  let out := write_at out 3 [0x01] in
  let out := write_at out 4 (writeUint32LE timestamp_ms) in
  let out := write_at out 8 (writeUint16LE PAYLOAD_BYTES) in
  write_at out 10 (writeUint16LE crc).

(** ** The C math library

    [sinf], [cosf], [atan2f], [expf] and [logf] come from the platform's libm;
    the firmware is a function of them.  [sqrtf] and [fabsf] are exact IEEE
    operations and are defined above.  [lround_unspecified] is what [lroundf]
    returns where the C standard leaves its result unspecified. *)

Record Libm := {
  sinf : f32 -> f32;
  cosf : f32 -> f32;
  atan2f : f32 -> f32 -> f32;
  expf : f32 -> f32;
  logf : f32 -> f32;
  lround_unspecified : f32 -> Z
}.

(** Nearest integer, halfway cases away from zero. *)
Definition round_half_away (x : f32) : option Z :=
  match x with
  | S754_zero _ => Some 0
  | S754_finite s m e =>
      Some (cond_Zopp s (if 0 <=? e then Zpos m * 2 ^ e
                         else (Zpos m + 2 ^ (- e - 1)) / 2 ^ (- e)))
  | _ => None
  end.

Definition lroundf (M : Libm) (x : f32) : Z :=
  match round_half_away x with
  | Some n => if (- 0x80000000 <=? n) && (n <? 0x80000000) then n
              else lround_unspecified M x
  | None => lround_unspecified M x
  end.

(** ** MultiBandLockIn *)

Module BandState.
Record t := {
  ref_sin : list f32;
  ref_cos : list f32;
  filter_alpha : f32;
  i : f32;
  q : f32;
  amplitude : f32;
  phase : f32
}.
End BandState.

Record MultiBandLockIn := {
  bands_ : list BandState.t;
  index_ : Z
}.

Definition WINDOW : Z := SAMPLE_RATE_HZ.

Section LockIn.
Variable M : Libm.

Definition reset_alpha (band : nat) : f32 :=
  let bandwidth := std_max f32_lt (f32_lit 1 10) (bandwidth_hz (kBand band)) in
  let alpha :=
    expf M (f32_of_Z (-2) * PI_F * bandwidth / f32_of_Z SAMPLE_RATE_HZ)%f32 in
  clampValue f32_lt alpha f32_zero (f32_lit 9995 10000).

Definition ref_table (fn : f32 -> f32) (freq : f32) : list f32 :=
  map (fun i : nat =>
         let t := (f32_of_Z (Z.of_nat i) / f32_of_Z SAMPLE_RATE_HZ)%f32 in
         fn (TWO_PI_F * freq * t)%f32)
      (seq 0 (Z.to_nat WINDOW)).

Definition reset_band (band : nat) : BandState.t :=
  let freq := center_hz (kBand band) in
  {| BandState.ref_sin := ref_table (sinf M) freq;
     BandState.ref_cos := ref_table (cosf M) freq;
     BandState.filter_alpha := reset_alpha band;
     BandState.i := f32_zero;
     BandState.q := f32_zero;
     BandState.amplitude := f32_zero;
     BandState.phase := f32_zero |}.

Definition reset : MultiBandLockIn :=
  {| bands_ := map reset_band (seq 0 BAND_COUNT); index_ := 0 |}.

Definition process_band (idx : Z) (sample_uv : f32) (state : BandState.t)
    : BandState.t :=
  let i_raw := (sample_uv * nth (Z.to_nat idx) (BandState.ref_cos state) f32_zero)%f32 in
  let q_raw := (sample_uv * nth (Z.to_nat idx) (BandState.ref_sin state) f32_zero)%f32 in
  let beta := (f32_one - BandState.filter_alpha state)%f32 in
  let i' := (BandState.filter_alpha state * BandState.i state + beta * i_raw)%f32 in
  let q' := (BandState.filter_alpha state * BandState.q state + beta * q_raw)%f32 in
  {| BandState.ref_sin := BandState.ref_sin state;
     BandState.ref_cos := BandState.ref_cos state;
     BandState.filter_alpha := BandState.filter_alpha state;
     BandState.i := i';
     BandState.q := q';
     BandState.amplitude := (f32_of_Z 2 * sqrtf (i' * i' + q' * q'))%f32;
     BandState.phase := atan2f M q' i' |}.

Definition process (self : MultiBandLockIn) (sample_uv : f32) : MultiBandLockIn :=
  let idx := index_ self in
  {| bands_ := map (process_band idx sample_uv) (bands_ self);
     index_ := u32 (index_ self + 1) mod WINDOW |}.

Definition snapshot (self : MultiBandLockIn) : list f32 * list f32 :=
  (map BandState.amplitude (bands_ self), map BandState.phase (bands_ self)).

(** [loop()]: one frame of raw counts through the eight processors. *)
Definition sample_uv_of (raw : Z) : f32 := (f32_of_Z raw * ADC_SCALE_UV)%f32.

Definition process_frame (procs : list MultiBandLockIn) (frame : list Z)
    : list MultiBandLockIn :=
  imap (fun ch p => process p (sample_uv_of (nth ch frame 0))) procs.

Definition snapshot_all (procs : list MultiBandLockIn) : BandMatrix * BandMatrix :=
  (map (fun p => fst (snapshot p)) procs, map (fun p => snd (snapshot p)) procs).
End LockIn.

(** ** SigprintComposer *)

Definition HISTORY_WINDOW : Z := 64.

Record SigprintComposer := {
  initialized_ : bool;
  previous_power_ : list f32;
  history_ : list (list f32);
  history_index_ : list Z;
  history_fill_count_ : list Z
}.

(** The constructor. *)
Definition SigprintComposer_new : SigprintComposer :=
  {| initialized_ := false;
     previous_power_ := replicate BAND_COUNT f32_zero;
     history_ := replicate BAND_COUNT (replicate (Z.to_nat HISTORY_WINDOW) f32_zero);
     history_index_ := replicate BAND_COUNT 0;
     history_fill_count_ := replicate BAND_COUNT 0 |}.

Definition LEFT_INDICES : list nat := [0; 2; 4; 6]%nat.
Definition RIGHT_INDICES : list nat := [1; 3; 5; 7]%nat.
Definition FRONTAL : list nat := [0; 1; 2; 3]%nat.
Definition OCCIPITAL : list nat := [6; 7]%nat.

(** [std::accumulate(first, last, 0.0f, ...)] and the [+=] loops. *)
Definition accumulate {A : Type} (f : A -> f32) (xs : list A) : f32 :=
  fold_left (fun acc x => (acc + f x)%f32) xs f32_zero.

(** The two [while] loops that bring [phase_diff_deg] into [0, 360); the fuel
    bounds the number of iterations, [None] is a loop still running. *)
Fixpoint wrap_below (fuel : nat) (phase_diff_deg : f32) : option f32 :=
  if (phase_diff_deg <? f32_zero)%f32 then
    match fuel with
    | O => None
    | S fuel => wrap_below fuel (phase_diff_deg + f32_of_Z 360)%f32
    end
  else Some phase_diff_deg.

Fixpoint wrap_above (fuel : nat) (phase_diff_deg : f32) : option f32 :=
  if (phase_diff_deg >=? f32_of_Z 360)%f32 then
    match fuel with
    | O => None
    | S fuel => wrap_above fuel (phase_diff_deg - f32_of_Z 360)%f32
    end
  else Some phase_diff_deg.

(** Two decimal digits of an [int], by C's truncating [/] and [%]. *)
Definition two_digits (v : Z) : list Z := [ u8 (Z.quot v 10); u8 (Z.rem v 10) ].

(** [std::array<uint16_t, 10> digit_counts] after the counting loop. *)
Definition digit_counts (ds : list Z) : list Z :=
  fold_left (fun counts digit =>
               <[Z.to_nat digit := u16 (nth (Z.to_nat digit) counts 0 + 1)]> counts)
            ds (replicate 10 0).

(** The per-band body of the gate and loop detection: the state, the gate
    flags and the loop flags before and after band [band]. *)
Definition detect_band (avg_power : list f32)
    (acc : SigprintComposer * Z * Z) (band : nat) : SigprintComposer * Z * Z :=
  let '(self, gate, loop) := acc in
  let avg := nth band avg_power f32_zero in
  let prev := nth band (previous_power_ self) f32_zero in
  let gate :=
    if initialized_ self then
      let denom := std_max f32_lt prev (f32_lit 1 1000) in
      let delta := (fabsf (avg - prev) / denom)%f32 in
      if (delta >=? f32_lit 35 100)%f32
      then u8 (Z.lor gate (u8 (Z.shiftl 1 (Z.of_nat band))))
      else gate
    else gate in
  let previous_power := <[band := avg]> (previous_power_ self) in
  let lookback := 20 in
  let history_len := HISTORY_WINDOW in
  let head := nth band (history_index_ self) 0 in
  let history :=
    <[band := <[Z.to_nat head := avg]> (nth band (history_ self) [])]> (history_ self) in
  let history_index :=
    <[band := u32 (head + 1) mod history_len]> (history_index_ self) in
  let fill := nth band (history_fill_count_ self) 0 in
  let fill := if fill <? history_len then u16 (fill + 1) else fill in
  let history_fill_count := <[band := fill]> (history_fill_count_ self) in
  let loop :=
    if initialized_ self && (lookback <? fill) then
      let idx := u32 (head + history_len - lookback) mod history_len in
      let reference := nth (Z.to_nat idx) (nth band history []) f32_zero in
      let denom := std_max f32_lt reference (f32_lit 1 1000) in
      let deviation := (fabsf (avg - reference) / denom)%f32 in
      if (deviation <=? f32_lit 5 100)%f32
      then u8 (Z.lor loop (u8 (Z.shiftl 1 (Z.of_nat band))))
      else loop
    else loop in
  ({| initialized_ := initialized_ self;
      previous_power_ := previous_power;
      history_ := history;
      history_index_ := history_index;
      history_fill_count_ := history_fill_count |}, gate, loop).

Definition set_initialized (self : SigprintComposer) : SigprintComposer :=
  {| initialized_ := true;
     previous_power_ := previous_power_ self;
     history_ := history_ self;
     history_index_ := history_index_ self;
     history_fill_count_ := history_fill_count_ self |}.

Section Composer.
Variable M : Libm.

Definition avg_power_of (amplitude : BandMatrix) (band : nat) : f32 :=
  (accumulate (fun ch => mat_get amplitude ch band) (seq 0 CHANNEL_COUNT)
   / f32_of_Z (Z.of_nat CHANNEL_COUNT))%f32.

Definition band_coherence_of (phases : BandMatrix) (band : nat) : f32 :=
  let sin_sum := accumulate (fun ch => sinf M (mat_get phases ch band)) (seq 0 CHANNEL_COUNT) in
  let cos_sum := accumulate (fun ch => cosf M (mat_get phases ch band)) (seq 0 CHANNEL_COUNT) in
  let magnitude := sqrtf (sin_sum * sin_sum + cos_sum * cos_sum)%f32 in
  clampValue f32_lt (magnitude / f32_of_Z (Z.of_nat CHANNEL_COUNT))%f32 f32_zero f32_one.

Definition coherence_of (phases : BandMatrix) : f32 :=
  let coherence_sum :=
    accumulate (fun band => (band_coherence_of phases band * weight (kBand band))%f32)
               (seq 0 BAND_COUNT) in
  clampValue f32_lt coherence_sum f32_zero f32_one.

Definition mean_angle (phases : BandMatrix) (indices : list nat) : f32 :=
  let sin_sum := accumulate (fun idx => sinf M (mat_get phases idx 2)) indices in
  let cos_sum := accumulate (fun idx => cosf M (mat_get phases idx 2)) indices in
  atan2f M (sin_sum / f32_of_Z (Z.of_nat (length indices)))%f32
           (cos_sum / f32_of_Z (Z.of_nat (length indices)))%f32.

Definition phase_diff_deg_of (phases : BandMatrix) : f32 :=
  let left_phase := mean_angle phases LEFT_INDICES in
  let right_phase := mean_angle phases RIGHT_INDICES in
  ((left_phase - right_phase) * f32_of_Z 180 / PI_F)%f32.

(** [clampValue(static_cast<int>(lroundf(x)), 0, hi)]. *)
Definition metric (x : f32) (hi : Z) : Z := clampValue Z.ltb (i32 (lroundf M x)) 0 hi.

Definition lr_ratio_of (amplitude : BandMatrix) : Z :=
  let left_power_alpha := accumulate (fun idx => mat_get amplitude idx 2) LEFT_INDICES in
  let right_power_alpha := accumulate (fun idx => mat_get amplitude idx 2) RIGHT_INDICES in
  let lr_total := (left_power_alpha + right_power_alpha + f32_lit 1 1000000)%f32 in
  metric (left_power_alpha / lr_total * f32_of_Z 99)%f32 99.

Definition region_sum (amplitude : BandMatrix) (region : list nat) : f32 :=
  accumulate (fun idx => accumulate (fun v : f32 => v) (nth idx amplitude [])) region.

Definition regional_pct (amplitude : BandMatrix) : Z * Z :=
  let frontal_sum := region_sum amplitude FRONTAL in
  let occipital_sum := region_sum amplitude OCCIPITAL in
  let regional_total := (frontal_sum + occipital_sum + f32_lit 1 1000000)%f32 in
  (metric (frontal_sum / regional_total * f32_of_Z 99)%f32 99,
   metric (occipital_sum / regional_total * f32_of_Z 99)%f32 99).

Definition coherence_digits (coh : f32) : list Z :=
  let coherence_value := metric (coh * f32_of_Z 9999)%f32 9999 in
  [ u8 (Z.rem (Z.quot coherence_value 1000) 10);
    u8 (Z.rem (Z.quot coherence_value 100) 10);
    u8 (Z.rem (Z.quot coherence_value 10) 10);
    u8 (Z.rem coherence_value 10) ].

Definition band_digit (avg_power : list f32) (band : nat) : Z :=
  let weighted := (nth band avg_power f32_zero * weight (kBand band))%f32 in
  let normalized := (weighted / (weighted + f32_of_Z 25))%f32 in
  u8 (metric (normalized * f32_of_Z 9)%f32 9).

Definition checksum_digits (ds : list Z) : list Z :=
  let checksum_seed := fold_left (fun acc d => u32 (acc + d)) (take 18 ds) 0 in
  let checksum_val := i32 (checksum_seed mod 97) in
  [ u8 (Z.rem (Z.quot checksum_val 10) 10); u8 (Z.rem checksum_val 10) ].

Definition entropy_of (ds : list Z) : f32 :=
  let total_digits := f32_of_Z (Z.of_nat (length ds)) in
  fold_left (fun entropy count =>
               if count =? 0 then entropy
               else
                 let p := (f32_of_Z count / total_digits)%f32 in
                 (entropy - p * (logf M p / logf M (f32_of_Z 2)))%f32)
            (digit_counts ds) f32_zero.

(** [std::array<float, BAND_COUNT> avg_power] after the first loop. *)
Definition avg_powers (amplitude : BandMatrix) : list f32 :=
  map (avg_power_of amplitude) (seq 0 BAND_COUNT).

(** [result.digits[0..17]], once the two [while] loops have left
    [phase_diff_deg]. *)
Definition digits18_of (amplitude phases : BandMatrix) (stage_hint : Z)
    (phase_diff_deg : f32) : list Z :=
  let phase_metric := metric (phase_diff_deg / f32_lit 36 10)%f32 99 in
  let lr_ratio := lr_ratio_of amplitude in
  let '(frontal_pct, occipital_pct) := regional_pct amplitude in
  two_digits phase_metric ++ two_digits lr_ratio
  ++ two_digits frontal_pct ++ two_digits occipital_pct
  ++ coherence_digits (coherence_of phases)
  ++ map (band_digit (avg_powers amplitude)) (seq 0 BAND_COUNT)
  ++ [u8 (stage_hint mod 10)].

(** [compose] from the digit assignments on. *)
Definition compose_finish (self : SigprintComposer)
    (amplitude phases : BandMatrix) (stage_hint : Z) (phase_diff_deg : f32)
    : SigprintResult * SigprintComposer :=
  let digits18 := digits18_of amplitude phases stage_hint phase_diff_deg in
  let '(self', gate, loop) :=
    fold_left (detect_band (avg_powers amplitude)) (seq 0 BAND_COUNT) (self, 0, 0) in
  let ds := digits18 ++ checksum_digits digits18 in
  ({| digits := ds;
      coherence := coherence_of phases;
      gate_flags := gate;
      loop_flags := loop;
      entropy := entropy_of ds |},
   set_initialized self').

Definition compose (fuel : nat) (self : SigprintComposer)
    (amplitude phases : BandMatrix) (stage_hint : Z)
    : option (SigprintResult * SigprintComposer) :=
  deg ← wrap_below fuel (phase_diff_deg_of phases);
  phase_diff_deg ← wrap_above fuel deg;
  Some (compose_finish self amplitude phases stage_hint phase_diff_deg).
End Composer.

(** ** Reading a packet back *)

Definition slice (off len : nat) (bytes : list Z) : list Z := take len (drop off bytes).

(** The unsigned little-endian value of a byte string. *)
Definition le_value (bytes : list Z) : Z :=
  fold_right (fun b acc => b + 0x100 * acc) 0 bytes.

(** The sign extension of [Ads1299Interface::readFrame]. *)
Definition sign_extend24 (value : Z) : Z :=
  if Z.land value 0x00800000 =? 0 then value else i32 (Z.lor value 0xFF000000).

(** Modelled from the spec: a decoder of the payload layout of §4.3; the
    repository has no receiver apart from the dashboard script, which reads
    the BCD digits by [(bcd >> 4) & 0x0F] and [bcd & 0x0F].  Samples are
    three bytes, low byte first, sign-extended from bit 23; the matrices are
    channel-major little-endian binary32 words from offsets 24 and 184; the
    digits are the two nibbles of the ten bytes from offset 344. *)
Definition decode_raw (payload : list Z) : list Z :=
  map (fun ch => sign_extend24 (le_value (slice (3 * ch) 3 payload))) (seq 0 CHANNEL_COUNT).

Definition decode_matrix_bits (base : nat) (payload : list Z) : list (list Z) :=
  map (fun ch =>
         map (fun band => le_value (slice (base + 4 * (BAND_COUNT * ch + band)) 4 payload))
             (seq 0 BAND_COUNT))
      (seq 0 CHANNEL_COUNT).

Definition decode_matrix (base : nat) (payload : list Z) : BandMatrix :=
  map (map f32_of_bits) (decode_matrix_bits base payload).

Definition decode_digits (payload : list Z) : list Z :=
  flat_map (fun k => let bcd := nth (344 + k) payload 0 in
                     [ Z.land (Z.shiftr bcd 4) 0x0F; Z.land bcd 0x0F ])
           (seq 0 10).

(** The payload of a frame: what follows the twelve header bytes. *)
Definition packet_payload (packet : list Z) : list Z :=
  drop (Z.to_nat HEADER_SIZE) packet.

(** The twelve header bytes of §4.3 for a given time stamp and CRC. *)
Definition header_bytes (timestamp_ms crc : Z) : list Z :=
  writeUint16LE 0x5347 ++ [0x01; 0x01] ++ writeUint32LE timestamp_ms
  ++ writeUint16LE PAYLOAD_BYTES ++ writeUint16LE crc.

(** The sum of a list of digits. *)
Definition digit_sum (ds : list Z) : Z := foldr Z.add 0 ds.

(** ** Conditions of the gate and loop detection, in the words of the spec *)

(** The shape of the composer's arrays. *)
Definition wf_composer (self : SigprintComposer) : Prop :=
  length (previous_power_ self) = BAND_COUNT /\
  length (history_ self) = BAND_COUNT /\
  Forall (fun row => length row = Z.to_nat HISTORY_WINDOW) (history_ self) /\
  length (history_index_ self) = BAND_COUNT /\
  length (history_fill_count_ self) = BAND_COUNT.

(** [|mean - reference| / max(reference, 1e-3)]. *)
Definition relative_change (reference mean : f32) : f32 :=
  (fabsf (mean - reference) / std_max f32_lt reference (f32_lit 1 1000))%f32.

Definition gate_event (previous_power mean : f32) : bool :=
  (relative_change previous_power mean >=? f32_lit 35 100)%f32.

Definition loop_event (reference mean : f32) : bool :=
  (relative_change reference mean <=? f32_lit 5 100)%f32.

(** [flags |= static_cast<uint8_t>(1U << band)]. *)
Definition set_flag (flags : Z) (band : nat) : Z :=
  u8 (Z.lor flags (u8 (Z.shiftl 1 (Z.of_nat band)))).

(** The per-band views of the composer state. *)
Definition band_head (self : SigprintComposer) (band : nat) : Z :=
  nth band (history_index_ self) 0.
Definition band_fill (self : SigprintComposer) (band : nat) : Z :=
  nth band (history_fill_count_ self) 0.
Definition band_history (self : SigprintComposer) (band : nat) : list f32 :=
  nth band (history_ self) [].
Definition band_previous (self : SigprintComposer) (band : nat) : f32 :=
  nth band (previous_power_ self) f32_zero.

(** The fill count after one more write, and the slot [lookback] ticks back. *)
Definition next_fill (fill : Z) : Z :=
  if fill <? HISTORY_WINDOW then u16 (fill + 1) else fill.

Definition lookback_slot (head : Z) : Z :=
  u32 (head + HISTORY_WINDOW - 20) mod HISTORY_WINDOW.

(** ** Values of binary32 numbers

    A finite number or a zero whose exponent is not below that of the
    subnormals has the integer value [f32_val] in units of 2^-149. *)
Definition f32_fin (x : f32) : Prop :=
  match x with
  | S754_zero _ => True
  | S754_finite _ _ e => -149 <= e <= 104
  | _ => False
  end.

Definition f32_val (x : f32) : Z :=
  match x with
  | S754_finite s m e => cond_Zopp s (Zpos m * 2 ^ (e + 149))
  | _ => 0
  end.

(** The sign bit of a number. *)
Definition f32_sign (x : f32) : bool :=
  match x with
  | S754_zero s | S754_infinity s | S754_finite s _ _ => s
  | S754_nan => false
  end.

(** One degree, as a value. *)
Definition deg_unit : Z := 2 ^ 149.

(** A phase difference that the two loops can wrap: not a number, or finite
    and within 8192 degrees. *)
Definition deg_ok (x : f32) : Prop :=
  x = S754_nan \/ (f32_fin x /\ - (8192 * deg_unit) < f32_val x < 8192 * deg_unit).

(** What the C standard asks of [atan2f]: a result in [-pi, pi], or a NaN. *)
Definition atan2f_in_range (M : Libm) : Prop :=
  forall y x : f32,
    atan2f M y x = S754_nan \/
    (is_f32 (atan2f M y x) /\ f32_finite (atan2f M y x) = true /\
     (fabsf (atan2f M y x) <=? PI_F)%f32 = true).

(** ** A math library to run the firmware with

    Each function is the mathematical one evaluated in fixed point, 64 places
    below the binary point, and rounded to binary32; the special cases are
    those of Annex F of the C standard.  [lroundf] outside its range returns
    [LONG_MIN]. *)
Module RefLibm.
Definition FIX : Z := 2 ^ 64.
Definition PI_FIX : Z := 57952155664616982739.
Definition LN2_FIX : Z := 12786308645202655659.

Definition to_fix (x : f32) : Z :=
  match x with
  | S754_finite s m e =>
      cond_Zopp s (if 0 <=? e + 64 then Zpos m * 2 ^ (e + 64)
                   else Zpos m / 2 ^ (- (e + 64)))
  | _ => 0
  end.

Definition of_fix (z : Z) : f32 := binary_normalize prec emax z (-64) false.

Definition fmul (a b : Z) : Z := a * b / FIX.

(** [acc + t1 + t2 + ...] where each term comes from the one before. *)
Fixpoint series (n : nat) (next : Z -> Z -> Z) (k term acc : Z) : Z :=
  match n with
  | O => acc
  | S n => let t := next k term in series n next (k + 1) t (acc + t)
  end.

(** The argument brought into [-pi, pi). *)
Definition reduce (z : Z) : Z := (z + PI_FIX) mod (2 * PI_FIX) - PI_FIX.

Definition sin_fix (r : Z) : Z :=
  let r2 := fmul r r in
  series 16 (fun k t => - (fmul t r2) / (2 * k * (2 * k + 1))) 1 r r.

Definition cos_fix (r : Z) : Z :=
  let r2 := fmul r r in
  series 16 (fun k t => - (fmul t r2) / ((2 * k - 1) * (2 * k))) 1 FIX FIX.

(** Below 2^-12 the sine is its argument, to the precision of the format. *)
Definition tiny (m : positive) (e : Z) : bool := Zpos (digits2_pos m) + e <=? -12.

Definition sinf (x : f32) : f32 :=
  match x with
  | S754_zero _ => x
  | S754_finite _ m e => if tiny m e then x else of_fix (sin_fix (reduce (to_fix x)))
  | _ => S754_nan
  end.

Definition cosf (x : f32) : f32 :=
  match x with
  | S754_zero _ => f32_one
  | S754_finite _ _ _ => of_fix (cos_fix (reduce (to_fix x)))
  | _ => S754_nan
  end.

(** [atan t = 2 atan (t / (1 + sqrt (1 + t^2)))]. *)
Definition atan_half (t : Z) : Z := t * FIX / (FIX + Z.sqrt (FIX * FIX + t * t)).

Fixpoint atan_series (n : nat) (u2 k pow acc : Z) : Z :=
  match n with
  | O => acc
  | S n => let pow' := - fmul pow u2 in
           atan_series n u2 (k + 1) pow' (acc + pow' / (2 * k + 1))
  end.

(** The arc tangent of [t] in [0, 1]. *)
Definition atan_fix (t : Z) : Z :=
  let u := atan_half (atan_half t) in
  4 * atan_series 20 (fmul u u) 1 u u.

Definition in_range (v : f32) : bool :=
  valid_binary prec emax v && f32_finite v && (fabsf v <=? PI_F)%f32.

Definition signed (s : bool) (v : f32) : f32 := if s then SFopp v else v.

Definition atan2f (y x : f32) : f32 :=
  match y, x with
  | S754_nan, _ | _, S754_nan => S754_nan
  | S754_zero sy, (S754_zero sx | S754_finite sx _ _ | S754_infinity sx) =>
      if sx then signed sy (of_fix PI_FIX) else S754_zero sy
  | S754_finite sy _ _, S754_zero _ => signed sy (of_fix (PI_FIX / 2))
  | S754_finite sy _ _, S754_infinity sx =>
      if sx then signed sy (of_fix PI_FIX) else S754_zero sy
  | S754_infinity sy, S754_infinity sx =>
      signed sy (of_fix (if sx then 3 * PI_FIX / 4 else PI_FIX / 4))
  | S754_infinity sy, _ => signed sy (of_fix (PI_FIX / 2))
  | S754_finite sy my ey, S754_finite sx mx ex =>
      let emn := Z.min ey ex in
      let ny := Zpos my * 2 ^ (ey - emn) in
      let nx := Zpos mx * 2 ^ (ex - emn) in
      let a := if ny <=? nx then atan_fix (ny * FIX / nx)
               else PI_FIX / 2 - atan_fix (nx * FIX / ny) in
      let a := if sx then PI_FIX - a else a in
      let v := if a <? 2 ^ 34 then fabsf (y / x)%f32 else of_fix a in
      let v := signed sy v in
      if in_range v then v else S754_nan
  end.

Definition exp_fix (r : Z) : Z := series 24 (fun k t => fmul t r / k) 1 FIX FIX.

(** A result that is not a number of the format is reported as a NaN. *)
Definition checked (v : f32) : f32 := if valid_binary prec emax v then v else S754_nan.

Definition expf (x : f32) : f32 :=
  match x with
  | S754_zero _ => f32_one
  | S754_nan => S754_nan
  | S754_infinity s => if s then f32_zero else x
  | S754_finite _ _ _ =>
      let z := to_fix x in
      if 89 * FIX <? z then S754_infinity false
      else if z <? -104 * FIX then f32_zero
      else let k := z / LN2_FIX in
           checked (binary_normalize prec emax (exp_fix (z - k * LN2_FIX)) (-64 + k) false)
  end.

Fixpoint atanh_series (n : nat) (w2 k pow acc : Z) : Z :=
  match n with
  | O => acc
  | S n => let pow' := fmul pow w2 in
           atanh_series n w2 (k + 1) pow' (acc + pow' / (2 * k + 1))
  end.

Definition logf (x : f32) : f32 :=
  match x with
  | S754_zero _ => S754_infinity true
  | S754_infinity false => x
  | S754_finite false m e =>
      let d := Zpos (digits2_pos m) in
      let mfix := Zpos m * FIX / 2 ^ (d - 1) in
      let w := (mfix - FIX) * FIX / (mfix + FIX) in
      of_fix ((e + d - 1) * LN2_FIX + 2 * atanh_series 24 (fmul w w) 1 w w)
  | _ => S754_nan
  end.

Definition libm : Libm :=
  Build_Libm sinf cosf atan2f expf logf (fun _ => - 0x80000000).
End RefLibm.

(** ** Runs of the composer *)

(** What the constructor establishes and every call keeps: the heads are
    inside the ring and the fill counts are at most its length. *)
Definition composer_inv (self : SigprintComposer) : Prop :=
  wf_composer self /\
  forall band, (band < BAND_COUNT)%nat ->
    0 <= band_head self band < HISTORY_WINDOW /\
    0 <= band_fill self band <= HISTORY_WINDOW.

(** Successive [compose] calls, each on its own snapshot and stage hint. *)
Fixpoint compose_run (M : Libm) (fuel : nat)
    (calls : list (BandMatrix * BandMatrix * Z)) (self : SigprintComposer)
    : option SigprintComposer :=
  match calls with
  | [] => Some self
  | (amplitude, phases, stage_hint) :: calls =>
      match compose M fuel self amplitude phases stage_hint with
      | Some (_, self') => compose_run M fuel calls self'
      | None => None
      end
  end.

(** The last [j] writes of band [band] (at most a whole ring) all stored [c]. *)
Definition ring_constant (self : SigprintComposer) (band : nat) (c : f32) (j : Z) : Prop :=
  forall i, 1 <= i <= Z.min j HISTORY_WINDOW ->
    nth (Z.to_nat ((band_head self band - i) mod HISTORY_WINDOW))
        (band_history self band) f32_zero = c.

(** Every call of the list has the per-band means [c]. *)
Definition constant_means (c : list f32) (calls : list (BandMatrix * BandMatrix * Z)) : Prop :=
  Forall (fun call => avg_powers (fst (fst call)) = c) calls.

(** A processor after its constructor and one [process] call per sample. *)
Definition lockin_run (M : Libm) (samples : list f32) : MultiBandLockIn :=
  fold_left (process M) samples (reset M).

(** ** Silence

    What Annex F of the C standard fixes at zero. *)
Definition libm_at_zero (M : Libm) : Prop :=
  sinf M f32_zero = f32_zero /\ cosf M f32_zero = f32_one /\
  atan2f M f32_zero f32_zero = f32_zero.

(** Sine and cosine of a finite number are finite, and [expf] returns
    numbers of the format. *)
Definition libm_finite (M : Libm) : Prop :=
  (forall x, f32_finite x = true ->
     f32_finite (sinf M x) = true /\ f32_finite (cosf M x) = true) /\
  (forall x, is_f32 (expf M x)).

(** A processor fed [n] zero samples after its constructor, and the snapshot
    of eight of them. *)
Definition silent_bank (M : Libm) (n : nat) : MultiBandLockIn :=
  lockin_run M (replicate n f32_zero).

Definition silent_snapshot (M : Libm) (n : nat) : BandMatrix * BandMatrix :=
  snapshot_all (replicate CHANNEL_COUNT (silent_bank M n)).

(** ** Signs

    [sgn_in s x]: [x] is a zero, or a number or an infinity of sign [s]. *)
Definition sgn_in (s : bool) (x : f32) : Prop :=
  match x with
  | S754_nan => False
  | S754_zero _ => True
  | S754_infinity s' | S754_finite s' _ _ => s' = s
  end.

(** The logarithms the entropy loop takes: of [count / 20] for the counts a
    20-digit histogram can hold, none of them positive, and of 2, a positive
    number. *)
Definition logf_signs (M : Libm) : Prop :=
  (forall count, 1 <= count <= 20 ->
     (logf M (f32_of_Z count / f32_of_Z 20) <=? f32_zero)%f32 = true) /\
  (f32_zero <? logf M (f32_of_Z 2))%f32 = true /\
  f32_finite (logf M (f32_of_Z 2)) = true.

(** An input whose fingerprint holds every decimal digit twice. *)
Definition uniform_amplitude : BandMatrix :=
  map (map f32_of_Z)
    [ [0; 0; 169; 0; 0];
      [0; 0; 1131; 0; 0];
      [500; 700; 0; 800; 0];
      [0; 0; 0; 600; 900];
      [200; 200; 0; 0; 0];
      [0; 0; 0; 0; 300];
      [300; 400; 0; 300; 0];
      [0; 0; 0; 300; 500] ].

Definition uniform_phases : BandMatrix :=
  map (fun ch : nat =>
         [if Nat.odd ch then PI_F else f32_zero; f32_zero; f32_zero; f32_zero; f32_zero])
      (seq 0 CHANNEL_COUNT).

(** ** Inputs of the examples *)

(** Every channel with the same five band values. *)
Definition level_matrix (row : list f32) : BandMatrix := replicate CHANNEL_COUNT row.

Definition flat_matrix (v : f32) : BandMatrix := level_matrix (replicate BAND_COUNT v).

(** Amplitude 1 everywhere but in the alpha band, where it is [v]. *)
Definition alpha_step (v : f32) : BandMatrix :=
  level_matrix [f32_one; f32_one; v; f32_one; f32_one].

Definition blank_result : SigprintResult :=
  {| digits := replicate 20 0; coherence := f32_zero;
     gate_flags := 0; loop_flags := 0; entropy := f32_zero |}.

(** ** Stage cycling *)

Definition kStageFrequencies : list Z := [222; 333; 1111; 2222; 11111; 22222].
Definition STAGE_HOLD_MS : Z := 15000.

Module StageState.
Record t := {
  stage : Z;
  last_transition_ms : Z
}.
End StageState.

(** [StageState stage_state{}] with its default member initializers. *)
Definition StageState_new : StageState.t :=
  {| StageState.stage := 1; StageState.last_transition_ms := 0 |}.

(** [stage] is a [uint8_t]; [(stage - 1) % kStageFrequencies.size()] is taken
    in [size_t]. *)
Definition stageFrequency (stage : Z) : Z :=
  if stage =? 0 then 0
  else
    let index := u32 (stage - 1) mod Z.of_nat (length kStageFrequencies) in
    nth (Z.to_nat index) kStageFrequencies 0.

Definition updateStage (state : StageState.t) (now_ms : Z) : StageState.t :=
  if u32 (now_ms - StageState.last_transition_ms state) >=? STAGE_HOLD_MS then
    let stage := u8 (StageState.stage state + 1) in
    let stage := if Z.of_nat (length kStageFrequencies) <? stage then 1 else stage in
    {| StageState.stage := stage; StageState.last_transition_ms := now_ms |}
  else state.

(** [updateStage] at each of the times of [loop()]. *)
Definition stage_run (times : list Z) (state : StageState.t) : StageState.t :=
  fold_left updateStage times state.

(** ** Reading the converter *)

(** One channel of [Ads1299Interface::readFrame]: the three bytes that
    [hspi.transfer] returns, high byte first, and the sign extension. *)
Definition read_channel (b0 b1 b2 : Z) : Z :=
  let value := 0 in
  let value := Z.lor value (i32 (Z.shiftl b0 16)) in
  let value := Z.lor value (i32 (Z.shiftl b1 8)) in
  let value := Z.lor value b2 in
  if Z.land value 0x00800000 =? 0 then value else i32 (Z.lor value 0xFF000000).

(** [readFrame] on the bytes of one transfer: three status bytes that are
    dropped, then three bytes for each channel; nothing is read while
    [g_data_ready] is clear. *)
Definition readFrame (g_data_ready : bool) (spi : list Z) : option (list Z) :=
  if g_data_ready then
    Some (map (fun ch => read_channel (nth (3 + 3 * ch) spi 0)
                                      (nth (3 + 3 * ch + 1) spi 0)
                                      (nth (3 + 3 * ch + 2) spi 0))
              (seq 0 CHANNEL_COUNT))
  else None.

(** The processors of [loop()] after [setup()] and [n] all-zero frames. *)
Definition silent_frames (M : Libm) (n : nat) : list MultiBandLockIn :=
  Nat.iter n (fun procs => process_frame M procs (replicate CHANNEL_COUNT 0))
           (replicate CHANNEL_COUNT (reset M)).

(** ** The CRC by its parameters

    The spec names the check by the parameters of the CRC catalogues:
    CRC-16/CCITT-FALSE, polynomial 0x1021, initial value 0xFFFF, no
    reflection, no final exclusive or.  [spec_crc] is the parametrised
    algorithm these words refer to: a register of [width] bits that takes the
    message one bit at a time, for each byte from the high bit down (from the
    low bit up when the input is reflected); a one leaving the register,
    exclusive-ored with the message bit, brings in the polynomial.  It is
    written from that description and not from [crc16_ccitt], with which it
    is compared. *)
Record CrcModel := {
  crc_width : Z;
  crc_poly : Z;
  crc_init : Z;
  crc_refin : bool;
  crc_refout : bool;
  crc_xorout : Z
}.

Definition spec_byte_bits (refin : bool) (byte : Z) : list bool :=
  let high_first := map (fun k : nat => Z.testbit byte (Z.of_nat k)) [7; 6; 5; 4; 3; 2; 1; 0]%nat in
  if refin then rev high_first else high_first.

Definition spec_crc_shift (m : CrcModel) (reg : Z) (bit : bool) : Z :=
  let top := Z.testbit reg (crc_width m - 1) in
  let reg' := (2 * reg) mod 2 ^ crc_width m in
  if xorb top bit then Z.lxor reg' (crc_poly m) else reg'.

(** The bits of a register in reverse order. *)
Definition spec_reflect (width : Z) (v : Z) : Z :=
  fold_left (fun acc k => if Z.testbit v (Z.of_nat k)
                          then Z.lor acc (2 ^ (width - 1 - Z.of_nat k)) else acc)
            (seq 0 (Z.to_nat width)) 0.

Definition spec_crc (m : CrcModel) (data : list Z) : Z :=
  let reg := fold_left (spec_crc_shift m)
                       (flat_map (spec_byte_bits (crc_refin m)) data) (crc_init m) in
  Z.lxor (if crc_refout m then spec_reflect (crc_width m) reg else reg) (crc_xorout m).

Definition CRC16_CCITT_FALSE : CrcModel :=
  {| crc_width := 16; crc_poly := 0x1021; crc_init := 0xFFFF;
     crc_refin := false; crc_refout := false; crc_xorout := 0 |}.

(** ** Accuracy of the logarithm

    [f32_ord] numbers the binary32 values in increasing order, the two zeros
    at 0; two numbers next to each other differ by one.  [ulp_near x ref]: [x]
    is a finite number of the format at most one step from [ref]. *)
Definition f32_ord (x : f32) : Z :=
  let b := f32_bits x in
  if b <? 0x80000000 then b else - (b - 0x80000000).

Definition ulp_near (x ref : f32) : bool :=
  valid_binary prec emax x && f32_finite x && (Z.abs (f32_ord x - f32_ord ref) <=? 1).

(** The logarithms the entropy loop takes, of [count / 20] and of 2, are
    within one unit in the last place of those of the reference library. *)
Definition logf_near (M : Libm) : Prop :=
  (forall count, 1 <= count <= 20 ->
     ulp_near (logf M (f32_of_Z count / f32_of_Z 20)%f32)
              (RefLibm.logf (f32_of_Z count / f32_of_Z 20)%f32) = true) /\
  ulp_near (logf M (f32_of_Z 2)) (RefLibm.logf (f32_of_Z 2)) = true.

(** The words of the format at most one step from place [o], and the numbers
    they stand for. *)
Definition ord_words (o : Z) : list Z :=
  flat_map (fun v => (if 0 <=? v then [v] else []) ++
                     (if v <=? 0 then [0x80000000 - v] else []))
           [o - 1; o; o + 1].

Definition ulp_cands (ref : f32) : list f32 := map f32_of_bits (ord_words (f32_ord ref)).

Definition f32_finb (x : f32) : bool :=
  match x with
  | S754_zero _ => true
  | S754_finite _ _ e => (-149 <=? e) && (e <=? 104)
  | _ => false
  end.

(** A line above the terms of the entropy sum, in units of 2^-149: the term of
    a count [c] is at most [entropy_slope * c + entropy_intercept]; it touches
    [c -> - (c/20) log2 (c/20)] near [c = 2].  [entropy_round] bounds the
    rounding of one subtraction below 4. *)
Definition entropy_slope : Z := 100890608 * 2 ^ 119.
Definition entropy_intercept : Z := 154908406 * 2 ^ 119.
Definition entropy_round : Z := 2 ^ 128.

Definition entropy_term (count : Z) (l l2 : f32) : f32 :=
  (f32_of_Z count / f32_of_Z 20 * (l / l2))%f32.

Definition entropy_term_ok (count : Z) (l l2 : f32) : bool :=
  f32_finb (entropy_term count l l2)
  && (- f32_val (entropy_term count l l2) <=? entropy_slope * count + entropy_intercept).

(** * Proofs *)

(** ** Bit patterns and byte strings *)

Lemma digits2_pos_bounds (m : positive) :
  2 ^ (Zpos (digits2_pos m) - 1) <= Zpos m < 2 ^ Zpos (digits2_pos m).
Proof.
  induction m as [m IH | m IH |]; cbn [digits2_pos].
  - rewrite Pos2Z.inj_succ. replace (Z.succ (Z.pos (digits2_pos m)) - 1) with (Z.succ (Z.pos (digits2_pos m) - 1)) by lia.
    rewrite !Z.pow_succ_r by lia. lia.
  - rewrite Pos2Z.inj_succ. replace (Z.succ (Z.pos (digits2_pos m)) - 1) with (Z.succ (Z.pos (digits2_pos m) - 1)) by lia.
    rewrite !Z.pow_succ_r by lia. lia.
  - cbn. lia.
Qed.

Lemma bounded_range m e :
  bounded prec emax m e = true ->
  (Zpos m < 0x800000 /\ e = -149) \/ (0x800000 <= Zpos m < 0x1000000 /\ -149 <= e <= 104).
Proof.
  unfold bounded, canonical_mantissa, fexp, emin, prec, emax.
  intros H. apply andb_prop in H as [H1 H2].
  apply Z.eqb_eq in H1. apply Z.leb_le in H2.
  pose proof (digits2_pos_bounds m) as [Hlo Hhi].
  set (d := Z.pos (digits2_pos m)) in *.
  destruct (Z.le_gt_cases 24 d) as [Hd | Hd].
  - right. assert (d = 24) by lia. subst d. rewrite H in *. 
    change (2 ^ (24 - 1)) with 0x800000 in Hlo. change (2 ^ 24) with 0x1000000 in Hhi. lia.
  - left. assert (e = -149) by lia. split; [|done].
    assert (2 ^ d <= 2 ^ 23) by (apply Z.pow_le_mono_r; lia).
    change (2 ^ 23) with 0x800000 in *. lia.
Qed.

Lemma f32_bits_range x : is_f32 x -> 0 <= f32_bits x < 0x100000000.
Proof.
  destruct x as [[]|[]| |s m e]; cbn; try lia.
  intros H. apply bounded_range in H. 
  destruct (Z.ltb_spec (Zpos m) 0x800000); destruct s; lia.
Qed.


Lemma land_ones_mod a n : 0 <= n -> Z.land a (Z.ones n) = a mod 2 ^ n.
Proof. apply Z.land_ones. Qed.

Lemma f32_fields (s : bool) (E F : Z) :
  0 <= E < 256 -> 0 <= F < 0x800000 ->
  let w := (if s then 0x80000000 else 0) + (E * 0x800000 + F) in
  Z.testbit w 31 = s /\ Z.land (Z.shiftr w 23) 0xFF = E /\ Z.land w 0x7FFFFF = F.
Proof.
  intros HE HF w. split; [|split].
  - pose proof (Z.testbit_spec' w 31 ltac:(lia)) as Hb.
    change (2 ^ 31) with 0x80000000 in Hb.
    assert ((w / 0x80000000) mod 2 = Z.b2z s) by (subst w; destruct s; cbn [Z.b2z]; Z.div_mod_to_equations; lia).
    destruct (Z.testbit w 31), s; cbn [Z.b2z] in *; congruence || lia.
  - change 0xFF with (Z.ones 8). rewrite Z.land_ones, Z.shiftr_div_pow2 by lia.
    change (2 ^ 23) with 0x800000. change (2 ^ 8) with 256. subst w. destruct s; Z.div_mod_to_equations; lia.
  - change 0x7FFFFF with (Z.ones 23). rewrite Z.land_ones by lia.
    change (2 ^ 23) with 0x800000. subst w. destruct s; Z.div_mod_to_equations; lia.
Qed.

Lemma f32_of_bits_bits x : is_f32 x -> f32_of_bits (f32_bits x) = x.
Proof.
  destruct x as [[]|[]| |s m e]; try reflexivity.
  intros H. apply bounded_range in H. unfold f32_bits, f32_of_bits.
  destruct (Z.ltb_spec (Zpos m) 0x800000) as [Hm | Hm].
  - destruct H as [[_ ->] | [? _]]; [|lia].
    pose proof (f32_fields s 0 (Zpos m) ltac:(lia) ltac:(lia)) as Hf.
    cbv zeta in Hf. rewrite Z.mul_0_l, Z.add_0_l in Hf.
    destruct Hf as (-> & -> & ->). reflexivity.
  - destruct H as [[? _] | [Hm' He]]; [lia|].
    destruct (f32_fields s (e + 150) (Zpos m - 0x800000)) as (-> & -> & ->); [lia.. |].
    destruct (Z.eqb_spec (e + 150) 0); [lia|].
    destruct (Z.eqb_spec (e + 150) 255); [lia|].
    replace (Z.pos m - 0x800000 + 0x800000) with (Zpos m) by lia.
    f_equal. lia.
Qed.

Lemma land_255 x : Z.land x 0xFF = x mod 256.
Proof. change 0xFF with (Z.ones 8). rewrite Z.land_ones by lia. reflexivity. Qed.

Lemma le_value_u16 v : le_value (writeUint16LE v) = u16 v.
Proof.
  unfold writeUint16LE, le_value, u16. cbn [fold_right].
  rewrite !land_255, Z.shiftr_div_pow2 by lia. change (2 ^ 8) with 256.
  Z.div_mod_to_equations. lia.
Qed.

Lemma le_value_u32 v : le_value (writeUint32LE v) = u32 v.
Proof.
  unfold writeUint32LE, le_value, u32. cbn [fold_right].
  rewrite !land_255, !Z.shiftr_div_pow2 by lia.
  change (2 ^ 8) with 256. change (2 ^ 16) with 65536. change (2 ^ 24) with 16777216.
  Z.div_mod_to_equations. lia.
Qed.

Lemma land_pow2 w k : 0 <= k -> Z.land w (2 ^ k) = if Z.testbit w k then 2 ^ k else 0.
Proof.
  intros Hk. apply Z.bits_inj'. intros n Hn. rewrite Z.land_spec, Z.pow2_bits_eqb by lia.
  destruct (Z.eqb_spec k n) as [<-|Hne].
  - rewrite andb_true_r. destruct (Z.testbit w k) eqn:E.
    + rewrite Z.pow2_bits_true; lia || reflexivity.
    + now rewrite Z.bits_0.
  - rewrite andb_false_r. destruct (Z.testbit w k).
    + rewrite Z.pow2_bits_false; lia || reflexivity.
    + now rewrite Z.bits_0.
Qed.

Lemma land_high w : 0 <= w < 0x1000000 -> Z.land w 0xFF000000 = 0.
Proof.
  intros Hw. apply Z.bits_inj'. intros n Hn. rewrite Z.land_spec, Z.bits_0.
  destruct (Z.ltb_spec n 24).
  - change 0xFF000000 with (Z.shiftl 255 24). rewrite Z.shiftl_spec_low by lia.
    apply andb_false_r.
  - replace (Z.testbit w n) with false; [reflexivity|].
    symmetry. apply Z.testbit_false; [lia|].
    rewrite Z.div_small; [reflexivity|]. split; [lia|].
    apply Z.lt_le_trans with (2 ^ 24); [lia | apply Z.pow_le_mono_r; lia].
Qed.

Lemma raw_sample_roundtrip v :
  in_i24 v -> sign_extend24 (le_value (raw_sample_bytes v)) = v.
Proof.
  unfold in_i24. intros H.
  assert (Hle : le_value (raw_sample_bytes v) = v mod 0x1000000).
  { unfold raw_sample_bytes, le_value, u8. cbn [fold_right].
    rewrite !land_255, !Z.shiftr_div_pow2 by lia.
    change (2 ^ 8) with 256. change (2 ^ 16) with 65536.
    Z.div_mod_to_equations. lia. }
  rewrite Hle. unfold sign_extend24.
  set (w := v mod 0x1000000).
  assert (Hw : 0 <= w < 0x1000000) by (subst w; Z.div_mod_to_equations; lia).
  assert (Hland : Z.land w 0x800000 = if w <? 0x800000 then 0 else 0x800000).
  { change (Z.land w 0x800000) with (Z.land w (2 ^ 23)). rewrite (land_pow2 w 23) by lia.
    pose proof (Z.testbit_spec' w 23 ltac:(lia)) as Hb. change (2 ^ 23) with 0x800000 in *.
    destruct (Z.ltb_spec w 0x800000), (Z.testbit w 23); cbn [Z.b2z] in Hb; try reflexivity;
      exfalso; Z.div_mod_to_equations; lia. }
  rewrite Hland. destruct (Z.ltb_spec w 0x800000) as [Hlt | Hge]; cbn [Z.eqb].
  - subst w. Z.div_mod_to_equations. lia.
  - assert (Hlor : Z.lor w 0xFF000000 = w + 0xFF000000).
    { rewrite <- Z.lxor_lor, <- Z.add_nocarry_lxor; try reflexivity; apply land_high; lia. }
    rewrite Hlor. unfold i32. subst w. Z.div_mod_to_equations. lia.
Qed.

(** ** Slices of concatenations *)

Lemma slice_app_l off len (l1 l2 : list Z) :
  (off + len <= length l1)%nat -> slice off len (l1 ++ l2) = slice off len l1.
Proof.
  intros H. unfold slice. rewrite drop_app_le by lia.
  rewrite take_app_le; [reflexivity|]. rewrite length_drop. lia.
Qed.

Lemma slice_app_r off len (l1 l2 : list Z) :
  (length l1 <= off)%nat -> slice off len (l1 ++ l2) = slice (off - length l1) len l2.
Proof.
  intros H. unfold slice. rewrite drop_app_ge by lia. reflexivity.
Qed.

Lemma slice_all (l : list Z) : slice 0 (length l) l = l.
Proof. unfold slice. rewrite drop_0. apply firstn_all. Qed.

Lemma slice_prefix len (l1 l2 : list Z) :
  len = length l1 -> slice 0 len (l1 ++ l2) = l1.
Proof. intros ->. unfold slice. rewrite drop_0. apply take_app_length. Qed.

Lemma slice_flat_map {A} (f : A -> list Z) (n : nat) (xs : list A) (k : nat) (d : A) :
  (forall x, length (f x) = n) -> (k < length xs)%nat ->
  slice (n * k) n (flat_map f xs) = f (nth k xs d).
Proof.
  intros Hf. revert k. induction xs as [|x xs IH]; intros k Hk; cbn [length] in Hk; [lia|].
  cbn [flat_map]. destruct k as [|k].
  - rewrite Nat.mul_0_r. cbn [nth]. apply slice_prefix. symmetry. apply Hf.
  - rewrite slice_app_r by (rewrite Hf; lia). rewrite Hf.
    replace (n * S k - n)%nat with (n * k)%nat by lia. cbn [nth]. apply IH. lia.
Qed.

Lemma nth_slice_flat_map {A} (f : A -> list Z) (n : nat) (xs : list A) (k j : nat) (d : A) :
  (forall x, length (f x) = n) -> (k < length xs)%nat -> (j < n)%nat ->
  nth (n * k + j) (flat_map f xs) 0 = nth j (f (nth k xs d)) 0.
Proof.
  intros Hf Hk Hj. rewrite <- (slice_flat_map f n xs k d Hf Hk).
  unfold slice. rewrite !nth_lookup, lookup_take_lt, lookup_drop by lia. reflexivity.
Qed.

(** ** The frame written by [encodePacket] *)

Lemma payload_bytes_length raw amp ph sig stage zf :
  length (payload_bytes raw amp ph sig stage zf) = Z.to_nat PAYLOAD_BYTES.
Proof. reflexivity. Qed.

Lemma write_at_prefix (buf : list Z) (bytes : list Z) (a b c : list Z) :
  buf = a ++ b ++ c -> length b = length bytes ->
  write_at buf (length a) bytes = a ++ bytes ++ c.
Proof.
  intros -> Hb. unfold write_at. rewrite take_app_length. f_equal. f_equal.
  rewrite drop_app_ge by lia. replace (length a + length bytes - length a)%nat with (length b) by lia.
  rewrite drop_app_length. reflexivity.
Qed.

Lemma encodePacket_eq raw amp ph sig stage zf ts out :
  length out = Z.to_nat PACKET_BYTES ->
  encodePacket raw amp ph sig stage zf ts out =
  header_bytes ts (crc16_ccitt (payload_bytes raw amp ph sig stage zf))
  ++ payload_bytes raw amp ph sig stage zf.
Proof.
  intros Hlen. unfold encodePacket.
  pose proof (payload_bytes_length raw amp ph sig stage zf) as Hp.
  set (p := payload_bytes raw amp ph sig stage zf) in *. clearbody p.
  assert (H1 : write_at out (Z.to_nat HEADER_SIZE) p = take 12 out ++ p).
  { unfold write_at. change (Z.to_nat HEADER_SIZE) with 12%nat. f_equal.
    rewrite (drop_ge out) by (rewrite Hp, Hlen; vm_compute; lia). apply app_nil_r. }
  rewrite H1.
  assert (H2 : take (Z.to_nat PAYLOAD_BYTES) (drop (Z.to_nat HEADER_SIZE) (take 12 out ++ p)) = p).
  { change (Z.to_nat HEADER_SIZE) with 12%nat. rewrite drop_app_length'.
    - rewrite <- Hp. apply firstn_all.
    - rewrite length_take, Hlen. vm_compute. reflexivity. }
  rewrite H2.
  assert (Hh : length (take 12 out) = 12%nat) by (rewrite length_take, Hlen; reflexivity).
  destruct (take 12 out) as [|h0 [|h1 [|h2 [|h3 [|h4 [|h5 [|h6 [|h7 [|h8 [|h9 [|h10 [|h11 [|]]]]]]]]]]]]];
    try discriminate Hh.
  reflexivity.
Qed.

Lemma u32_small v : 0 <= v < 0x100000000 -> u32 v = v.
Proof. intros H. unfold u32. apply Z.mod_small. lia. Qed.

Lemma u16_small v : 0 <= v < 0x10000 -> u16 v = v.
Proof. intros H. unfold u16. apply Z.mod_small. lia. Qed.

Lemma u8_small v : 0 <= v < 0x100 -> u8 v = v.
Proof. intros H. unfold u8. apply Z.mod_small. lia. Qed.

Lemma crc16_bit_range crc : 0 <= crc16_bit crc < 0x10000.
Proof. unfold crc16_bit, u16. destruct (_ =? _); apply Z.mod_pos_bound; lia. Qed.

Lemma crc16_ccitt_range data : 0 <= crc16_ccitt data < 0x10000.
Proof.
  unfold crc16_ccitt. induction data as [|b data IH] using rev_ind.
  - cbn. unfold CRC16_INIT. lia.
  - rewrite fold_left_app. cbn [fold_left]. unfold crc16_byte. cbn [Nat.iter].
    apply crc16_bit_range.
Qed.

Lemma matrix_bytes_slice (m : BandMatrix) (ch band : nat) :
  (ch < CHANNEL_COUNT)%nat -> (band < BAND_COUNT)%nat ->
  slice (4 * (BAND_COUNT * ch + band)) 4 (matrix_bytes m) = memcpy_float (mat_get m ch band).
Proof.
  unfold CHANNEL_COUNT, BAND_COUNT. intros Hch Hband.
  do 8 (destruct ch as [|ch]; [do 5 (destruct band as [|band]; [reflexivity|]); lia|]).
  lia.
Qed.

Lemma le_value_memcpy_float x : is_f32 x -> le_value (memcpy_float x) = f32_bits x.
Proof.
  intros H. unfold memcpy_float. rewrite le_value_u32. apply u32_small, f32_bits_range, H.
Qed.

Lemma wf_matrix_rows (m : BandMatrix) :
  wf_matrix m ->
  m = map (fun ch => map (fun band => mat_get m ch band) (seq 0 BAND_COUNT)) (seq 0 CHANNEL_COUNT).
Proof.
  intros [Hlen Hrows]. unfold CHANNEL_COUNT, BAND_COUNT in *.
  do 9 (destruct m as [|? m]; try discriminate Hlen).
  repeat match goal with
  | H : Forall _ (_ :: _) |- _ => apply Forall_cons_1 in H as [? H]
  end.
  repeat match goal with
  | H : length ?r = 5%nat |- _ =>
      do 6 (destruct r as [|? r]; try discriminate H); clear H
  end.
  reflexivity.
Qed.

Lemma mat_get_f32 (m : BandMatrix) ch band : all_f32 m -> is_f32 (mat_get m ch band).
Proof.
  intros H. unfold mat_get.
  destruct (nth_lookup_or_length m ch []) as [Hr | Hr].
  - assert (Hrow : Forall is_f32 (nth ch m [])) by (eapply Forall_lookup_1; eauto).
    destruct (nth_lookup_or_length (nth ch m []) band f32_zero) as [Hx | Hx].
    + eapply Forall_lookup_1; eauto.
    + rewrite nth_overflow by lia. reflexivity.
  - rewrite (nth_overflow m) by lia. destruct band; reflexivity.
Qed.

Lemma decode_matrix_bits_eq (base : nat) (payload : list Z) (m : BandMatrix) :
  (forall ch band, (ch < CHANNEL_COUNT)%nat -> (band < BAND_COUNT)%nat ->
     slice (base + 4 * (BAND_COUNT * ch + band)) 4 payload = memcpy_float (mat_get m ch band)) ->
  wf_matrix m -> all_f32 m ->
  decode_matrix_bits base payload = map (map f32_bits) m.
Proof.
  intros Hs Hwf Hf. rewrite (wf_matrix_rows m Hwf) at 1.
  unfold decode_matrix_bits. rewrite map_map.
  apply map_ext_in. intros ch Hch. apply in_seq in Hch. rewrite map_map.
  apply map_ext_in. intros band Hband. apply in_seq in Hband.
  rewrite Hs by lia. apply le_value_memcpy_float, mat_get_f32, Hf.
Qed.

Lemma packet_payload_eq raw amp ph sig stage zf ts out :
  length out = Z.to_nat PACKET_BYTES ->
  packet_payload (encodePacket raw amp ph sig stage zf ts out)
  = payload_bytes raw amp ph sig stage zf.
Proof.
  intros H. rewrite encodePacket_eq by exact H. unfold packet_payload.
  apply drop_app_length'. reflexivity.
Qed.

(** The size of a packet and the fields of its header. *)
Lemma encodePacket_fields raw amp ph sig stage zf ts out :
  length out = Z.to_nat PACKET_BYTES ->
  let packet := encodePacket raw amp ph sig stage zf ts out in
  let payload := packet_payload packet in
  length packet = 383%nat /\
  length payload = 371%nat /\
  slice 0 2 packet = [0x47; 0x53] /\ le_value (slice 0 2 packet) = 0x5347 /\
  slice 2 1 packet = [0x01] /\
  slice 3 1 packet = [0x01] /\
  le_value (slice 4 4 packet) = u32 ts /\
  le_value (slice 8 2 packet) = 371 /\
  le_value (slice 10 2 packet) = crc16_ccitt payload /\
  slice 364 4 payload = [0; 0; 0; 0].
Proof.
  intros Hlen packet payload. subst payload.
  unfold packet in *. rewrite packet_payload_eq by exact Hlen.
  subst packet. rewrite encodePacket_eq by exact Hlen.
  set (p := payload_bytes raw amp ph sig stage zf).
  pose proof (crc16_ccitt_range p) as Hcrc.
  repeat split; try reflexivity.
  - change (slice 4 4 (header_bytes ts (crc16_ccitt p) ++ p)) with (writeUint32LE ts).
    apply le_value_u32.
  - change (slice 10 2 (header_bytes ts (crc16_ccitt p) ++ p)) with (writeUint16LE (crc16_ccitt p)).
    rewrite le_value_u16. apply u16_small, Hcrc.
Qed.

Lemma payload_raw_slice raw amp ph sig stage zf (ch : nat) :
  (ch < CHANNEL_COUNT)%nat ->
  slice (3 * ch) 3 (payload_bytes raw amp ph sig stage zf) = raw_sample_bytes (nth ch raw 0).
Proof.
  unfold CHANNEL_COUNT. intros H.
  do 8 (destruct ch as [|ch]; [reflexivity|]). lia.
Qed.

Lemma payload_amplitude_slice raw amp ph sig stage zf (ch band : nat) :
  (ch < CHANNEL_COUNT)%nat -> (band < BAND_COUNT)%nat ->
  slice (24 + 4 * (BAND_COUNT * ch + band)) 4 (payload_bytes raw amp ph sig stage zf)
  = memcpy_float (mat_get amp ch band).
Proof.
  intros Hch Hband. unfold payload_bytes.
  rewrite slice_app_r by (cbn; lia).
  rewrite slice_app_l by (unfold CHANNEL_COUNT, BAND_COUNT in *; cbn; lia).
  replace (24 + 4 * (BAND_COUNT * ch + band) - _)%nat with (4 * (BAND_COUNT * ch + band))%nat
    by (cbn; lia).
  apply matrix_bytes_slice; assumption.
Qed.

Lemma payload_phase_slice raw amp ph sig stage zf (ch band : nat) :
  (ch < CHANNEL_COUNT)%nat -> (band < BAND_COUNT)%nat ->
  slice (184 + 4 * (BAND_COUNT * ch + band)) 4 (payload_bytes raw amp ph sig stage zf)
  = memcpy_float (mat_get ph ch band).
Proof.
  intros Hch Hband. unfold payload_bytes.
  rewrite slice_app_r by (cbn; lia).
  rewrite slice_app_r by (cbn; lia).
  rewrite slice_app_l by (unfold CHANNEL_COUNT, BAND_COUNT in *; cbn; lia).
  replace (184 + 4 * (BAND_COUNT * ch + band) - _ - _)%nat with (4 * (BAND_COUNT * ch + band))%nat
    by (cbn; lia).
  apply matrix_bytes_slice; assumption.
Qed.

Lemma payload_bcd_byte raw amp ph sig stage zf (k : nat) :
  (k < 10)%nat ->
  nth (344 + k) (payload_bytes raw amp ph sig stage zf) 0 = bcd_byte (digits sig) k.
Proof.
  intros H. do 10 (destruct k as [|k]; [reflexivity|]). lia.
Qed.

Lemma bcd_nibbles (h l : Z) :
  is_digit h -> is_digit l ->
  let bcd := u8 (Z.lor (Z.shiftl (u8 (h mod 10)) 4) (u8 (l mod 10))) in
  Z.land (Z.shiftr bcd 4) 0x0F = h /\ Z.land bcd 0x0F = l.
Proof.
  unfold is_digit. intros Hh Hl.
  assert (Eh : h = 0 \/ h = 1 \/ h = 2 \/ h = 3 \/ h = 4 \/ h = 5 \/ h = 6 \/ h = 7 \/ h = 8 \/ h = 9) by lia.
  assert (El : l = 0 \/ l = 1 \/ l = 2 \/ l = 3 \/ l = 4 \/ l = 5 \/ l = 6 \/ l = 7 \/ l = 8 \/ l = 9) by lia.
  repeat (destruct Eh as [-> | Eh]); try subst h;
  repeat (destruct El as [-> | El]); try subst l; split; reflexivity.
Qed.

Lemma flat_map_ext_seq {B} (f g : nat -> list B) (start len : nat) :
  (forall k, (start <= k < start + len)%nat -> f k = g k) ->
  flat_map f (seq start len) = flat_map g (seq start len).
Proof.
  revert start. induction len as [|len IH]; intros start H; [reflexivity|].
  cbn [seq flat_map]. rewrite H by lia. f_equal. apply IH. intros k Hk. apply H. lia.
Qed.

Lemma decode_digits_eq raw amp ph sig stage zf :
  length (digits sig) = 20%nat -> Forall is_digit (digits sig) ->
  decode_digits (payload_bytes raw amp ph sig stage zf) = digits sig.
Proof.
  intros Hlen Hd. unfold decode_digits.
  assert (Hk : forall k, (k < 10)%nat ->
            (let bcd := nth (344 + k) (payload_bytes raw amp ph sig stage zf) 0 in
             [Z.land (Z.shiftr bcd 4) 0x0F; Z.land bcd 0x0F])
            = [digit_at (digits sig) (k * 2); digit_at (digits sig) (k * 2 + 1)]).
  { intros k Hk. cbv zeta. rewrite payload_bcd_byte by exact Hk. unfold bcd_byte.
    assert (Hdig : forall i, is_digit (digit_at (digits sig) i)).
    { intros i. unfold digit_at. destruct (nth_lookup_or_length (digits sig) i 0) as [Hi | Hi].
      - eapply Forall_lookup_1; eauto.
      - rewrite nth_overflow by lia. unfold is_digit. lia. }
    destruct (bcd_nibbles _ _ (Hdig (k * 2)%nat) (Hdig (k * 2 + 1)%nat)) as [-> ->].
    reflexivity. }
  rewrite (flat_map_ext_seq _ (fun k => [digit_at (digits sig) (k * 2); digit_at (digits sig) (k * 2 + 1)]))
    by (intros k Hin; apply Hk; lia).
  destruct sig as [ds c g l e]. cbn [digits] in *.
  do 21 (destruct ds as [|? ds]; try discriminate Hlen). reflexivity.
Qed.

Lemma decode_raw_eq raw amp ph sig stage zf :
  length raw = CHANNEL_COUNT -> Forall in_i24 raw ->
  decode_raw (payload_bytes raw amp ph sig stage zf) = raw.
Proof.
  intros Hlen Hr. unfold decode_raw.
  rewrite (map_ext_in _ (fun ch => nth ch raw 0)).
  - unfold CHANNEL_COUNT in *. do 9 (destruct raw as [|? raw]; try discriminate Hlen). reflexivity.
  - intros ch Hch. apply in_seq in Hch. rewrite payload_raw_slice by lia.
    apply raw_sample_roundtrip.
    destruct (nth_lookup_or_length raw ch 0) as [Hi | Hi]; [|lia].
    eapply Forall_lookup_1; eauto.
Qed.

Lemma decode_matrix_of_bits (base : nat) payload (m : BandMatrix) :
  decode_matrix_bits base payload = map (map f32_bits) m -> all_f32 m ->
  decode_matrix base payload = m.
Proof.
  intros Hb Hf. unfold decode_matrix. rewrite Hb, map_map.
  rewrite <- (map_id m) at 2. apply map_ext_in. intros row Hrow.
  rewrite map_map. rewrite <- (map_id row) at 2. apply map_ext_in. intros x Hx.
  apply f32_of_bits_bits.
  unfold all_f32 in Hf. rewrite Forall_forall in Hf.
  specialize (Hf row ltac:(apply list_elem_of_In; exact Hrow)).
  rewrite Forall_forall in Hf. apply Hf, list_elem_of_In, Hx.
Qed.

(** C5: reading an encoded packet back by the payload layout gives the eight
    raw samples again, each extended from bit 23, for samples in the signed
    24-bit range; the two 8x5 matrices again, bit for bit as binary32 words;
    and the 20 digits again from the packed decimal bytes.  The sample
    -8388608 is written as the bytes 00 00 80. *)
Theorem packet_round_trip raw amp ph sig stage zf ts out :
  length out = Z.to_nat PACKET_BYTES ->
  length raw = CHANNEL_COUNT -> Forall in_i24 raw ->
  wf_matrix amp -> all_f32 amp ->
  wf_matrix ph -> all_f32 ph ->
  length (digits sig) = 20%nat -> Forall is_digit (digits sig) ->
  let payload := packet_payload (encodePacket raw amp ph sig stage zf ts out) in
  decode_raw payload = raw /\
  decode_matrix_bits 24 payload = map (map f32_bits) amp /\
  decode_matrix 24 payload = amp /\
  decode_matrix_bits 184 payload = map (map f32_bits) ph /\
  decode_matrix 184 payload = ph /\
  decode_digits payload = digits sig /\
  raw_sample_bytes (-8388608) = [0x00; 0x00; 0x80] /\
  sign_extend24 (le_value [0x00; 0x00; 0x80]) = -8388608.
Proof.
  intros Hout Hlen Hraw Hwa Hfa Hwp Hfp Hdl Hd payload. subst payload.
  rewrite packet_payload_eq by exact Hout.
  assert (Ha : decode_matrix_bits 24 (payload_bytes raw amp ph sig stage zf) = map (map f32_bits) amp).
  { apply decode_matrix_bits_eq; try assumption. intros. now apply payload_amplitude_slice. }
  assert (Hp : decode_matrix_bits 184 (payload_bytes raw amp ph sig stage zf) = map (map f32_bits) ph).
  { apply decode_matrix_bits_eq; try assumption. intros. now apply payload_phase_slice. }
  repeat split.
  - now apply decode_raw_eq.
  - exact Ha.
  - now apply decode_matrix_of_bits.
  - exact Hp.
  - now apply decode_matrix_of_bits.
  - now apply decode_digits_eq.
Qed.

(** ** Gate and loop detection *)

Lemma testbit_u8 x b : 0 <= b -> Z.testbit (u8 x) b = (b <? 8) && Z.testbit x b.
Proof.
  intros Hb. unfold u8. change 0x100 with (2 ^ 8).
  destruct (Z.ltb_spec b 8).
  - now rewrite Z.mod_pow2_bits_low by lia.
  - now rewrite Z.mod_pow2_bits_high by lia.
Qed.

Lemma testbit_set_flag (c : bool) flags (band : nat) b :
  (band < 8)%nat -> 0 <= b < 8 -> 0 <= flags < 0x100 ->
  let flags' := if c then set_flag flags band else flags in
  0 <= flags' < 0x100 /\
  Z.testbit flags' b = Z.testbit flags b || (c && (b =? Z.of_nat band)).
Proof.
  intros Hband Hb Hf. destruct c; cbn [andb]; [|split; [lia | now rewrite orb_false_r]].
  cbv zeta. split; [unfold set_flag, u8; apply Z.mod_pos_bound; lia|].
  unfold set_flag. rewrite testbit_u8, Z.lor_spec, testbit_u8 by lia.
  rewrite Z.shiftl_1_l, Z.pow2_bits_eqb by lia.
  destruct (Z.ltb_spec b 8); [|lia]. cbn [andb]. f_equal. apply Z.eqb_sym.
Qed.

Local Ltac all_conds :=
  repeat match goal with
         | |- context [Z.ltb ?a ?b] => destruct (Z.ltb a b)
         | |- context [f32_ge ?a ?b] => destruct (f32_ge a b)
         | |- context [f32_le ?a ?b] => destruct (f32_le a b)
         end;
  reflexivity.

Lemma detect_band_step avg self gate loop (band : nat) :
  detect_band avg (self, gate, loop) band =
  ({| initialized_ := initialized_ self;
      previous_power_ := <[band := nth band avg f32_zero]> (previous_power_ self);
      history_ := <[band := <[Z.to_nat (band_head self band) := nth band avg f32_zero]>
                               (band_history self band)]> (history_ self);
      history_index_ :=
        <[band := u32 (band_head self band + 1) mod HISTORY_WINDOW]> (history_index_ self);
      history_fill_count_ :=
        <[band := next_fill (band_fill self band)]> (history_fill_count_ self) |},
   (if initialized_ self && gate_event (band_previous self band) (nth band avg f32_zero)
    then set_flag gate band else gate),
   (if initialized_ self && (20 <? next_fill (band_fill self band))
       && loop_event (nth (Z.to_nat (lookback_slot (band_head self band)))
                          (<[Z.to_nat (band_head self band) := nth band avg f32_zero]>
                             (band_history self band)) f32_zero)
                     (nth band avg f32_zero)
    then set_flag loop band else loop)).
Proof.
  unfold detect_band, gate_event, loop_event, relative_change, band_previous, band_head,
    band_fill, band_history, next_fill, lookback_slot, set_flag.
  assert (Hnth : forall (l : list (list f32)) v,
            nth band (<[band := v]> l) [] = if decide (band < length l)%nat then v else []).
  { intros l v. rewrite nth_lookup. case_decide.
    - now rewrite list_lookup_insert_eq by lia.
    - rewrite list_insert_ge by lia. rewrite <- nth_lookup. apply nth_overflow. lia. }
  rewrite Hnth. case_decide as Hlen.
  - destruct (initialized_ self); cbn [andb]; [|reflexivity].
    all_conds.
  - assert (Hrow : nth band (history_ self) [] = []) by (apply nth_overflow; lia).
    rewrite Hrow. cbn [list_insert insert].
    destruct (initialized_ self); cbn [andb]; [|reflexivity].
    assert (Hnil : forall k, nth k (@nil f32) f32_zero = f32_zero) by (intros []; reflexivity).
    rewrite !Hnil. all_conds.
Qed.

Lemma flag_if_range (c : bool) flags (band : nat) :
  0 <= flags < 0x100 -> 0 <= (if c then set_flag flags band else flags) < 0x100.
Proof.
  intros H. destruct c; [|exact H]. unfold set_flag, u8. apply Z.mod_pos_bound. lia.
Qed.

Lemma testbit_flag_if (c : bool) flags (band : nat) b :
  (band < 8)%nat -> 0 <= b < 8 -> 0 <= flags < 0x100 ->
  Z.testbit (if c then set_flag flags band else flags) b
  = Z.testbit flags b || (c && (b =? Z.of_nat band)).
Proof. intros. now apply testbit_set_flag. Qed.

Local Ltac detect_step H :=
  match type of H with
  | context [detect_band ?avg (?s, ?g, ?l) ?b] =>
      rewrite (detect_band_step avg s g l b) in H;
      unfold band_head, band_fill, band_history, band_previous in H;
      cbn [initialized_ previous_power_ history_ history_index_ history_fill_count_
           nth list_insert insert] in H
  end.

Local Ltac flag_bits :=
  repeat match goal with
         | |- context [andb (andb ?i (Z.ltb 20 ?x)) (loop_event ?a ?b)] =>
             generalize (andb (andb i (Z.ltb 20 x)) (loop_event a b)); intro
         | |- context [andb ?i (gate_event ?a ?b)] =>
             generalize (andb i (gate_event a b)); intro
         end;
  rewrite !testbit_flag_if by (repeat apply flag_if_range; lia);
  rewrite Z.bits_0;
  repeat match goal with b : bool |- _ => destruct b end; reflexivity.

Lemma detect_bands_spec (self : SigprintComposer) (avg : list f32) self' gate loop :
  wf_composer self -> length avg = BAND_COUNT ->
  fold_left (detect_band avg) (seq 0 BAND_COUNT) (self, 0, 0) = (self', gate, loop) ->
  initialized_ self' = initialized_ self /\
  previous_power_ self' = avg /\
  wf_composer self' /\
  forall band, (band < BAND_COUNT)%nat ->
    band_head self' band = u32 (band_head self band + 1) mod HISTORY_WINDOW /\
    band_fill self' band = next_fill (band_fill self band) /\
    band_history self' band
      = <[Z.to_nat (band_head self band) := nth band avg f32_zero]> (band_history self band) /\
    Z.testbit gate (Z.of_nat band)
      = initialized_ self && gate_event (band_previous self band) (nth band avg f32_zero) /\
    Z.testbit loop (Z.of_nat band)
      = initialized_ self && (20 <? band_fill self' band)
        && loop_event (nth (Z.to_nat (lookback_slot (band_head self band)))
                           (band_history self' band) f32_zero)
                      (nth band avg f32_zero).
Proof.
  intros (Hp & Hh & Hrows & Hi & Hf) Ha Heq.
  destruct self as [init pp hist idx fill].
  cbn [previous_power_ history_ history_index_ history_fill_count_ initialized_] in *.
  unfold BAND_COUNT in *.
  do 6 (destruct pp as [|? pp]; try discriminate Hp).
  do 6 (destruct hist as [|? hist]; try discriminate Hh).
  do 6 (destruct idx as [|? idx]; try discriminate Hi).
  do 6 (destruct fill as [|? fill]; try discriminate Hf).
  do 6 (destruct avg as [|? avg]; try discriminate Ha).
  repeat match goal with
  | H : Forall _ (_ :: _) |- _ => apply Forall_cons_1 in H as [? H]
  end.
  cbn [seq fold_left] in Heq.
  do 5 detect_step Heq.
  injection Heq as <- <- <-.
  split; [reflexivity|]. split; [reflexivity|].
  split.
  { unfold wf_composer. cbn [previous_power_ history_ history_index_ history_fill_count_].
    repeat split; try reflexivity.
    repeat (apply Forall_cons; split; [rewrite length_insert; assumption|]). apply Forall_nil_2. }
  intros band Hband.
  unfold band_head, band_fill, band_history, band_previous.
  cbn [initialized_ previous_power_ history_ history_index_ history_fill_count_].
  do 5 (destruct band as [|band];
        [ cbn [nth];
          split; [reflexivity|]; split; [reflexivity|]; split; [reflexivity|];
          split; flag_bits
        | ]).
  lia.
Qed.

(** ** Rounding to binary32 *)

Lemma Zdigits2_bounds (m : Z) :
  0 < m -> 2 ^ (Zdigits2 m - 1) <= m < 2 ^ Zdigits2 m.
Proof.
  destruct m as [|p|p]; try lia. intros _. apply digits2_pos_bounds.
Qed.

Lemma Zdigits2_nonneg (m : Z) : 0 <= Zdigits2 m.
Proof. destruct m; cbn; lia. Qed.

Lemma shr_1_m (r : shr_record) : 0 <= shr_m r -> shr_m (shr_1 r) = shr_m r / 2.
Proof.
  destruct r as [m rb sb]. cbn [shr_m]. intros Hm.
  destruct m as [|[p|p|]|p]; cbn [shr_1 shr_m].
  - reflexivity.
  - rewrite Pos2Z.inj_xI. apply Z.div_unique with 1; lia.
  - rewrite Pos2Z.inj_xO. apply Z.div_unique with 0; lia.
  - reflexivity.
  - lia.
Qed.

Lemma pow2_xO (p : positive) : 2 ^ Zpos p~0 = 2 ^ Zpos p * 2 ^ Zpos p.
Proof. replace (Zpos p~0) with (Zpos p + Zpos p) by lia. apply Z.pow_add_r; lia. Qed.

Lemma pow2_xI (p : positive) : 2 ^ Zpos p~1 = 2 * (2 ^ Zpos p * 2 ^ Zpos p).
Proof.
  replace (Zpos p~1) with (1 + (Zpos p + Zpos p)) by lia.
  rewrite Z.pow_add_r, Z.pow_add_r by lia. reflexivity.
Qed.

Lemma pow2_pos (n : Z) : 0 <= n -> 0 < 2 ^ n.
Proof. intros. apply Z.pow_pos_nonneg; lia. Qed.

Lemma iter_shr_1_m (p : positive) (r : shr_record) :
  0 <= shr_m r -> shr_m (SpecFloat.iter_pos shr_1 p r) = shr_m r / 2 ^ Zpos p.
Proof.
  revert r. induction p as [p IH | p IH |]; intros r Hr.
  - cbn [SpecFloat.iter_pos].
    pose proof (pow2_pos (Zpos p) ltac:(lia)) as Hp.
    assert (H1 : 0 <= shr_m (shr_1 r)) by (rewrite shr_1_m by lia; apply Z.div_pos; lia).
    assert (H2 : 0 <= shr_m (SpecFloat.iter_pos shr_1 p (shr_1 r))).
    { rewrite IH by lia. apply Z.div_pos; lia. }
    rewrite IH, IH, shr_1_m by lia.
    rewrite !Z.div_div by lia. rewrite pow2_xI. f_equal; lia.
  - cbn [SpecFloat.iter_pos].
    pose proof (pow2_pos (Zpos p) ltac:(lia)) as Hp.
    assert (H2 : 0 <= shr_m (SpecFloat.iter_pos shr_1 p r)).
    { rewrite IH by lia. apply Z.div_pos; lia. }
    rewrite IH, IH by lia.
    rewrite !Z.div_div by lia. rewrite pow2_xO. f_equal; lia.
  - cbn [SpecFloat.iter_pos]. rewrite shr_1_m by lia. reflexivity.
Qed.

(** A right shift by [n] places, as [shr] performs it. *)
Lemma shr_spec (r : shr_record) (e n : Z) :
  0 <= shr_m r ->
  let '(r', e') := shr r e n in
  e' = e + Z.max 0 n /\ shr_m r' = shr_m r / 2 ^ Z.max 0 n.
Proof.
  intros Hr. destruct n as [|p|p]; cbn [shr].
  - rewrite Z.max_id, Z.add_0_r, Z.pow_0_r, Z.div_1_r. auto.
  - rewrite Z.max_r by lia. split; [reflexivity|]. now apply iter_shr_1_m.
  - rewrite Z.max_l by lia. rewrite Z.add_0_r, Z.pow_0_r, Z.div_1_r. auto.
Qed.

Lemma shr_record_of_loc_m (m : Z) (l : location) : shr_m (shr_record_of_loc m l) = m.
Proof. destruct l as [|[]]; reflexivity. Qed.

Lemma shr_fexp_spec (m e : Z) (l : location) :
  0 <= m ->
  let '(r', e') := shr_fexp prec emax m e l in
  let k := Z.max 0 (fexp prec emax (Zdigits2 m + e) - e) in
  e' = e + k /\ shr_m r' = m / 2 ^ k.
Proof.
  intros Hm. unfold shr_fexp.
  pose proof (shr_spec (shr_record_of_loc m l) e (fexp prec emax (Zdigits2 m + e) - e)) as H.
  rewrite shr_record_of_loc_m in H. specialize (H Hm).
  destruct (shr _ _ _) as [r' e']. exact H.
Qed.

Lemma round_nearest_even_range (m : Z) (l : location) :
  m <= round_nearest_even m l <= m + 1.
Proof.
  unfold round_nearest_even. destruct l as [|[]]; try lia. destruct (Z.even m); lia.
Qed.

Lemma Zdigits2_pos (m : Z) : 0 < m -> 1 <= Zdigits2 m.
Proof. destruct m; cbn; lia. Qed.

Lemma Zdigits2_le (x n : Z) : 0 <= n -> 0 <= x < 2 ^ n -> Zdigits2 x <= n.
Proof.
  intros Hn Hx. destruct (Z.eq_dec x 0) as [-> | Hne]; [cbn; lia|].
  pose proof (Zdigits2_bounds x ltac:(lia)) as [Hlo _].
  pose proof (Zdigits2_nonneg x).
  destruct (Z.le_gt_cases (Zdigits2 x) n) as [|Hgt]; [assumption|].
  assert (2 ^ n <= 2 ^ (Zdigits2 x - 1)) by (apply Z.pow_le_mono_r; lia). lia.
Qed.

Lemma fexp_ge_emin (k : Z) : -149 <= fexp prec emax k.
Proof. unfold fexp, emin, prec, emax. lia. Qed.

Lemma fexp_eq (k : Z) : fexp prec emax k = Z.max (k - 24) (-149).
Proof. reflexivity. Qed.

(** The result of [binary_round_aux] for a mantissa [M >= 0] at exponent [e]:
    the mantissa is shifted to the exponent [e1] of the format, moved by at
    most one unit by the rounding, and shifted once more if that carried. *)
Lemma binary_round_aux_spec (s : bool) (M e : Z) (l : location) :
  0 <= M ->
  exists m1' k2 : Z,
    let e1 := Z.max e (fexp prec emax (Zdigits2 M + e)) in
    let m1 := M / 2 ^ (e1 - e) in
    m1 <= m1' <= m1 + 1 /\
    0 <= k2 <= 1 /\
    binary_round_aux prec emax s M e l =
      match m1' / 2 ^ k2 with
      | Z0 => S754_zero s
      | Zpos m => if e1 + k2 <=? 104 then S754_finite s m (e1 + k2) else S754_infinity s
      | Zneg _ => S754_nan
      end.
Proof.
  intros HM. unfold binary_round_aux.
  pose proof (shr_fexp_spec M e l HM) as H1.
  destruct (shr_fexp prec emax M e l) as [r1 e1'].
  cbv zeta in H1. destruct H1 as [He1 Hm1].
  set (k1 := Z.max 0 (fexp prec emax (Zdigits2 M + e) - e)) in *.
  assert (Hk1 : e + k1 = Z.max e (fexp prec emax (Zdigits2 M + e))) by lia.
  assert (Hk1' : Z.max e (fexp prec emax (Zdigits2 M + e)) - e = k1) by lia.
  set (m1' := round_nearest_even (shr_m r1) (loc_of_shr_record r1)).
  pose proof (round_nearest_even_range (shr_m r1) (loc_of_shr_record r1)) as Hr. fold m1' in Hr.
  assert (Hk1pos : 0 < 2 ^ k1) by (apply pow2_pos; lia).
  assert (Hm1nn : 0 <= shr_m r1) by (rewrite Hm1; apply Z.div_pos; lia).
  pose proof (shr_fexp_spec m1' e1' loc_Exact ltac:(lia)) as H2.
  destruct (shr_fexp prec emax m1' e1' loc_Exact) as [r2 e2'].
  cbv zeta in H2. destruct H2 as [He2 Hm2].
  set (k2 := Z.max 0 (fexp prec emax (Zdigits2 m1' + e1') - e1')) in *.
  exists m1', k2. cbv zeta. rewrite Hk1'. rewrite <- Hm1.
  split; [exact Hr|].
  assert (Hd1 : Zdigits2 (shr_m r1) <= 24 \/ e1' = e /\ k1 = 0 /\ False \/ Zdigits2 (shr_m r1) <= 24).
  { left. rewrite Hm1.
    destruct (Z.eq_dec M 0) as [-> | HM0]; [rewrite Z.div_0_l by lia; cbn; lia|].
    pose proof (Zdigits2_bounds M ltac:(lia)) as [_ Hhi].
    pose proof (Zdigits2_nonneg M) as Hdn.
    destruct (Z.le_gt_cases (Zdigits2 M) k1) as [Hle | Hgt].
    - rewrite Z.div_small; [cbn; lia|]. split; [lia|].
      apply Z.lt_le_trans with (2 ^ Zdigits2 M); [lia|]. apply Z.pow_le_mono_r; lia.
    - apply Z.le_trans with (Zdigits2 M - k1).
      + apply Zdigits2_le; [lia|]. split; [apply Z.div_pos; lia|].
        apply Z.div_lt_upper_bound; [lia|]. rewrite <- Z.pow_add_r by lia.
        replace (k1 + (Zdigits2 M - k1)) with (Zdigits2 M) by lia. lia.
      + subst k1. rewrite fexp_eq. lia. }
  assert (Hd : Zdigits2 (shr_m r1) <= 24) by tauto. clear Hd1.
  assert (Hd' : Zdigits2 m1' <= 25).
  { apply Zdigits2_le; [lia|]. split; [lia|].
    destruct (Z.eq_dec (shr_m r1) 0) as [E0 | Hne]; [rewrite E0 in Hr; lia|].
    pose proof (Zdigits2_bounds (shr_m r1) ltac:(lia)) as [_ Hhi].
    assert (2 ^ Zdigits2 (shr_m r1) <= 2 ^ 24) by (apply Z.pow_le_mono_r; lia).
    change (2 ^ 25) with (2 * 2 ^ 24). lia. }
  assert (He1ge : -149 <= e1') by (pose proof (fexp_ge_emin (Zdigits2 M + e)); lia).
  assert (Hk2 : 0 <= k2 <= 1).
  { subst k2. rewrite fexp_eq. pose proof (Zdigits2_nonneg m1'). lia. }
  split; [exact Hk2|].
  rewrite Hm2. rewrite He2. rewrite He1, Hk1. reflexivity.
Qed.

(** The value of the rounded result, [W] places below the binary point: it
    is within two units of the last place of the exact value. *)
Lemma binary_round_aux_val (s : bool) (M e : Z) (l : location) (W K : Z) :
  0 <= M -> 0 <= e + W -> 149 <= W ->
  M * 2 ^ (e + W) < 2 ^ (K + W) -> Z.max e (K - 24) <= 103 ->
  exists m2 e2 : Z,
    let e1 := Z.max e (fexp prec emax (Zdigits2 M + e)) in
    binary_round_aux prec emax s M e l =
      match m2 with
      | Zpos m => S754_finite s m e2
      | _ => S754_zero s
      end /\
    0 <= m2 /\ -149 <= e1 <= e2 /\ e2 <= e1 + 1 /\ e2 <= 104 /\
    e1 <= Z.max e (Z.max (K - 24) (-149)) /\
    M * 2 ^ (e + W) - 2 * 2 ^ (e1 + W) < m2 * 2 ^ (e2 + W) <= M * 2 ^ (e + W) + 2 ^ (e1 + W).
Proof.
  intros HM HeW HW Hlt HK.
  destruct (binary_round_aux_spec s M e l HM) as (m1' & k2 & H). cbv zeta in H.
  destruct H as (Hm1' & Hk2 & HR).
  set (e1 := Z.max e (fexp prec emax (Zdigits2 M + e))) in *.
  assert (He1 : -149 <= e1) by (subst e1; pose proof (fexp_ge_emin (Zdigits2 M + e)); lia).
  assert (He1K : e1 <= Z.max e (Z.max (K - 24) (-149))).
  { subst e1. rewrite fexp_eq.
    destruct (Z.eq_dec M 0) as [-> | HM0]; [cbn [Zdigits2]|].
    - assert (-W <= K).
      { destruct (Z.le_gt_cases 0 (K + W)); [lia|]. rewrite (Z.pow_neg_r 2 (K + W)) in Hlt by lia. lia. }
      lia.
    - pose proof (Zdigits2_bounds M ltac:(lia)) as [Hlo _].
      pose proof (Zdigits2_pos M ltac:(lia)) as Hdn.
      assert (Zdigits2 M + e <= K); [|lia].
      destruct (Z.le_gt_cases (Zdigits2 M + e) K) as [|Hgt]; [assumption|exfalso].
      assert (0 <= K + W).
      { destruct (Z.le_gt_cases 0 (K + W)); [lia|]. rewrite (Z.pow_neg_r 2 (K + W)) in Hlt by lia.
        pose proof (pow2_pos (e + W) HeW). nia. }
      assert (2 ^ (K + W) <= 2 ^ (Zdigits2 M - 1 + (e + W))) by (apply Z.pow_le_mono_r; lia).
      rewrite (Z.pow_add_r 2 (Zdigits2 M - 1) (e + W)) in H0 by lia.
      pose proof (pow2_pos (e + W) HeW). nia. }
  exists (m1' / 2 ^ k2), (e1 + k2). cbv zeta. fold e1.
  pose proof (pow2_pos (e1 - e) ltac:(lia)) as HQ.
  pose proof (pow2_pos (e + W) HeW) as HP.
  pose proof (pow2_pos k2 ltac:(lia)) as Hk2p.
  assert (Hm1nn : 0 <= M / 2 ^ (e1 - e)) by (apply Z.div_pos; lia).
  assert (Hm2nn : 0 <= m1' / 2 ^ k2) by (apply Z.div_pos; lia).
  assert (Hle : e1 + k2 <= 104) by lia.
  split.
  { rewrite HR. destruct (m1' / 2 ^ k2) as [|p|p]; try reflexivity; [|lia].
    destruct (Z.leb_spec (e1 + k2) 104); [reflexivity | lia]. }
  split; [exact Hm2nn|]. split; [lia|]. split; [lia|]. split; [lia|]. split; [exact He1K|].
  assert (E1 : 2 ^ (e1 + W) = 2 ^ (e1 - e) * 2 ^ (e + W)).
  { rewrite <- Z.pow_add_r by lia. f_equal. lia. }
  assert (E2 : 2 ^ (e1 + k2 + W) = 2 ^ k2 * 2 ^ (e1 - e) * 2 ^ (e + W)).
  { rewrite <- !Z.pow_add_r by lia. f_equal. lia. }
  rewrite E1, E2. clear E1 E2.
  set (Q := 2 ^ (e1 - e)) in *. set (P := 2 ^ (e + W)) in *.
  set (m1 := M / Q) in *.
  assert (Hdiv1 : Q * m1 <= M < Q * (m1 + 1)).
  { subst m1. pose proof (Z.mul_div_le M Q HQ). pose proof (Z.mul_succ_div_gt M Q HQ). lia. }
  set (T := m1' / 2 ^ k2 * 2 ^ k2).
  assert (HT : m1 - 1 <= T <= m1 + 1).
  { subst T. assert (k2 = 0 \/ k2 = 1) as [-> | ->] by lia.
    - rewrite Z.pow_0_r, Z.div_1_r. lia.
    - change (2 ^ 1) with 2. Z.div_mod_to_equations. lia. }
  replace (m1' / 2 ^ k2 * (2 ^ k2 * Q * P)) with (T * (Q * P)) by (subst T; ring).
  assert (HQP : 0 < Q * P) by nia.
  split; nia.
Qed.

Lemma pos_iter_xO (m d : positive) : Zpos (Pos.iter xO m d) = Zpos m * 2 ^ Zpos d.
Proof.
  induction d as [|d IH] using Pos.peano_ind.
  - cbn. lia.
  - rewrite Pos.iter_succ, Pos2Z.inj_xO, IH, Pos2Z.inj_succ, Z.pow_succ_r by lia. lia.
Qed.

Lemma shl_align_spec (mx : positive) (ex ex' : Z) :
  let '(m', e') := shl_align mx ex ex' in
  e' = Z.min ex ex' /\ Zpos m' = Zpos mx * 2 ^ (ex - e').
Proof.
  unfold shl_align. destruct (ex' - ex) as [|d|d] eqn:E.
  - split; [lia|]. rewrite Z.sub_diag. cbn. lia.
  - split; [lia|]. rewrite Z.sub_diag. cbn. lia.
  - split; [lia|]. rewrite pos_iter_xO. f_equal. f_equal. lia.
Qed.

Lemma magnitude_le (M e W K : Z) :
  0 < M -> 0 <= e + W -> M * 2 ^ (e + W) < 2 ^ (K + W) -> Zdigits2 M + e <= K.
Proof.
  intros HM HeW Hlt.
  pose proof (Zdigits2_bounds M HM) as [Hlo _].
  pose proof (Zdigits2_pos M HM) as Hdn.
  pose proof (pow2_pos (e + W) HeW) as HP.
  destruct (Z.le_gt_cases (Zdigits2 M + e) K) as [|Hgt]; [assumption|exfalso].
  assert (0 <= K + W).
  { destruct (Z.le_gt_cases 0 (K + W)); [lia|]. rewrite (Z.pow_neg_r 2 (K + W)) in Hlt by lia. nia. }
  assert (H0 : 2 ^ (K + W) <= 2 ^ (Zdigits2 M - 1 + (e + W))) by (apply Z.pow_le_mono_r; lia).
  rewrite (Z.pow_add_r 2 (Zdigits2 M - 1) (e + W)) in H0 by lia. nia.
Qed.

(** Rounding a positive integer mantissa: the result is a zero or a finite
    number of the same sign, within two units of the last place. *)
Lemma binary_round_val (s : bool) (m : positive) (e K : Z) :
  -149 <= e -> Zpos m * 2 ^ (e + 149) < 2 ^ (K + 149) -> K <= 127 ->
  let r := binary_round prec emax s m e in
  let u := 2 ^ (Z.max (K - 24) (-149) + 149) in
  f32_fin r /\ (r = S754_zero s \/ f32_sign r = s) /\
  Zpos m * 2 ^ (e + 149) - 2 * u < Z.abs (f32_val r) <= Zpos m * 2 ^ (e + 149) + u /\
  (if s then f32_val r <= 0 else 0 <= f32_val r).
Proof.
  intros He Hlt HK. cbv zeta. unfold binary_round.
  pose proof (shl_align_spec m e (fexp prec emax (Zpos (digits2_pos m) + e))) as Hs.
  destruct (shl_align m e _) as [mz ez]. destruct Hs as [Hez Hmz].
  pose proof (magnitude_le (Zpos m) e 149 K ltac:(lia) ltac:(lia) Hlt) as Hmag.
  change (Zdigits2 (Z.pos m)) with (Zpos (digits2_pos m)) in Hmag.
  pose proof (fexp_ge_emin (Zpos (digits2_pos m) + e)) as Hfe.
  assert (Hfk : fexp prec emax (Zpos (digits2_pos m) + e) <= Z.max (K - 24) (-149))
    by (rewrite fexp_eq; lia).
  assert (Hval : Zpos mz * 2 ^ (ez + 149) = Zpos m * 2 ^ (e + 149)).
  { rewrite Hmz, <- Z.mul_assoc, <- Z.pow_add_r by lia. f_equal. f_equal. lia. }
  destruct (binary_round_aux_val s (Zpos mz) ez loc_Exact 149 K) as (m2 & e2 & H);
    try lia.
  cbv zeta in H. destruct H as (HR & Hm2 & He1 & He2 & He2' & He1K & Hb).
  rewrite Hval in Hb. rewrite HR.
  set (e1 := Z.max ez (fexp prec emax (Zdigits2 (Z.pos mz) + ez))) in *.
  assert (Hu : 2 ^ (e1 + 149) <= 2 ^ (Z.max (K - 24) (-149) + 149))
    by (apply Z.pow_le_mono_r; lia).
  pose proof (pow2_pos (e1 + 149) ltac:(lia)).
  pose proof (pow2_pos (e2 + 149) ltac:(lia)).
  destruct m2 as [|p|p]; cbn [f32_fin f32_val f32_sign]; try lia.
  - split; [exact I|]. split; [now left|]. destruct s; cbn; lia.
  - split; [lia|]. split; [now right|].
    assert (Habs : Z.abs (cond_Zopp s (Z.pos p * 2 ^ (e2 + 149))) = Z.pos p * 2 ^ (e2 + 149))
      by (destruct s; cbn [cond_Zopp]; lia).
    rewrite Habs. split; [lia|]. destruct s; cbn [cond_Zopp]; lia.
Qed.

Lemma binary_normalize_val (S ez K : Z) :
  -149 <= ez -> Z.abs S * 2 ^ (ez + 149) < 2 ^ (K + 149) -> K <= 127 ->
  let r := binary_normalize prec emax S ez false in
  let v := S * 2 ^ (ez + 149) in
  let u := 2 ^ (Z.max (K - 24) (-149) + 149) in
  f32_fin r /\ Z.abs (f32_val r - v) < 2 * u /\
  (0 <= v -> 0 <= f32_val r) /\ (v <= 0 -> f32_val r <= 0).
Proof.
  intros He Hlt HK. cbv zeta.
  pose proof (pow2_pos (ez + 149) ltac:(lia)) as HP.
  pose proof (pow2_pos (Z.max (K - 24) (-149) + 149) ltac:(lia)) as Hu.
  destruct S as [|p|p]; cbn [binary_normalize].
  - cbn [f32_fin f32_val]. lia.
  - destruct (binary_round_val false p ez K He ltac:(lia) HK) as (Hf & _ & Hb & Hs).
    cbv zeta in *. split; [exact Hf|]. lia.
  - destruct (binary_round_val true p ez K He ltac:(lia) HK) as (Hf & _ & Hb & Hs).
    cbv zeta in *. split; [exact Hf|]. lia.
Qed.

Lemma f32_val_finite (s : bool) (m : positive) (e ez : Z) :
  -149 <= ez <= e ->
  cond_Zopp s (Zpos (fst (shl_align m e ez))) * 2 ^ (ez + 149)
  = f32_val (S754_finite s m e).
Proof.
  intros He. pose proof (shl_align_spec m e ez) as Hs.
  destruct (shl_align m e ez) as [m' e']. cbn [fst]. destruct Hs as [He' Hm'].
  rewrite Hm'. cbn [f32_val].
  assert (E : 2 ^ (e - e') * 2 ^ (ez + 149) = 2 ^ (e + 149)).
  { rewrite <- Z.pow_add_r by lia. f_equal. lia. }
  destruct s; cbn [cond_Zopp]; nia.
Qed.

(** Addition of finite numbers: the sum is finite, within two units of the
    last place of the exact sum, and has its sign. *)
Lemma f32_add_val (x y : f32) (K : Z) :
  f32_fin x -> f32_fin y ->
  Z.abs (f32_val x + f32_val y) < 2 ^ (K + 149) -> K <= 127 ->
  let r := (x + y)%f32 in
  let v := f32_val x + f32_val y in
  f32_fin r /\ Z.abs (f32_val r - v) < 2 * 2 ^ (Z.max (K - 24) (-149) + 149) /\
  (0 <= v -> 0 <= f32_val r) /\ (v <= 0 -> f32_val r <= 0).
Proof.
  intros Hx Hy Hlt HK. cbv zeta.
  pose proof (pow2_pos (Z.max (K - 24) (-149) + 149) ltac:(lia)) as Hu.
  destruct x as [sx|sx| |sx mx ex], y as [sy|sy| |sy my ey]; try contradiction;
    unfold f32_add; cbn [SFadd].
  - destruct sx, sy; cbn [f32_fin f32_val]; lia.
  - cbn [f32_val] in *. split; [exact Hy|]. rewrite Z.add_0_l. lia.
  - cbn [f32_val] in *. split; [exact Hx|]. rewrite Z.add_0_r. lia.
  - cbn [f32_fin] in Hx, Hy.
    set (ez := Z.min ex ey).
    pose proof (f32_val_finite sx mx ex ez ltac:(lia)) as Vx.
    pose proof (f32_val_finite sy my ey ez ltac:(lia)) as Vy.
    set (S := cond_Zopp sx (Z.pos (fst (shl_align mx ex ez)))
              + cond_Zopp sy (Z.pos (fst (shl_align my ey ez)))) in *.
    assert (HS : S * 2 ^ (ez + 149) = f32_val (S754_finite sx mx ex) + f32_val (S754_finite sy my ey))
      by (subst S; lia).
    pose proof (pow2_pos (ez + 149) ltac:(lia)) as HP.
    assert (Hlt' : Z.abs S * 2 ^ (ez + 149) < 2 ^ (K + 149)).
    { rewrite <- HS in Hlt.
      rewrite Z.abs_mul, (Z.abs_eq (2 ^ (ez + 149))) in Hlt by lia. exact Hlt. }
    destruct (binary_normalize_val S ez K ltac:(lia) Hlt' HK) as (Hf & Hb & Hs1 & Hs2).
    rewrite HS in *. auto.
Qed.

(** Subtraction of finite numbers, likewise. *)
Lemma f32_sub_val (x y : f32) (K : Z) :
  f32_fin x -> f32_fin y ->
  Z.abs (f32_val x - f32_val y) < 2 ^ (K + 149) -> K <= 127 ->
  let r := (x - y)%f32 in
  let v := f32_val x - f32_val y in
  f32_fin r /\ Z.abs (f32_val r - v) < 2 * 2 ^ (Z.max (K - 24) (-149) + 149) /\
  (0 <= v -> 0 <= f32_val r) /\ (v <= 0 -> f32_val r <= 0).
Proof.
  intros Hx Hy Hlt HK. cbv zeta.
  pose proof (pow2_pos (Z.max (K - 24) (-149) + 149) ltac:(lia)) as Hu.
  destruct x as [sx|sx| |sx mx ex], y as [sy|sy| |sy my ey]; try contradiction;
    unfold f32_sub; cbn [SFsub].
  - destruct sx, sy; cbn [f32_fin f32_val]; lia.
  - cbn [f32_val f32_fin] in *. split; [exact Hy|]. destruct sy; cbn [negb cond_Zopp]; lia.
  - cbn [f32_val] in *. split; [exact Hx|]. rewrite Z.sub_0_r. lia.
  - cbn [f32_fin] in Hx, Hy.
    set (ez := Z.min ex ey).
    pose proof (f32_val_finite sx mx ex ez ltac:(lia)) as Vx.
    pose proof (f32_val_finite sy my ey ez ltac:(lia)) as Vy.
    set (S := cond_Zopp sx (Z.pos (fst (shl_align mx ex ez)))
              - cond_Zopp sy (Z.pos (fst (shl_align my ey ez)))) in *.
    assert (HS : S * 2 ^ (ez + 149) = f32_val (S754_finite sx mx ex) - f32_val (S754_finite sy my ey))
      by (subst S; lia).
    pose proof (pow2_pos (ez + 149) ltac:(lia)) as HP.
    assert (Hlt' : Z.abs S * 2 ^ (ez + 149) < 2 ^ (K + 149)).
    { rewrite <- HS in Hlt.
      rewrite Z.abs_mul, (Z.abs_eq (2 ^ (ez + 149))) in Hlt by lia. exact Hlt. }
    destruct (binary_normalize_val S ez K ltac:(lia) Hlt' HK) as (Hf & Hb & Hs1 & Hs2).
    rewrite HS in *. auto.
Qed.

(** ** The phase wrap loops terminate *)

Lemma f32_lt_zero (x : f32) : f32_fin x -> (x <? f32_zero)%f32 = (f32_val x <? 0).
Proof.
  destruct x as [s|s| |s m e]; try contradiction; intros H; cbn [f32_val].
  - reflexivity.
  - pose proof (pow2_pos (e + 149) ltac:(cbn in H; lia)).
    unfold f32_lt, SFltb, f32_zero. cbn [SFcompare].
    destruct s; cbn [cond_Zopp]; symmetry; [apply Z.ltb_lt | apply Z.ltb_ge]; lia.
Qed.

Lemma f32_val_360 : f32_val (f32_of_Z 360) = 360 * deg_unit.
Proof. reflexivity. Qed.

Lemma f32_of_Z_360 : f32_of_Z 360 = S754_finite false 11796480 (-15).
Proof. reflexivity. Qed.

Lemma f32_fin_360 : f32_fin (f32_of_Z 360).
Proof. rewrite f32_of_Z_360. cbn [f32_fin]. lia. Qed.

Lemma deg_unit_pos : 0 < deg_unit.
Proof. reflexivity. Qed.

Lemma pow2_163 : 2 ^ (14 + 149) = 16384 * deg_unit.
Proof. reflexivity. Qed.

Lemma pow2_ulp14 : 2 * 2 ^ (Z.max (14 - 24) (-149) + 149) * 512 = deg_unit.
Proof. reflexivity. Qed.

Lemma wrap_below_terminates (n : nat) (x : f32) :
  f32_fin x ->
  - (Z.of_nat n * 359 * deg_unit) <= f32_val x ->
  - (8192 * deg_unit) < f32_val x < 8192 * deg_unit ->
  forall fuel, (n <= fuel)%nat ->
  exists y, wrap_below fuel x = Some y /\ f32_fin y /\
            0 <= f32_val y < 8192 * deg_unit.
Proof.
  pose proof deg_unit_pos as HU.
  revert x. induction n as [|n IH]; intros x Hx Hn Hv fuel Hfuel.
  - exists x. destruct fuel; cbn [wrap_below]; rewrite f32_lt_zero by exact Hx;
      (destruct (Z.ltb_spec (f32_val x) 0); [lia|]); (split; [reflexivity|split; [exact Hx|lia]]).
  - destruct (Z.ltb_spec (f32_val x) 0) as [Hneg | Hnn].
    + destruct fuel as [|fuel]; [lia|]. cbn [wrap_below].
      rewrite f32_lt_zero by exact Hx.
      destruct (Z.ltb_spec (f32_val x) 0); [|lia].
      destruct (f32_add_val x (f32_of_Z 360) 14 Hx f32_fin_360) as (Hf & Hb & Hs1 & Hs2);
        [ rewrite f32_val_360, pow2_163; lia | lia | ].
      rewrite f32_val_360 in *. pose proof pow2_ulp14 as Hulp.
      apply IH; [exact Hf | | | lia].
      * destruct (Z.le_gt_cases 0 (f32_val x + 360 * deg_unit)); [specialize (Hs1 ltac:(lia)); lia|].
        lia.
      * destruct (Z.le_gt_cases 0 (f32_val x + 360 * deg_unit)).
        -- specialize (Hs1 ltac:(lia)). lia.
        -- specialize (Hs2 ltac:(lia)). lia.
    + exists x. destruct fuel; cbn [wrap_below]; rewrite f32_lt_zero by exact Hx;
      (destruct (Z.ltb_spec (f32_val x) 0); [lia|]); (split; [reflexivity|split; [exact Hx|lia]]).
Qed.

Lemma f32_ge_360 (x : f32) :
  f32_fin x -> (x >=? f32_of_Z 360)%f32 = true -> 0 < f32_val x.
Proof.
  rewrite f32_of_Z_360. unfold f32_ge, SFleb.
  destruct x as [s|s| |s m e]; try contradiction; cbn [SFcompare f32_fin f32_val].
  - discriminate.
  - intros He. pose proof (pow2_pos (e + 149) ltac:(lia)).
    destruct s; [discriminate|]. cbn [cond_Zopp]. lia.
Qed.

Lemma f32_ge_360_nonpos (x : f32) :
  f32_fin x -> f32_val x <= 0 -> (x >=? f32_of_Z 360)%f32 = false.
Proof.
  intros Hx Hv. destruct (x >=? f32_of_Z 360)%f32 eqn:E; [|reflexivity].
  apply f32_ge_360 in E; [lia | exact Hx].
Qed.

Lemma wrap_above_terminates (n : nat) (x : f32) :
  f32_fin x ->
  f32_val x <= Z.of_nat n * 359 * deg_unit ->
  - (8192 * deg_unit) < f32_val x < 8192 * deg_unit ->
  forall fuel, (n <= fuel)%nat ->
  exists y, wrap_above fuel x = Some y.
Proof.
  pose proof deg_unit_pos as HU.
  revert x. induction n as [|n IH]; intros x Hx Hn Hv fuel Hfuel.
  - exists x. destruct fuel; cbn [wrap_above]; rewrite f32_ge_360_nonpos by (trivial; lia);
      reflexivity.
  - destruct (x >=? f32_of_Z 360)%f32 eqn:E.
    + destruct fuel as [|fuel]; [lia|]. cbn [wrap_above]. rewrite E.
      pose proof (f32_ge_360 x Hx E) as Hpos.
      destruct (f32_sub_val x (f32_of_Z 360) 14 Hx f32_fin_360) as (Hf & Hb & Hs1 & Hs2);
        [ rewrite f32_val_360, pow2_163; lia | lia | ].
      rewrite f32_val_360 in *. pose proof pow2_ulp14 as Hulp.
      destruct (Z.le_gt_cases 0 (f32_val x - 360 * deg_unit)).
      * specialize (Hs1 ltac:(lia)). apply IH; [exact Hf | lia | lia | lia].
      * specialize (Hs2 ltac:(lia)). exists (x - f32_of_Z 360)%f32.
        destruct fuel; cbn [wrap_above]; rewrite f32_ge_360_nonpos by (trivial; lia);
          reflexivity.
    + exists x. destruct fuel; cbn [wrap_above]; rewrite E; reflexivity.
Qed.

Lemma wrap_loops_terminate (x : f32) (fuel : nat) :
  deg_ok x -> (23 <= fuel)%nat ->
  exists deg y, wrap_below fuel x = Some deg /\ wrap_above fuel deg = Some y.
Proof.
  pose proof deg_unit_pos as HU.
  intros [-> | [Hx Hv]] Hfuel.
  - exists S754_nan, S754_nan. destruct fuel; split; reflexivity.
  - destruct (wrap_below_terminates 23 x Hx ltac:(lia) Hv fuel Hfuel) as (deg & E1 & Hd & Hdv).
    destruct (wrap_above_terminates 23 deg Hd ltac:(lia) ltac:(lia) fuel Hfuel) as (y & E2).
    eauto.
Qed.

(** ** The phase difference is within reach of the loops *)

Lemma binary_round_aux_exact (s : bool) (M : positive) (e : Z) :
  fexp prec emax (Zdigits2 (Zpos M) + e) <= e -> e <= 104 ->
  binary_round_aux prec emax s (Zpos M) e loc_Exact = S754_finite s M e.
Proof.
  intros Hf He. unfold binary_round_aux, shr_fexp.
  assert (Hshr : forall r, shr r e (fexp prec emax (Zdigits2 (Z.pos M) + e) - e) = (r, e)).
  { intros r. destruct (fexp prec emax (Zdigits2 (Z.pos M) + e) - e) as [|p|p] eqn:E;
      try reflexivity. lia. }
  rewrite Hshr. cbn [shr_record_of_loc loc_of_shr_record shr_m round_nearest_even].
  rewrite Hshr. cbn [shr_record_of_loc shr_m].
  destruct (Z.leb_spec e (emax - prec)) as [|Hgt]; [reflexivity|].
  unfold emax, prec in Hgt. lia.
Qed.

Lemma f32_of_Z_180 : f32_of_Z 180 = S754_finite false 11796480 (-16).
Proof. reflexivity. Qed.

Lemma PI_F_eq : PI_F = S754_finite false 13176795 (-22).
Proof. reflexivity. Qed.

Lemma f32_mul_180_val (d : f32) :
  f32_fin d -> Z.abs (f32_val d) < 16 * deg_unit ->
  let g := (d * f32_of_Z 180)%f32 in
  f32_fin g /\ Z.abs (f32_val g) < 4096 * deg_unit.
Proof.
  pose proof deg_unit_pos as HU.
  intros Hd Hv. cbv zeta. rewrite f32_of_Z_180. unfold f32_mul.
  destruct d as [s|s| |s m e]; try contradiction; cbn [SFmul].
  - cbn [f32_fin f32_val]. lia.
  - cbn [f32_fin f32_val] in Hd, Hv.
    pose proof (pow2_pos (e + 149) ltac:(lia)) as HP.
    assert (Hm : Zpos m * 2 ^ (e + 149) < 16 * deg_unit) by (destruct s; cbn [cond_Zopp] in Hv; lia).
    set (s' := xorb s false).
    change (Z.pos (m * 11796480)) with (Zpos m * 11796480).
    assert (HM : Zpos m * 11796480 * 2 ^ (e + -16 + 165) < 2 ^ (12 + 165)).
    { replace (e + -16 + 165) with (e + 149) by lia.
      change (2 ^ (12 + 165)) with (268435456 * deg_unit). lia. }
    assert (HM' : Zpos m * 11796480 * 2 ^ (e + -16 + 165) < 188743680 * deg_unit).
    { replace (e + -16 + 165) with (e + 149) by lia. lia. }
    destruct (Z.le_gt_cases (fexp prec emax (Zdigits2 (Zpos m * 11796480) + (e + -16))) (e + -16))
      as [Hex | Hin].
    + change (Zpos m * 11796480) with (Zpos (m * 11796480)) in *.
      rewrite binary_round_aux_exact by lia.
      pose proof (fexp_ge_emin (Zdigits2 (Z.pos (m * 11796480)) + (e + -16))).
      cbn [f32_fin f32_val]. split; [lia|].
      assert (E : 2 ^ (e + 149) = 65536 * 2 ^ (e + -16 + 149)).
      { change 65536 with (2 ^ 16). rewrite <- Z.pow_add_r by lia. f_equal. lia. }
      rewrite Pos2Z.inj_mul. destruct s'; cbn [cond_Zopp]; lia.
    + destruct (binary_round_aux_val s' (Zpos m * 11796480) (e + -16) loc_Exact 165 12)
        as (m2 & e2 & H); try lia.
      cbv zeta in H. destruct H as (HR & Hm2 & He1 & He2 & He2' & He1K & Hb).
      rewrite HR.
      set (e1 := Z.max (e + -16) (fexp prec emax (Zdigits2 (Zpos m * 11796480) + (e + -16)))) in *.
      assert (He1' : e1 <= -12) by lia.
      assert (Hu : 2 ^ (e1 + 165) <= 2 ^ (-12 + 165)) by (apply Z.pow_le_mono_r; lia).
      assert (E : 2 ^ (e2 + 165) = 65536 * 2 ^ (e2 + 149)).
      { change 65536 with (2 ^ 16). rewrite <- Z.pow_add_r by lia. f_equal. lia. }
      change (2 ^ (-12 + 165)) with (deg_unit * 16) in Hu.
      change (2 ^ (12 + 165)) with (268435456 * deg_unit) in HM.
      rewrite E in Hb.
      destruct m2 as [|p|p]; cbn [f32_fin f32_val]; try lia.
      split; [lia|]. destruct s'; cbn [cond_Zopp]; lia.
Qed.

Lemma f32_div_pi_val (g : f32) :
  f32_fin g -> Z.abs (f32_val g) < 4096 * deg_unit ->
  let x := (g / PI_F)%f32 in
  f32_fin x /\ Z.abs (f32_val x) < 8192 * deg_unit.
Proof.
  pose proof deg_unit_pos as HU.
  intros Hg Hv. cbv zeta. rewrite PI_F_eq. unfold f32_div.
  destruct g as [s|s| |s m e]; try contradiction; cbn [SFdiv].
  - cbn [f32_fin f32_val]. lia.
  - cbn [f32_fin f32_val] in Hg, Hv.
    pose proof (pow2_pos (e + 149) ltac:(lia)) as HP.
    assert (Hm : Zpos m * 2 ^ (e + 149) < 4096 * deg_unit) by (destruct s; cbn [cond_Zopp] in Hv; lia).
    pose proof (magnitude_le (Zpos m) e 149 12 ltac:(lia) ltac:(lia) Hm) as Hmag.
    unfold SFdiv_core_binary.
    change (Zdigits2 13176795) with 24.
    set (d1 := Zdigits2 (Z.pos m)) in *.
    set (e' := Z.min (fexp prec emax (d1 + e - (24 + -22))) (e - -22)).
    pose proof (fexp_ge_emin (d1 + e - (24 + -22))) as Hfe.
    assert (He' : -149 <= e' <= -14) by (subst e'; rewrite fexp_eq; lia).
    set (sh := e - -22 - e').
    assert (Hsh : 0 <= sh) by (subst sh e'; lia).
    set (m' := match sh with Z.pos _ => Z.pos m ≪ sh | 0 => Z.pos m | Z.neg _ => 0 end).
    assert (Hm' : m' = Zpos m * 2 ^ sh).
    { subst m'. destruct sh as [|p|p] eqn:E; [cbn; lia | | lia].
      rewrite Z.shiftl_mul_pow2 by lia. reflexivity. }
    pose proof (pow2_pos sh Hsh) as Hshp.
    assert (Hq : fst (Z.div_eucl m' 13176795) = m' / 13176795) by reflexivity.
    destruct (Z.div_eucl m' 13176795) as [q r]. cbn [fst] in Hq.
    assert (Hq0 : 0 <= q) by (rewrite Hq; apply Z.div_pos; lia).
    assert (Hqm : q * 13176795 <= m') by (rewrite Hq; pose proof (Z.mul_div_le m' 13176795); lia).
    assert (E : 2 ^ sh * 2 ^ (e' + 149) = 4194304 * 2 ^ (e + 149)).
    { change 4194304 with (2 ^ 22). rewrite <- !Z.pow_add_r by lia. f_equal. subst sh. lia. }
    pose proof (pow2_pos (e' + 149) ltac:(lia)) as HP'.
    assert (Hqv : q * 2 ^ (e' + 149) < 2048 * deg_unit) by nia.
    destruct (binary_round_aux_val (xorb s false) q e' (new_location 13176795 r) 149 11)
      as (m2 & e2 & H); try lia.
    { change (2 ^ (11 + 149)) with (2048 * deg_unit). exact Hqv. }
    cbv zeta in H. destruct H as (HR & Hm2 & He1 & He2 & He2' & He1K & Hb).
    rewrite HR.
    set (e1 := Z.max e' (fexp prec emax (Zdigits2 q + e'))) in *.
    assert (Hu : 2 ^ (e1 + 149) <= 2 ^ (-13 + 149)) by (apply Z.pow_le_mono_r; lia).
    change (2 ^ (-13 + 149)) with (2 ^ 136) in Hu.
    assert (H136 : 2 ^ 136 * 8192 = deg_unit) by reflexivity.
    destruct m2 as [|p|p]; cbn [f32_fin f32_val]; try lia.
    split; [lia|]. destruct (xorb s false); cbn [cond_Zopp]; lia.
Qed.


Lemma is_f32_fin (x : f32) : is_f32 x -> f32_finite x = true -> f32_fin x.
Proof.
  destruct x as [s|s| |s m e]; cbn [f32_finite f32_fin]; try discriminate; [trivial|].
  intros H _. apply bounded_range in H. lia.
Qed.

Lemma f32_le_val (m p : positive) (e e0 : Z) :
  Zpos m < 0x1000000 -> 0x800000 <= Zpos p -> -149 <= e -> -149 <= e0 ->
  SFleb (S754_finite false m e) (S754_finite false p e0) = true ->
  Zpos m * 2 ^ (e + 149) <= Zpos p * 2 ^ (e0 + 149).
Proof.
  intros Hm Hp He He0. unfold SFleb. cbn [SFcompare].
  pose proof (pow2_pos (e + 149) ltac:(lia)) as HP.
  destruct (Z.compare_spec e e0) as [Heq | Hlt | Hgt]; [| |discriminate].
  - rewrite Pos.compare_cont_spec.
    destruct (Pos.compare_spec m p) as [Hc | Hc | Hc]; cbn [Pos.switch_Eq];
      try discriminate; intros _; subst e0; nia.
  - intros _.
    assert (E : 2 ^ (e0 + 149) = 2 ^ (e0 - e - 1) * (2 * 2 ^ (e + 149))).
    { rewrite <- Z.pow_succ_r, <- Z.pow_add_r by lia. f_equal. lia. }
    pose proof (pow2_pos (e0 - e - 1) ltac:(lia)). rewrite E. nia.
Qed.

Lemma f32_le_pi_val (x : f32) :
  is_f32 x -> f32_finite x = true -> (fabsf x <=? PI_F)%f32 = true ->
  Z.abs (f32_val x) < 4 * deg_unit.
Proof.
  pose proof deg_unit_pos as HU.
  rewrite PI_F_eq.
  destruct x as [s|s| |s m e]; cbn [f32_finite f32_val]; try discriminate; [lia|].
  intros H _ Hle. apply bounded_range in H.
  assert (Habs : Z.abs (cond_Zopp s (Z.pos m * 2 ^ (e + 149))) = Zpos m * 2 ^ (e + 149)).
  { pose proof (pow2_pos (e + 149) ltac:(lia)). destruct s; cbn [cond_Zopp]; lia. }
  rewrite Habs. clear Habs.
  apply f32_le_val in Hle; try lia.
  assert (E : Z.pos 13176795 * 2 ^ (-22 + 149) < 4 * deg_unit) by (vm_compute; reflexivity).
  lia.
Qed.

Lemma phase_diff_deg_ok (M : Libm) (phases : BandMatrix) :
  atan2f_in_range M -> deg_ok (phase_diff_deg_of M phases).
Proof.
  pose proof deg_unit_pos as HU.
  intros HM. unfold phase_diff_deg_of.
  set (l := mean_angle M phases LEFT_INDICES). set (r := mean_angle M phases RIGHT_INDICES).
  assert (Hl : l = S754_nan \/ (is_f32 l /\ f32_finite l = true /\ (fabsf l <=? PI_F)%f32 = true))
    by apply HM.
  assert (Hr : r = S754_nan \/ (is_f32 r /\ f32_finite r = true /\ (fabsf r <=? PI_F)%f32 = true))
    by apply HM.
  clearbody l r.
  destruct Hl as [-> | (Hl1 & Hl2 & Hl3)]; [left; rewrite PI_F_eq, f32_of_Z_180; reflexivity|].
  destruct Hr as [-> | (Hr1 & Hr2 & Hr3)].
  { left. rewrite PI_F_eq, f32_of_Z_180. destruct l as [[]|[]| |[] ? ?]; reflexivity. }
  right.
  pose proof (is_f32_fin _ Hl1 Hl2) as Fl. pose proof (is_f32_fin _ Hr1 Hr2) as Fr.
  pose proof (f32_le_pi_val _ Hl1 Hl2 Hl3) as Vl. pose proof (f32_le_pi_val _ Hr1 Hr2 Hr3) as Vr.
  assert (H152 : 2 ^ (3 + 149) = 8 * deg_unit) by (vm_compute; reflexivity).
  assert (H129 : 2 * 2 ^ (Z.max (3 - 24) (-149) + 149) * 1048576 = deg_unit)
    by (vm_compute; reflexivity).
  destruct (f32_sub_val _ _ 3 Fl Fr) as (Fd & Vd & _); [lia | lia |].
  destruct (f32_mul_180_val _ Fd) as (Fg & Vg); [lia|].
  destruct (f32_div_pi_val _ Fg Vg) as (Fx & Vx).
  split; [exact Fx | lia].
Qed.

Lemma compose_terminates (M : Libm) (fuel : nat) (self : SigprintComposer)
    (amplitude phases : BandMatrix) (stage_hint : Z) :
  atan2f_in_range M -> (23 <= fuel)%nat ->
  exists phase_diff_deg,
    compose M fuel self amplitude phases stage_hint
    = Some (compose_finish M self amplitude phases stage_hint phase_diff_deg).
Proof.
  intros HM Hfuel.
  destruct (wrap_loops_terminate _ fuel (phase_diff_deg_ok M phases HM) Hfuel)
    as (deg & y & E1 & E2).
  exists y. unfold compose. rewrite E1. cbn [mbind option_bind]. rewrite E2. reflexivity.
Qed.

(** ** The digits of a fingerprint *)

Lemma clampValue_Z_range (v lo hi : Z) :
  lo <= hi -> lo <= clampValue Z.ltb v lo hi <= hi.
Proof.
  intros H. unfold clampValue, std_max, std_min.
  destruct (Z.ltb_spec v hi);
    match goal with |- context [Z.ltb ?a ?b] => destruct (Z.ltb_spec a b) end; lia.
Qed.

Lemma metric_range (M : Libm) (x : f32) (hi : Z) : 0 <= hi -> 0 <= metric M x hi <= hi.
Proof. intros. now apply clampValue_Z_range. Qed.

Lemma two_digits_range (v : Z) : 0 <= v <= 99 -> Forall is_digit (two_digits v).
Proof.
  intros Hv. unfold two_digits, is_digit, u8.
  rewrite Z.quot_div_nonneg, Z.rem_mod_nonneg by lia.
  repeat constructor; Z.div_mod_to_equations; lia.
Qed.

Lemma coherence_digits_range (M : Libm) (coh : f32) :
  Forall is_digit (coherence_digits M coh).
Proof.
  unfold coherence_digits.
  pose proof (metric_range M (coh * f32_of_Z 9999)%f32 9999 ltac:(lia)) as Hv.
  set (v := metric M _ 9999) in *. unfold is_digit, u8.
  rewrite !Z.quot_div_nonneg by lia.
  rewrite !Z.rem_mod_nonneg by (try apply Z.div_pos; lia).
  repeat constructor; Z.div_mod_to_equations; lia.
Qed.

Lemma band_digit_range (M : Libm) (avg : list f32) (band : nat) :
  is_digit (band_digit M avg band).
Proof.
  unfold band_digit, is_digit, u8.
  match goal with |- context [metric M ?x 9] => pose proof (metric_range M x 9 ltac:(lia)) end.
  Z.div_mod_to_equations. lia.
Qed.

Lemma digits18_of_range (M : Libm) amplitude phases stage_hint deg :
  Forall is_digit (digits18_of M amplitude phases stage_hint deg) /\
  length (digits18_of M amplitude phases stage_hint deg) = 18%nat.
Proof.
  unfold digits18_of, regional_pct.
  split.
  - repeat (apply Forall_app; split); try (apply two_digits_range, metric_range; lia).
    + apply coherence_digits_range.
    + apply Forall_forall. intros d Hd. apply list_elem_of_In, in_map_iff in Hd as (band & <- & _).
      apply band_digit_range.
    + repeat constructor; unfold u8; Z.div_mod_to_equations; lia.
  - reflexivity.
Qed.

Lemma checksum_digits_spec (ds : list Z) :
  Forall is_digit ds -> length ds = 18%nat ->
  let cs := digit_sum ds mod 97 in
  checksum_digits ds = [cs / 10; cs mod 10] /\ Forall is_digit (checksum_digits ds).
Proof.
  intros Hd Hlen.
  assert (Hsum : forall (l : list Z) acc, Forall is_digit l -> 0 <= acc ->
            acc + 9 * Z.of_nat (length l) < 0x100000000 ->
            fold_left (fun a d => u32 (a + d)) l acc = acc + digit_sum l).
  { induction l as [|d l IH]; intros acc Hl Hacc Hb; cbn [fold_left digit_sum foldr length] in *.
    - lia.
    - apply Forall_cons_1 in Hl as [Hd0 Hl]. unfold is_digit in Hd0.
      unfold u32 at 2. rewrite Z.mod_small by lia.
      rewrite IH by (trivial; lia). unfold digit_sum. lia. }
  assert (Hrange : forall l : list Z, Forall is_digit l -> 0 <= digit_sum l <= 9 * Z.of_nat (length l)).
  { induction l as [|d l IH]; intros Hl; cbn [digit_sum foldr length].
    - lia.
    - apply Forall_cons_1 in Hl as [Hd0 Hl]. unfold is_digit in Hd0. specialize (IH Hl).
      unfold digit_sum in IH. lia. }
  cbv zeta. unfold checksum_digits.
  rewrite firstn_all2 by lia.
  rewrite Hsum by (trivial; lia). rewrite Z.add_0_l.
  specialize (Hrange ds Hd). rewrite Hlen in Hrange.
  set (cs := digit_sum ds mod 97).
  assert (Hcs : 0 <= cs < 97) by (subst cs; apply Z.mod_pos_bound; lia).
  unfold i32, u8.
  replace ((cs + 0x80000000) mod 0x100000000 - 0x80000000) with cs
    by (Z.div_mod_to_equations; lia).
  rewrite !Z.quot_div_nonneg, !Z.rem_mod_nonneg by (try apply Z.div_pos; lia).
  assert (E1 : (cs / 10) mod 10 mod 256 = cs / 10) by (Z.div_mod_to_equations; lia).
  assert (E2 : cs mod 10 mod 256 = cs mod 10) by (Z.div_mod_to_equations; lia).
  change 0x100 with 256. rewrite E1, E2. split; [reflexivity|].
  unfold is_digit. repeat constructor; Z.div_mod_to_equations; lia.
Qed.

(** ** What one [compose] call returns and leaves behind *)

Lemma detect_bands_uninitialized (self : SigprintComposer) (avg : list f32) self' gate loop :
  initialized_ self = false ->
  fold_left (detect_band avg) (seq 0 BAND_COUNT) (self, 0, 0) = (self', gate, loop) ->
  gate = 0 /\ loop = 0.
Proof.
  intros Hinit. unfold BAND_COUNT. cbn [seq fold_left].
  assert (Hstep : forall (s : SigprintComposer) band,
            initialized_ s = false ->
            exists s', detect_band avg (s, 0, 0) band = (s', 0, 0) /\ initialized_ s' = false).
  { intros s band Hs. rewrite detect_band_step, Hs. cbn [andb]. eexists. split; [reflexivity|].
    reflexivity. }
  destruct (Hstep self 0%nat Hinit) as (s1 & -> & H1).
  destruct (Hstep s1 1%nat H1) as (s2 & -> & H2).
  destruct (Hstep s2 2%nat H2) as (s3 & -> & H3).
  destruct (Hstep s3 3%nat H3) as (s4 & -> & H4).
  destruct (Hstep s4 4%nat H4) as (s5 & -> & H5).
  intros [= _ <- <-]. split; reflexivity.
Qed.

Lemma avg_powers_length (amplitude : BandMatrix) :
  length (avg_powers amplitude) = BAND_COUNT.
Proof. reflexivity. Qed.

Lemma avg_powers_nth (amplitude : BandMatrix) (band : nat) :
  (band < BAND_COUNT)%nat ->
  nth band (avg_powers amplitude) f32_zero = avg_power_of amplitude band.
Proof.
  unfold BAND_COUNT. intros H. do 5 (destruct band as [|band]; [reflexivity|]). lia.
Qed.

Lemma compose_finish_eq (M : Libm) (self : SigprintComposer)
    (amplitude phases : BandMatrix) (stage_hint : Z) (deg : f32) :
  compose_finish M self amplitude phases stage_hint deg =
  let st := fold_left (detect_band (avg_powers amplitude)) (seq 0 BAND_COUNT) (self, 0, 0) in
  let d18 := digits18_of M amplitude phases stage_hint deg in
  ({| digits := d18 ++ checksum_digits d18;
      coherence := coherence_of M phases;
      gate_flags := snd (fst st);
      loop_flags := snd st;
      entropy := entropy_of M (d18 ++ checksum_digits d18) |},
   set_initialized (fst (fst st))).
Proof.
  unfold compose_finish.
  generalize (fold_left (detect_band (avg_powers amplitude)) (seq 0 BAND_COUNT) (self, 0, 0)).
  intros [[s g] l].
  reflexivity.
Qed.

(** The result and the new state of [compose_finish], field by field. *)
Lemma compose_finish_spec (M : Libm) (self : SigprintComposer)
    (amplitude phases : BandMatrix) (stage_hint : Z) (deg : f32) r self' :
  wf_composer self ->
  compose_finish M self amplitude phases stage_hint deg = (r, self') ->
  initialized_ self' = true /\
  previous_power_ self' = avg_powers amplitude /\
  wf_composer self' /\
  (initialized_ self = false -> gate_flags r = 0 /\ loop_flags r = 0) /\
  forall band, (band < BAND_COUNT)%nat ->
    band_head self' band = u32 (band_head self band + 1) mod HISTORY_WINDOW /\
    band_fill self' band = next_fill (band_fill self band) /\
    band_history self' band
      = <[Z.to_nat (band_head self band) := avg_power_of amplitude band]>
          (band_history self band) /\
    Z.testbit (gate_flags r) (Z.of_nat band)
      = initialized_ self
        && gate_event (band_previous self band) (avg_power_of amplitude band) /\
    Z.testbit (loop_flags r) (Z.of_nat band)
      = initialized_ self && (20 <? band_fill self' band)
        && loop_event (nth (Z.to_nat (lookback_slot (band_head self band)))
                           (band_history self' band) f32_zero)
                      (avg_power_of amplitude band).
Proof.
  intros Hwf Heq. rewrite compose_finish_eq in Heq. cbv zeta in Heq.
  destruct (fold_left (detect_band (avg_powers amplitude)) (seq 0 BAND_COUNT) (self, 0, 0))
    as [[s gate] loop] eqn:E.
  cbn [fst snd] in Heq.
  apply pair_equal_spec in Heq as [Hr Hs]. subst r self'. cbn [gate_flags loop_flags].
  pose proof (detect_bands_spec self _ s gate loop Hwf (avg_powers_length amplitude) E)
    as (Hi & Hp & Hw & Hb).
  split; [reflexivity|]. split; [exact Hp|]. split; [exact Hw|].
  split; [intros Hn; eapply detect_bands_uninitialized; eauto|].
  intros band Hband. specialize (Hb band Hband).
  rewrite avg_powers_nth in Hb by exact Hband. exact Hb.
Qed.

Lemma compose_finish_digits (M : Libm) (self : SigprintComposer)
    (amplitude phases : BandMatrix) (stage_hint : Z) (deg : f32) :
  let r := fst (compose_finish M self amplitude phases stage_hint deg) in
  let d18 := digits18_of M amplitude phases stage_hint deg in
  digits r = d18 ++ checksum_digits d18 /\
  coherence r = coherence_of M phases /\
  entropy r = entropy_of M (digits r).
Proof. cbv zeta. rewrite compose_finish_eq. cbn [fst digits coherence entropy]. auto. Qed.

(** [compose] returns, with enough fuel for the two loops, and its result is
    that of [compose_finish]. *)
Lemma compose_returns (M : Libm) (fuel : nat) (self : SigprintComposer)
    (amplitude phases : BandMatrix) (stage_hint : Z) :
  atan2f_in_range M -> (23 <= fuel)%nat ->
  exists deg r self',
    compose M fuel self amplitude phases stage_hint = Some (r, self') /\
    compose_finish M self amplitude phases stage_hint deg = (r, self').
Proof.
  intros HM Hfuel.
  destruct (compose_terminates M fuel self amplitude phases stage_hint HM Hfuel) as (deg & E).
  exists deg.
  destruct (compose_finish M self amplitude phases stage_hint deg) as [r self'] eqn:Ef.
  exists r, self'. auto.
Qed.

(** C3: digits 18 and 19 of every fingerprint are the tens and the ones of
    the sum of digits 0 to 17 modulo 97; [compose] returns such a fingerprint
    whenever [atan2f] keeps to its range. *)
Theorem compose_checksum (M : Libm) (fuel : nat) (self : SigprintComposer)
    (amplitude phases : BandMatrix) (stage_hint : Z) :
  atan2f_in_range M -> (23 <= fuel)%nat ->
  exists r self',
    compose M fuel self amplitude phases stage_hint = Some (r, self') /\
    length (digits r) = 20%nat /\
    let cs := digit_sum (take 18 (digits r)) mod 97 in
    nth 18 (digits r) 0 = cs / 10 /\ nth 19 (digits r) 0 = cs mod 10.
Proof.
  intros HM Hfuel.
  destruct (compose_returns M fuel self amplitude phases stage_hint HM Hfuel)
    as (deg & r & self' & E & Ef).
  exists r, self'. split; [exact E|].
  pose proof (compose_finish_digits M self amplitude phases stage_hint deg) as Hd.
  rewrite Ef in Hd. cbv zeta in Hd. cbn [fst] in Hd. destruct Hd as (Hd & _).
  destruct (digits18_of_range M amplitude phases stage_hint deg) as [Hr Hl].
  destruct (checksum_digits_spec _ Hr Hl) as [Hc _]. cbv zeta in Hc.
  set (d18 := digits18_of M amplitude phases stage_hint deg) in *.
  rewrite Hd, Hc. cbv zeta.
  rewrite take_app_length' by exact Hl.
  split; [rewrite length_app, Hl; reflexivity|].
  rewrite !app_nth2 by lia. rewrite Hl. split; reflexivity.
Qed.


Lemma gate_event_eq p m : gate_event p m = (relative_change p m >=? f32_lit 35 100)%f32.
Proof. reflexivity. Qed.

(** C6: on a call with [initialized_] set, bit b of [gate_flags] is set
    exactly when |mean_b - previous_power_b| / max(previous_power_b, 1e-3) is at
    least 0.35; on the first call no gate bit is set; and every call leaves
    [previous_power_] at the new means. *)
Theorem compose_gate_flags (M : Libm) (fuel : nat) (self : SigprintComposer)
    (amplitude phases : BandMatrix) (stage_hint : Z) :
  atan2f_in_range M -> (23 <= fuel)%nat -> wf_composer self ->
  exists r self',
    compose M fuel self amplitude phases stage_hint = Some (r, self') /\
    (forall band, (band < BAND_COUNT)%nat ->
       Z.testbit (gate_flags r) (Z.of_nat band)
       = initialized_ self
         && (relative_change (band_previous self band) (avg_power_of amplitude band)
             >=? f32_lit 35 100)%f32) /\
    (initialized_ self = false -> gate_flags r = 0) /\
    (forall band, (band < BAND_COUNT)%nat ->
       band_previous self' band = avg_power_of amplitude band).
Proof.
  intros HM Hfuel Hwf.
  destruct (compose_returns M fuel self amplitude phases stage_hint HM Hfuel)
    as (deg & r & self' & E & Ef).
  exists r, self'. split; [exact E|].
  destruct (compose_finish_spec M self amplitude phases stage_hint deg r self' Hwf Ef)
    as (_ & Hp & _ & Hn & Hb).
  split; [|split].
  - intros band Hband. destruct (Hb band Hband) as (_ & _ & _ & Hg & _).
    rewrite Hg. apply f_equal. apply gate_event_eq.
  - intros Hi. apply Hn, Hi.
  - intros band Hband. unfold band_previous. rewrite Hp. now apply avg_powers_nth.
Qed.

(** C7, as the code has it: when a band's mean amplitude moves by at least
    35 % of max(previous mean, 1e-3) from one call to the next, the gate bit of
    the band is set on the second call. *)
Theorem compose_gate_on_step (M : Libm) (fuel : nat) (self : SigprintComposer)
    (amplitude1 phases1 : BandMatrix) (stage_hint1 : Z)
    (amplitude2 phases2 : BandMatrix) (stage_hint2 : Z) (band : nat) :
  atan2f_in_range M -> (23 <= fuel)%nat -> wf_composer self ->
  (band < BAND_COUNT)%nat ->
  gate_event (avg_power_of amplitude1 band) (avg_power_of amplitude2 band) = true ->
  exists r1 self1 r2 self2,
    compose M fuel self amplitude1 phases1 stage_hint1 = Some (r1, self1) /\
    compose M fuel self1 amplitude2 phases2 stage_hint2 = Some (r2, self2) /\
    Z.testbit (gate_flags r2) (Z.of_nat band) = true.
Proof.
  intros HM Hfuel Hwf Hband Hev.
  destruct (compose_returns M fuel self amplitude1 phases1 stage_hint1 HM Hfuel)
    as (deg1 & r1 & self1 & E1 & Ef1).
  destruct (compose_finish_spec M self amplitude1 phases1 stage_hint1 deg1 r1 self1 Hwf Ef1)
    as (Hi1 & Hp1 & Hw1 & _ & _).
  destruct (compose_returns M fuel self1 amplitude2 phases2 stage_hint2 HM Hfuel)
    as (deg2 & r2 & self2 & E2 & Ef2).
  destruct (compose_finish_spec M self1 amplitude2 phases2 stage_hint2 deg2 r2 self2 Hw1 Ef2)
    as (_ & _ & _ & _ & Hb).
  exists r1, self1, r2, self2. split; [exact E1|]. split; [exact E2|].
  destruct (Hb band Hband) as (_ & _ & _ & Hg & _). rewrite Hg, Hi1.
  unfold band_previous. rewrite Hp1, avg_powers_nth by exact Hband. cbn [andb]. exact Hev.
Qed.

(** ** Invariants of the composer *)

Lemma composer_inv_new : composer_inv SigprintComposer_new.
Proof.
  split.
  - unfold wf_composer. cbn. repeat split; try reflexivity.
    repeat constructor.
  - unfold BAND_COUNT. intros band Hband.
    do 5 (destruct band as [|band]; [cbn; unfold HISTORY_WINDOW; lia|]). lia.
Qed.

Lemma next_fill_range (fill : Z) :
  0 <= fill <= HISTORY_WINDOW ->
  0 <= next_fill fill <= HISTORY_WINDOW /\ next_fill fill = Z.min (fill + 1) HISTORY_WINDOW.
Proof.
  unfold next_fill, HISTORY_WINDOW, u16. intros H.
  destruct (Z.ltb_spec fill 64); [rewrite Z.mod_small by lia|]; lia.
Qed.

Lemma compose_finish_inv (M : Libm) (self : SigprintComposer)
    (amplitude phases : BandMatrix) (stage_hint : Z) (deg : f32) r self' :
  composer_inv self ->
  compose_finish M self amplitude phases stage_hint deg = (r, self') ->
  composer_inv self'.
Proof.
  intros [Hwf Hb] Ef.
  destruct (compose_finish_spec M self amplitude phases stage_hint deg r self' Hwf Ef)
    as (_ & _ & Hw & _ & Hs).
  split; [exact Hw|]. intros band Hband.
  destruct (Hs band Hband) as (Hh & Hf & _). destruct (Hb band Hband) as [Hh0 Hf0].
  rewrite Hh, Hf. pose proof (next_fill_range _ Hf0).
  unfold HISTORY_WINDOW, u32 in *. split; [|lia]. apply Z.mod_pos_bound. lia.
Qed.

Lemma compose_run_inv (M : Libm) (fuel : nat) calls (self : SigprintComposer) :
  atan2f_in_range M -> (23 <= fuel)%nat -> composer_inv self ->
  exists self', compose_run M fuel calls self = Some self' /\ composer_inv self' /\
                (calls <> [] -> initialized_ self' = true).
Proof.
  intros HM Hfuel. revert self. induction calls as [|[[amp ph] sh] calls IH]; intros self Hinv.
  - exists self. cbn. split; [reflexivity|]. split; [exact Hinv|]. congruence.
  - cbn [compose_run].
    destruct (compose_returns M fuel self amp ph sh HM Hfuel) as (deg & r & self1 & E & Ef).
    rewrite E. pose proof (compose_finish_inv _ _ _ _ _ _ _ _ Hinv Ef) as Hinv1.
    destruct (IH self1 Hinv1) as (self' & Er & Hi & Hn).
    exists self'. split; [exact Er|]. split; [exact Hi|]. intros _.
    destruct calls as [|c calls].
    + cbn in Er. injection Er as <-.
      destruct Hinv as [Hwf _].
      now destruct (compose_finish_spec M self amp ph sh deg r self1 Hwf Ef) as (Hini & _).
    + apply Hn. discriminate.
Qed.

(** C10: after every [compose] call of a composer that started from its
    constructor, each head is below 64, each fill count is at most 64 (it
    stops at 64 instead of wrapping), [initialized_] is set and
    [previous_power_] holds the means of the call; the slot written and the
    slot read back by the loop detection lie inside the ring. *)
Theorem compose_keeps_invariant (M : Libm) (fuel : nat)
    (calls : list (BandMatrix * BandMatrix * Z))
    (amplitude phases : BandMatrix) (stage_hint : Z) :
  atan2f_in_range M -> (23 <= fuel)%nat ->
  exists self r self',
    compose_run M fuel calls SigprintComposer_new = Some self /\
    compose M fuel self amplitude phases stage_hint = Some (r, self') /\
    initialized_ self' = true /\
    forall band, (band < BAND_COUNT)%nat ->
      0 <= band_head self' band < 64 /\
      0 <= band_fill self' band <= 64 /\
      band_fill self' band = Z.min (band_fill self band + 1) 64 /\
      band_previous self' band = avg_power_of amplitude band /\
      (Z.to_nat (band_head self band) < length (band_history self band))%nat /\
      (Z.to_nat (lookback_slot (band_head self band)) < length (band_history self' band))%nat.
Proof.
  intros HM Hfuel.
  destruct (compose_run_inv M fuel calls SigprintComposer_new HM Hfuel composer_inv_new)
    as (self & Er & Hinv & _).
  destruct (compose_returns M fuel self amplitude phases stage_hint HM Hfuel)
    as (deg & r & self' & E & Ef).
  exists self, r, self'. split; [exact Er|]. split; [exact E|].
  pose proof (compose_finish_inv _ _ _ _ _ _ _ _ Hinv Ef) as [Hwf' Hb'].
  destruct Hinv as [Hwf Hb].
  destruct (compose_finish_spec M self amplitude phases stage_hint deg r self' Hwf Ef)
    as (Hini & Hp & _ & _ & Hs).
  split; [exact Hini|]. intros band Hband.
  destruct (Hs band Hband) as (Hh & Hf & Hhist & _).
  destruct (Hb band Hband) as [Hh0 Hf0]. destruct (Hb' band Hband) as [Hh1 Hf1].
  pose proof (next_fill_range _ Hf0) as [_ Hmin].
  assert (Hlen : forall s, wf_composer s -> length (band_history s band) = 64%nat).
  { intros s (_ & Hl & Hrows & _). unfold band_history.
    destruct (nth_lookup_or_length (history_ s) band []) as [Hi | Hi]; [|lia].
    rewrite Forall_forall in Hrows. apply Hrows. apply list_elem_of_lookup. eauto. }
  unfold HISTORY_WINDOW in *.
  split; [exact Hh1|]. split; [exact Hf1|]. split; [rewrite Hf; exact Hmin|].
  split; [unfold band_previous; rewrite Hp; now apply avg_powers_nth|].
  rewrite (Hlen self Hwf), (Hlen self' Hwf').
  unfold lookback_slot, HISTORY_WINDOW, u32.
  split; [lia|].
  assert (0 <= (band_head self band + 64 - 20) mod 4294967296 mod 64 < 64)
    by (apply Z.mod_pos_bound; lia).
  lia.
Qed.

(** ** Loop detection on a constant history *)

Lemma f32_sub_diag (c : f32) : f32_finite c = true -> (c - c)%f32 = S754_zero false.
Proof.
  destruct c as [[]|[]| |s m e]; intros Hc; try discriminate Hc; try reflexivity.
  unfold f32_sub. cbn [SFsub]. rewrite Z.sub_diag. reflexivity.
Qed.

Lemma loop_event_refl (c : f32) : f32_finite c = true -> loop_event c c = true.
Proof.
  intros Hc. unfold loop_event, relative_change.
  rewrite (f32_sub_diag c Hc). cbn [fabsf SFabs].
  destruct c as [[]|[]| |s m e]; try discriminate Hc; try reflexivity.
  unfold std_max. destruct (S754_finite s m e <? f32_lit 1 1000)%f32; [reflexivity|].
  destruct s; reflexivity.
Qed.

Lemma nth_insert (l : list f32) (h k : nat) (c d : f32) :
  (h < length l)%nat ->
  nth k (<[h := c]> l) d = if decide (k = h) then c else nth k l d.
Proof.
  intros Hh. rewrite !nth_lookup. case_decide as E.
  - subst k. now rewrite list_lookup_insert_eq.
  - now rewrite list_lookup_insert_ne by congruence.
Qed.

Lemma band_history_length (self : SigprintComposer) (band : nat) :
  wf_composer self -> (band < BAND_COUNT)%nat -> length (band_history self band) = 64%nat.
Proof.
  intros (_ & Hl & Hrows & _) Hband. unfold band_history.
  destruct (nth_lookup_or_length (history_ self) band []) as [Hi | Hi]; [|lia].
  rewrite Forall_forall in Hrows. apply Hrows. apply list_elem_of_lookup. eauto.
Qed.

Lemma ring_constant_step (M : Libm) (self : SigprintComposer)
    (amplitude phases : BandMatrix) (stage_hint : Z) (deg : f32) r self'
    (band : nat) (c : f32) (j : Z) :
  composer_inv self -> (band < BAND_COUNT)%nat -> 0 <= j ->
  compose_finish M self amplitude phases stage_hint deg = (r, self') ->
  avg_power_of amplitude band = c ->
  ring_constant self band c j /\ Z.min j HISTORY_WINDOW <= band_fill self band ->
  ring_constant self' band c (j + 1) /\ Z.min (j + 1) HISTORY_WINDOW <= band_fill self' band.
Proof.
  intros [Hwf Hb] Hband Hj Ef Hc [Hring Hfill].
  destruct (compose_finish_spec M self amplitude phases stage_hint deg r self' Hwf Ef)
    as (_ & _ & _ & _ & Hs).
  destruct (Hs band Hband) as (Hh & Hf & Hhist & _).
  destruct (Hb band Hband) as [Hh0 Hf0].
  pose proof (band_history_length self band Hwf Hband) as Hlen.
  split.
  - intros i Hi. rewrite Hhist, Hh, Hc. unfold ring_constant in Hring. unfold HISTORY_WINDOW, u32 in *.
    rewrite nth_insert by lia. case_decide as E; [reflexivity|].
    assert (i <> 1).
    { intros ->. apply E. f_equal. Z.div_mod_to_equations. lia. }
    specialize (Hring (i - 1) ltac:(lia)).
    rewrite <- Hring. f_equal. f_equal. Z.div_mod_to_equations. lia.
  - rewrite Hf. pose proof (next_fill_range _ Hf0) as [_ ->]. unfold HISTORY_WINDOW in *. lia.
Qed.

Lemma compose_run_constant (M : Libm) (fuel : nat) (c : list f32) calls
    (self : SigprintComposer) (j : Z) :
  atan2f_in_range M -> (23 <= fuel)%nat -> constant_means c calls ->
  composer_inv self -> 0 <= j ->
  (forall band, (band < BAND_COUNT)%nat ->
     ring_constant self band (nth band c f32_zero) j /\
     Z.min j HISTORY_WINDOW <= band_fill self band) ->
  exists self',
    compose_run M fuel calls self = Some self' /\ composer_inv self' /\
    (calls <> [] -> initialized_ self' = true) /\
    forall band, (band < BAND_COUNT)%nat ->
      ring_constant self' band (nth band c f32_zero) (j + Z.of_nat (length calls)) /\
      Z.min (j + Z.of_nat (length calls)) HISTORY_WINDOW <= band_fill self' band.
Proof.
  intros HM Hfuel Hc. revert self j.
  induction Hc as [|[[amp ph] sh] calls Hamp Hc IH]; intros self j Hinv Hj Hring.
  - exists self. cbn [compose_run length Z.of_nat]. rewrite Z.add_0_r.
    split; [reflexivity|]. split; [exact Hinv|]. split; [congruence|exact Hring].
  - cbn [compose_run]. cbn [fst] in Hamp.
    destruct (compose_returns M fuel self amp ph sh HM Hfuel) as (deg & r & self1 & E & Ef).
    rewrite E. pose proof (compose_finish_inv _ _ _ _ _ _ _ _ Hinv Ef) as Hinv1.
    assert (Hring1 : forall band, (band < BAND_COUNT)%nat ->
              ring_constant self1 band (nth band c f32_zero) (j + 1) /\
              Z.min (j + 1) HISTORY_WINDOW <= band_fill self1 band).
    { intros band Hband.
      apply (ring_constant_step M self amp ph sh deg r self1 band _ j Hinv Hband Hj Ef).
      - rewrite <- Hamp. symmetry. now apply avg_powers_nth.
      - now apply Hring. }
    destruct (IH self1 (j + 1) Hinv1 ltac:(lia) Hring1) as (self' & Er & Hi & Hn & Hr).
    exists self'. split; [exact Er|]. split; [exact Hi|]. split.
    + intros _. destruct calls as [|call calls].
      * cbn in Er. injection Er as <-. destruct Hinv as [Hwf _].
        now destruct (compose_finish_spec M self amp ph sh deg r self1 Hwf Ef) as (Hini & _).
      * apply Hn. discriminate.
    + intros band Hband. cbn [length].
      replace (j + Z.of_nat (S (length calls))) with (j + 1 + Z.of_nat (length calls)) by lia.
      now apply Hr.
Qed.


(** ** The lock-in filter *)

Lemma f32_lt_le (a b : f32) : (a <? b)%f32 = true -> (a <=? b)%f32 = true.
Proof.
  unfold f32_lt, f32_le, SFltb, SFleb. destruct (SFcompare a b) as [[]|]; congruence.
Qed.

Lemma clampValue_f32_range (x lo hi : f32) :
  (lo <=? lo)%f32 = true -> (hi <=? hi)%f32 = true -> (lo <=? hi)%f32 = true ->
  (lo <=? clampValue f32_lt x lo hi)%f32 = true /\
  (clampValue f32_lt x lo hi <=? hi)%f32 = true.
Proof.
  intros Hlo Hhi Hle. unfold clampValue, std_max, std_min.
  destruct (x <? hi)%f32 eqn:E1.
  - destruct (lo <? x)%f32 eqn:E2; auto using f32_lt_le.
  - destruct (lo <? hi)%f32 eqn:E2; auto.
Qed.

Lemma reset_alpha_range (M : Libm) (band : nat) :
  (f32_zero <=? reset_alpha M band)%f32 = true /\
  (reset_alpha M band <=? f32_lit 9995 10000)%f32 = true.
Proof. unfold reset_alpha. apply clampValue_f32_range; reflexivity. Qed.

Lemma lockin_run_snoc (M : Libm) (samples : list f32) (x : f32) :
  lockin_run M (samples ++ [x]) = process M (lockin_run M samples) x.
Proof. unfold lockin_run. now rewrite fold_left_app. Qed.

Lemma process_band_static (M : Libm) (idx : Z) (x : f32) (st : BandState.t) :
  BandState.ref_sin (process_band M idx x st) = BandState.ref_sin st /\
  BandState.ref_cos (process_band M idx x st) = BandState.ref_cos st /\
  BandState.filter_alpha (process_band M idx x st) = BandState.filter_alpha st.
Proof. repeat split. Qed.

Lemma lockin_run_inv (M : Libm) (samples : list f32) :
  index_ (lockin_run M samples) = Z.of_nat (length samples) mod WINDOW /\
  forall band, (band < BAND_COUNT)%nat ->
    exists st, bands_ (lockin_run M samples) !! band = Some st /\
      BandState.ref_sin st = ref_table (sinf M) (center_hz (kBand band)) /\
      BandState.ref_cos st = ref_table (cosf M) (center_hz (kBand band)) /\
      BandState.filter_alpha st = reset_alpha M band.
Proof.
  induction samples as [|x samples IH] using rev_ind.
  - split; [reflexivity|]. intros band Hband. exists (reset_band M band). split.
    + unfold lockin_run. cbn [fold_left reset bands_].
      rewrite list_lookup_fmap, lookup_seq_lt by exact Hband. reflexivity.
    + repeat split.
  - destruct IH as [Hidx Hb]. rewrite lockin_run_snoc. split.
    + cbn [process index_]. rewrite Hidx, length_app. cbn [length].
      unfold u32, WINDOW, SAMPLE_RATE_HZ. Z.div_mod_to_equations. lia.
    + intros band Hband. destruct (Hb band Hband) as (st & E & Hs & Hc & Ha).
      exists (process_band M (index_ (lockin_run M samples)) x st). split.
      * cbn [process bands_]. rewrite list_lookup_fmap, E. reflexivity.
      * cbn [process_band BandState.ref_sin BandState.ref_cos BandState.filter_alpha]. auto.
Qed.

Lemma ref_table_nth (fn : f32 -> f32) (freq : f32) (idx : Z) :
  0 <= idx < WINDOW ->
  nth (Z.to_nat idx) (ref_table fn freq) f32_zero
  = fn (TWO_PI_F * freq * (f32_of_Z idx / f32_of_Z SAMPLE_RATE_HZ))%f32.
Proof.
  intros H. rewrite nth_lookup. unfold ref_table.
  rewrite list_lookup_fmap, lookup_seq_lt by (unfold WINDOW in *; lia).
  cbn [fmap option_fmap option_map default Nat.add]. rewrite Z2Nat.id by lia. reflexivity.
Qed.

(** C9: in a processor that has been reset and then fed any samples, one more
    [process] call updates band [band] by the one-pole formulas on the
    reference entries of the cursor, recomputes amplitude and phase from the
    new I and Q, and advances the cursor modulo 250; the filter coefficient
    is the clamped exponential set by [reset] and lies in [0, 0.9995]. *)
Theorem process_update (M : Libm) (samples : list f32) (sample_uv : f32) (band : nat) :
  (band < BAND_COUNT)%nat ->
  let self := lockin_run M samples in
  let self' := process M self sample_uv in
  let idx := index_ self in
  let alpha := reset_alpha M band in
  let angle := (TWO_PI_F * center_hz (kBand band)
                * (f32_of_Z idx / f32_of_Z SAMPLE_RATE_HZ))%f32 in
  exists st st',
    bands_ self !! band = Some st /\ bands_ self' !! band = Some st' /\
    idx = Z.of_nat (length samples) mod 250 /\
    index_ self' = (idx + 1) mod 250 /\
    alpha = clampValue f32_lt
              (expf M (f32_of_Z (-2) * PI_F
                       * std_max f32_lt (f32_lit 1 10) (bandwidth_hz (kBand band))
                       / f32_of_Z SAMPLE_RATE_HZ)%f32)
              f32_zero (f32_lit 9995 10000) /\
    (f32_zero <=? alpha)%f32 = true /\ (alpha <=? f32_lit 9995 10000)%f32 = true /\
    BandState.filter_alpha st = alpha /\ BandState.filter_alpha st' = alpha /\
    BandState.i st'
      = (alpha * BandState.i st + (f32_one - alpha) * (sample_uv * cosf M angle))%f32 /\
    BandState.q st'
      = (alpha * BandState.q st + (f32_one - alpha) * (sample_uv * sinf M angle))%f32 /\
    BandState.amplitude st'
      = (f32_of_Z 2 * sqrtf (BandState.i st' * BandState.i st'
                             + BandState.q st' * BandState.q st'))%f32 /\
    BandState.phase st' = atan2f M (BandState.q st') (BandState.i st').
Proof.
  intros Hband self self' idx alpha angle.
  destruct (lockin_run_inv M samples) as [Hidx Hb].
  destruct (Hb band Hband) as (st & E & Hs & Hc & Ha).
  assert (Hrange : 0 <= idx < WINDOW).
  { subst idx self. rewrite Hidx. apply Z.mod_pos_bound. reflexivity. }
  exists st, (process_band M idx sample_uv st).
  split; [exact E|].
  split; [subst self' idx; cbn [process bands_]; rewrite list_lookup_fmap; subst self; rewrite E; reflexivity|].
  split; [exact Hidx|].
  split.
  { subst self'. cbn [process index_]. fold self idx. unfold u32, WINDOW, SAMPLE_RATE_HZ in *.
    rewrite (Z.mod_small (idx + 1)) by lia. reflexivity. }
  split; [reflexivity|].
  destruct (reset_alpha_range M band) as [H0 H1].
  split; [exact H0|]. split; [exact H1|].
  split; [exact Ha|]. split; [exact Ha|].
  cbn [process_band BandState.i BandState.q BandState.amplitude BandState.phase].
  rewrite Hs, Hc, !ref_table_nth, Ha by exact Hrange.
  repeat split.
Qed.

(** ** The reference math library *)

Lemma RefLibm_in_range (v : f32) :
  RefLibm.in_range v = true ->
  is_f32 v /\ f32_finite v = true /\ (fabsf v <=? PI_F)%f32 = true.
Proof.
  unfold RefLibm.in_range. intros H.
  apply andb_true_iff in H as [H H3]. apply andb_true_iff in H as [H1 H2].
  repeat split; assumption.
Qed.

Lemma RefLibm_atan2f_in_range : atan2f_in_range RefLibm.libm.
Proof.
  assert (Hc : forall v, RefLibm.in_range v = true ->
             v = S754_nan \/ (is_f32 v /\ f32_finite v = true /\ (fabsf v <=? PI_F)%f32 = true)).
  { intros v Hv. right. now apply RefLibm_in_range. }
  intros y x. cbn [atan2f RefLibm.libm].
  destruct y as [sy|sy| |sy my ey], x as [sx|sx| |sx mx ex];
    try (left; reflexivity).
  9: { unfold RefLibm.atan2f.
        set (v := RefLibm.signed sy _).
        destruct (RefLibm.in_range v) eqn:E; [now apply Hc | left; reflexivity]. }
  all: destruct sy, sx; apply Hc; vm_compute; reflexivity.
Qed.

(** ** Silence *)

(** The filter coefficient is [+0] or a positive number. *)
Lemma reset_alpha_shape (M : Libm) (band : nat) :
  reset_alpha M band = S754_zero false \/
  exists m e, reset_alpha M band = S754_finite false m e.
Proof.
  unfold reset_alpha, clampValue, std_max, std_min.
  set (x := expf M _). clearbody x.
  destruct (x <? f32_lit 9995 10000)%f32 eqn:E1.
  - destruct (f32_zero <? x)%f32 eqn:E2; [|left; reflexivity].
    destruct x as [[]|[]| |[] m e]; try discriminate E2; try discriminate E1.
    right; eauto.
  - destruct (f32_zero <? f32_lit 9995 10000)%f32; [right; vm_compute; eauto | left; reflexivity].
Qed.

Lemma f32_fin_finite (x : f32) : f32_fin x -> f32_finite x = true.
Proof. destruct x; cbn; intros H; (reflexivity || contradiction). Qed.

Lemma reset_alpha_is_f32 (M : Libm) (band : nat) :
  (forall x, is_f32 (expf M x)) -> is_f32 (reset_alpha M band).
Proof.
  intros H. unfold reset_alpha, clampValue, std_max, std_min.
  set (x := expf M _). specialize (H _ : is_f32 x). clearbody x.
  destruct (x <? f32_lit 9995 10000)%f32.
  - destruct (f32_zero <? x)%f32; [exact H|reflexivity].
  - destruct (f32_zero <? f32_lit 9995 10000)%f32; reflexivity.
Qed.

(** [1.0f - filter_alpha] is a finite number. *)
Lemma reset_beta_finite (M : Libm) (band : nat) :
  (forall x, is_f32 (expf M x)) ->
  f32_finite (f32_one - reset_alpha M band)%f32 = true.
Proof.
  intros H. pose proof (reset_alpha_is_f32 M band H) as Hv.
  destruct (reset_alpha_range M band) as [_ Hle].
  destruct (reset_alpha_shape M band) as [E | (m & e & E)]; rewrite E in *; [reflexivity|].
  assert (Ehi : f32_lit 9995 10000 = S754_finite false 16768827 (-24))
    by (vm_compute; reflexivity).
  rewrite Ehi in Hle.
  pose proof (is_f32_fin _ Hv eq_refl) as Hfin.
  apply bounded_range in Hv.
  apply f32_le_val in Hle; try lia.
  assert (E1 : f32_val f32_one = 2 ^ 149) by (vm_compute; reflexivity).
  assert (Ec : Z.pos 16768827 * 2 ^ (-24 + 149) < 2 ^ 149) by (vm_compute; reflexivity).
  assert (H1 : f32_fin f32_one) by (vm_compute; split; discriminate).
  apply f32_fin_finite.
  apply (f32_sub_val f32_one (S754_finite false m e) 0 H1 Hfin); [|lia].
  rewrite E1. cbn [f32_val cond_Zopp].
  pose proof (pow2_pos (e + 149) ltac:(cbn in Hfin; lia)).
  change (2 ^ (0 + 149)) with (2 ^ 149). lia.
Qed.

(** One filter step on a zero sample leaves a [+0] accumulator at [+0]. *)
Lemma zero_update (alpha beta ref : f32) :
  (alpha = S754_zero false \/ exists m e, alpha = S754_finite false m e) ->
  f32_finite beta = true -> f32_finite ref = true ->
  (alpha * f32_zero + beta * (f32_zero * ref))%f32 = f32_zero.
Proof.
  intros [-> | (m & e & ->)] Hb Hr;
    destruct beta as [[]|[]| |[] mb eb]; try discriminate Hb;
    destruct ref as [[]|[]| |[] mr er]; try discriminate Hr; reflexivity.
Qed.

Lemma ref_angle_finite (band : nat) (idx : Z) :
  (band < BAND_COUNT)%nat -> 0 <= idx < WINDOW ->
  f32_finite (TWO_PI_F * center_hz (kBand band)
              * (f32_of_Z idx / f32_of_Z SAMPLE_RATE_HZ))%f32 = true.
Proof.
  intros Hband Hidx.
  assert (H : forallb (fun band =>
                forallb (fun i => f32_finite
                           (TWO_PI_F * center_hz (kBand band)
                            * (f32_of_Z (Z.of_nat i) / f32_of_Z SAMPLE_RATE_HZ))%f32)
                        (seq 0 (Z.to_nat WINDOW)))
              (seq 0 BAND_COUNT) = true) by (vm_compute; reflexivity).
  rewrite forallb_forall in H. specialize (H band).
  rewrite forallb_forall in H. specialize (H ltac:(apply in_seq; lia) (Z.to_nat idx)).
  rewrite Z2Nat.id in H by lia. apply H. apply in_seq. unfold WINDOW in *. lia.
Qed.

Lemma silent_bank_bands (M : Libm) (n band : nat) :
  libm_at_zero M -> libm_finite M -> (band < BAND_COUNT)%nat ->
  exists st, bands_ (silent_bank M n) !! band = Some st /\
    BandState.i st = f32_zero /\ BandState.q st = f32_zero /\
    BandState.amplitude st = f32_zero /\ BandState.phase st = f32_zero.
Proof.
  intros (Hs0 & Hc0 & Ha0) (Hfin & Hexp) Hband. unfold silent_bank.
  induction n as [|n IH].
  - exists (reset_band M band). split; [|repeat split].
    unfold lockin_run. cbn [replicate fold_left reset bands_].
    rewrite list_lookup_fmap, lookup_seq_lt by exact Hband. reflexivity.
  - destruct IH as (st & E & Hi & Hq & _).
    destruct (lockin_run_inv M (replicate n f32_zero)) as [Hidx Hb].
    destruct (Hb band Hband) as (st0 & E0 & Hsin & Hcos & Halpha).
    rewrite E in E0. injection E0 as <-.
    assert (Hrange : 0 <= index_ (lockin_run M (replicate n f32_zero)) < WINDOW).
    { rewrite Hidx. apply Z.mod_pos_bound. reflexivity. }
    set (idx := index_ (lockin_run M (replicate n f32_zero))) in *.
    rewrite replicate_S_end, lockin_run_snoc.
    exists (process_band M idx f32_zero st). split.
    { cbn [process bands_]. rewrite list_lookup_fmap, E. reflexivity. }
    pose proof (ref_angle_finite band idx Hband Hrange) as Hang.
    destruct (Hfin _ Hang) as [Hfs Hfc].
    assert (Ei : BandState.i (process_band M idx f32_zero st) = f32_zero).
    { cbn [process_band BandState.i]. rewrite Hi, Hcos, Halpha, ref_table_nth by exact Hrange.
      apply zero_update; [apply reset_alpha_shape | now apply reset_beta_finite | exact Hfc]. }
    assert (Eq : BandState.q (process_band M idx f32_zero st) = f32_zero).
    { cbn [process_band BandState.q]. rewrite Hq, Hsin, Halpha, ref_table_nth by exact Hrange.
      apply zero_update; [apply reset_alpha_shape | now apply reset_beta_finite | exact Hfs]. }
    split; [exact Ei|]. split; [exact Eq|].
    cbn [process_band BandState.i BandState.q BandState.amplitude BandState.phase] in *.
    rewrite Ei, Eq. split; [reflexivity|exact Ha0].
Qed.

Lemma lockin_run_bands_length (M : Libm) (samples : list f32) :
  length (bands_ (lockin_run M samples)) = BAND_COUNT.
Proof.
  induction samples as [|x samples IH] using rev_ind; [reflexivity|].
  rewrite lockin_run_snoc. cbn [process bands_]. now rewrite length_map.
Qed.

Lemma silent_bank_snapshot (M : Libm) (n : nat) :
  libm_at_zero M -> libm_finite M ->
  snapshot (silent_bank M n)
  = (replicate BAND_COUNT f32_zero, replicate BAND_COUNT f32_zero).
Proof.
  intros H0 Hf. unfold snapshot.
  pose proof (lockin_run_bands_length M (replicate n f32_zero)) as Hlen.
  fold (silent_bank M n) in Hlen.
  assert (E : forall (f : BandState.t -> f32),
            (forall band st, bands_ (silent_bank M n) !! band = Some st -> f st = f32_zero) ->
            map f (bands_ (silent_bank M n)) = replicate BAND_COUNT f32_zero).
  { intros f Hfz. apply list_eq. intros k. rewrite list_lookup_fmap.
    destruct (bands_ (silent_bank M n) !! k) as [st|] eqn:Ek.
    - cbn [fmap option_fmap option_map]. rewrite (Hfz _ _ Ek). symmetry.
      apply lookup_replicate_2. apply lookup_lt_Some in Ek. lia.
    - cbn [fmap option_fmap option_map]. symmetry.
      apply lookup_replicate_None. apply lookup_ge_None in Ek. lia. }
  assert (Hst : forall band st, bands_ (silent_bank M n) !! band = Some st ->
            BandState.amplitude st = f32_zero /\ BandState.phase st = f32_zero).
  { intros band st Eb. pose proof (lookup_lt_Some _ _ _ Eb) as Hband. rewrite Hlen in Hband.
    destruct (silent_bank_bands M n band H0 Hf Hband) as (st' & E' & _ & _ & Ha & Hp).
    rewrite Eb in E'. injection E' as <-. auto. }
  f_equal; apply E; intros band st Eb; now apply Hst in Eb.
Qed.

Lemma silent_snapshot_eq (M : Libm) (n : nat) :
  libm_at_zero M -> libm_finite M ->
  silent_snapshot M n
  = (replicate CHANNEL_COUNT (replicate BAND_COUNT f32_zero),
     replicate CHANNEL_COUNT (replicate BAND_COUNT f32_zero)).
Proof.
  intros H0 Hf. unfold silent_snapshot, snapshot_all.
  change (@map) with (@fmap list _). rewrite !fmap_replicate, silent_bank_snapshot by assumption. reflexivity.
Qed.

Lemma coherence_of_equal_phases (M : Libm) :
  libm_at_zero M ->
  coherence_of M (replicate CHANNEL_COUNT (replicate BAND_COUNT f32_zero)) = f32_one.
Proof.
  intros (Hs0 & Hc0 & _).
  unfold coherence_of, band_coherence_of, accumulate.
  cbn [seq fold_left CHANNEL_COUNT BAND_COUNT replicate mat_get nth].
  rewrite Hs0, Hc0. vm_compute. reflexivity.
Qed.

Lemma coherence_digits_one (M : Libm) : coherence_digits M f32_one = [9; 9; 9; 9].
Proof. vm_compute. reflexivity. Qed.

(** The first [compose] call on the snapshot of [n] silent frames. *)
Lemma silent_compose (M : Libm) (fuel n : nat) (stage_hint : Z) :
  libm_at_zero M -> libm_finite M -> atan2f_in_range M -> (23 <= fuel)%nat ->
  let amplitude := fst (silent_snapshot M n) in
  let phases := snd (silent_snapshot M n) in
  (forall ch band, mat_get amplitude ch band = f32_zero) /\
  exists r self',
    compose M fuel SigprintComposer_new amplitude phases stage_hint = Some (r, self') /\
    gate_flags r = 0 /\ coherence r = f32_one /\
    slice 8 4 (digits r) = [9; 9; 9; 9].
Proof.
  intros H0 Hf HM Hfuel amplitude phases. subst amplitude phases.
  rewrite silent_snapshot_eq by assumption. cbn [fst snd].
  split.
  { intros ch band. unfold mat_get.
    do 8 (destruct ch as [|ch]; [do 5 (destruct band as [|band]; [reflexivity|]);
                                 now destruct band|]).
    now destruct ch, band. }
  set (z := replicate CHANNEL_COUNT (replicate BAND_COUNT f32_zero)).
  destruct (compose_returns M fuel SigprintComposer_new z z stage_hint HM Hfuel)
    as (deg & r & self' & E & Ef).
  exists r, self'. split; [exact E|].
  destruct composer_inv_new as [Hwf _].
  destruct (compose_finish_spec M _ z z stage_hint deg r self' Hwf Ef)
    as (_ & _ & _ & Hg & _).
  split; [now apply Hg|].
  destruct (compose_finish_digits M SigprintComposer_new z z stage_hint deg) as (Hd & Hc & _).
  rewrite Ef in Hd, Hc. cbn [fst] in Hd, Hc.
  pose proof (coherence_of_equal_phases M H0) as Hco. fold z in Hco.
  split; [now rewrite Hc|].
  rewrite Hd. unfold digits18_of.
  destruct (regional_pct M z) as [frontal occipital].
  unfold two_digits. rewrite Hco, coherence_digits_one.
  reflexivity.
Qed.

(** C1, amended: from reset processors and a fresh composer, any number of
    all-zero frames (500 among them) leaves every amplitude at [+0], below
    1e-6, and the first [compose] call returns with no gate bit set; all
    phases are then equal, so the coherence is exactly 1 and digits 8 to 11
    are 9, 9, 9, 9. *)
Theorem silence_fingerprint (M : Libm) (fuel n : nat) (stage_hint : Z) :
  libm_at_zero M -> libm_finite M -> atan2f_in_range M -> (23 <= fuel)%nat ->
  let amplitude := fst (silent_snapshot M n) in
  let phases := snd (silent_snapshot M n) in
  (forall ch band,
     mat_get amplitude ch band = f32_zero /\
     (mat_get amplitude ch band <? f32_lit 1 1000000)%f32 = true) /\
  exists r self',
    compose M fuel SigprintComposer_new amplitude phases stage_hint = Some (r, self') /\
    gate_flags r = 0 /\ coherence r = f32_one /\
    slice 8 4 (digits r) = [9; 9; 9; 9].
Proof.
  intros H0 Hf HM Hfuel.
  destruct (silent_compose M fuel n stage_hint H0 Hf HM Hfuel) as [Hamp Hr].
  split; [|exact Hr].
  intros ch band. rewrite Hamp. split; reflexivity.
Qed.

(** ** The reference math library: finite results *)

Lemma div_abs_le (a d : Z) : 1 <= d -> Z.abs (a / d) <= Z.abs a.
Proof. intros Hd. Z.div_mod_to_equations. nia. Qed.

Lemma fmul_bound (t r2 C : Z) :
  0 <= r2 <= C * RefLibm.FIX -> Z.abs (RefLibm.fmul t r2) <= C * Z.abs t.
Proof.
  unfold RefLibm.fmul, RefLibm.FIX. intros H.
  assert (HF : 0 < 2 ^ 64) by reflexivity.
  generalize dependent (2 ^ 64). intros F H HF.
  assert (- (C * Z.abs t) <= t * r2 / F <= C * Z.abs t); [|lia].
  split.
  - apply Z.div_le_lower_bound; nia.
  - apply Z.div_le_upper_bound; nia.
Qed.

Lemma series_bound (next : Z -> Z -> Z) (C : Z) :
  0 <= C -> (forall k t, 1 <= k -> Z.abs (next k t) <= C * Z.abs t) ->
  forall n k t acc, 1 <= k ->
    Z.abs (RefLibm.series n next k t acc) <= Z.abs acc + ((C + 1) ^ Z.of_nat n - 1) * Z.abs t.
Proof.
  intros HC Hnext. induction n as [|n IH]; intros k t acc Hk.
  - cbn. lia.
  - cbn [RefLibm.series]. cbv zeta.
    specialize (IH (k + 1) (next k t) (acc + next k t) ltac:(lia)).
    specialize (Hnext k t Hk).
    rewrite Nat2Z.inj_succ, Z.pow_succ_r by lia.
    assert (HX : 1 <= (C + 1) ^ Z.of_nat n).
    { pose proof (Z.pow_pos_nonneg (C + 1) (Z.of_nat n)). lia. }
    nia.
Qed.

Lemma of_fix_finite (z : Z) : Z.abs z < 2 ^ 191 -> f32_finite (RefLibm.of_fix z) = true.
Proof.
  intros Hz. apply f32_fin_finite. unfold RefLibm.of_fix.
  apply (binary_normalize_val z (-64) 127); [lia| |lia].
  change (2 ^ (-64 + 149)) with (2 ^ 85). change (2 ^ (127 + 149)) with (2 ^ 191 * 2 ^ 85).
  apply Z.mul_lt_mono_pos_r; [reflexivity|exact Hz].
Qed.

Lemma reduce_range (z : Z) : Z.abs (RefLibm.reduce z) <= RefLibm.PI_FIX.
Proof.
  unfold RefLibm.reduce, RefLibm.PI_FIX.
  pose proof (Z.mod_pos_bound (z + 57952155664616982739) (2 * 57952155664616982739) eq_refl).
  lia.
Qed.

Lemma square_fix_range (r : Z) :
  Z.abs r <= RefLibm.PI_FIX -> 0 <= RefLibm.fmul r r <= 16 * RefLibm.FIX.
Proof.
  unfold RefLibm.fmul, RefLibm.PI_FIX, RefLibm.FIX. intros H.
  assert (HF : 57952155664616982739 < 4 * 2 ^ 64) by reflexivity.
  assert (HP : 0 < 2 ^ 64) by reflexivity.
  generalize dependent (2 ^ 64). intros F HF HP. split.
  - apply Z.div_pos; nia.
  - apply Z.div_le_upper_bound; nia.
Qed.

Lemma sin_fix_bound (r : Z) :
  Z.abs r <= RefLibm.PI_FIX -> Z.abs (RefLibm.sin_fix r) < 2 ^ 191.
Proof.
  intros Hr. unfold RefLibm.sin_fix. cbv zeta.
  pose proof (square_fix_range r Hr) as H2.
  eapply Z.le_lt_trans.
  - apply (series_bound _ 16); [lia| |lia].
    intros k t Hk. etransitivity; [apply div_abs_le; nia|].
    rewrite Z.abs_opp. now apply fmul_bound.
  - unfold RefLibm.PI_FIX in Hr.
    assert (E : (16 + 1) ^ Z.of_nat 16 - 1 = 48661191875666868480) by reflexivity.
    rewrite E. lia.
Qed.

Lemma cos_fix_bound (r : Z) :
  Z.abs r <= RefLibm.PI_FIX -> Z.abs (RefLibm.cos_fix r) < 2 ^ 191.
Proof.
  intros Hr. unfold RefLibm.cos_fix. cbv zeta.
  pose proof (square_fix_range r Hr) as H2.
  eapply Z.le_lt_trans.
  - apply (series_bound _ 16); [lia| |lia].
    intros k t Hk. etransitivity; [apply div_abs_le; nia|].
    rewrite Z.abs_opp. now apply fmul_bound.
  - assert (E : (16 + 1) ^ Z.of_nat 16 - 1 = 48661191875666868480) by reflexivity.
    rewrite E. unfold RefLibm.FIX. lia.
Qed.

Lemma RefLibm_at_zero : libm_at_zero RefLibm.libm.
Proof. repeat split. Qed.

Lemma RefLibm_finite : libm_finite RefLibm.libm.
Proof.
  split.
  - intros x Hx. cbn [sinf cosf RefLibm.libm].
    destruct x as [s|s| |s m e]; try discriminate Hx; [split; reflexivity|].
    unfold RefLibm.sinf, RefLibm.cosf. split.
    + destruct (RefLibm.tiny m e); [reflexivity|].
      apply of_fix_finite, sin_fix_bound, reduce_range.
    + apply of_fix_finite, cos_fix_bound, reduce_range.
  - intros x. cbn [expf RefLibm.libm]. unfold RefLibm.expf, is_f32.
    destruct x as [s|[]| |s m e]; try reflexivity.
    destruct (_ <? _); [reflexivity|]. destruct (_ <? _); [reflexivity|].
    cbv zeta. unfold RefLibm.checked.
    match goal with |- context [if valid_binary prec emax ?v then _ else _] =>
      destruct (valid_binary prec emax v) eqn:E end; [exact E|reflexivity].
Qed.

(** ** Signs of results *)

Lemma sgn_in_nonneg (x : f32) : sgn_in false x <-> (f32_zero <=? x)%f32 = true.
Proof. destruct x as [[]|[]| |[] m e]; cbn; intuition congruence. Qed.

Lemma sgn_in_nonpos (x : f32) : sgn_in true x <-> (x <=? f32_zero)%f32 = true.
Proof. destruct x as [[]|[]| |[] m e]; cbn; intuition congruence. Qed.

Lemma binary_round_aux_sgn (s : bool) (M e : Z) (l : location) :
  0 <= M -> sgn_in s (binary_round_aux prec emax s M e l).
Proof.
  intros HM. destruct (binary_round_aux_spec s M e l HM) as (m1 & k2 & H).
  cbv zeta in H. destruct H as (Hm & Hk & ->).
  assert (0 <= M / 2 ^ (Z.max e (fexp prec emax (Zdigits2 M + e)) - e)).
  { apply Z.div_pos; [lia|]. apply Z.pow_pos_nonneg; lia. }
  assert (Hq : 0 <= m1 / 2 ^ k2) by (apply Z.div_pos; [lia|apply Z.pow_pos_nonneg; lia]).
  destruct (m1 / 2 ^ k2); [exact I| |lia].
  destruct (_ <=? _); reflexivity.
Qed.

Lemma SFmul_sgn (pm : positive) (pe : Z) (q : f32) :
  sgn_in true q -> sgn_in true (S754_finite false pm pe * q)%f32.
Proof.
  destruct q as [s|s| |s m e]; cbn [sgn_in]; try contradiction; intros Hs.
  - exact I.
  - subst s. reflexivity.
  - subst s. unfold f32_mul. cbn [SFmul xorb]. apply binary_round_aux_sgn. lia.
Qed.

Lemma SFdiv_sgn (l : f32) (m2 : positive) (e2 : Z) :
  sgn_in true l -> sgn_in true (l / S754_finite false m2 e2)%f32.
Proof.
  destruct l as [s|s| |s m e]; cbn [sgn_in]; try contradiction; intros Hs.
  - exact I.
  - subst s. reflexivity.
  - subst s. unfold f32_div. cbn [SFdiv xorb]. unfold SFdiv_core_binary.
    set (m' := match _ with Z0 => Z.pos m | Zpos _ => _ | Zneg _ => 0 end).
    assert (Hm' : 0 <= m').
    { subst m'. destruct (_ - _ - _); [lia| |lia]. apply Z.shiftl_nonneg. lia. }
    destruct (Z.div_eucl m' (Z.pos m2)) as [q r] eqn:E.
    apply binary_round_aux_sgn.
    change q with (fst (q, r)). rewrite <- E. apply Z.div_pos; lia.
Qed.

Lemma SFsub_sgn (x t : f32) :
  sgn_in false x -> sgn_in true t -> sgn_in false (x - t)%f32.
Proof.
  destruct x as [sx|sx| |sx mx ex]; cbn [sgn_in]; try contradiction; intros Hx;
    destruct t as [st|st| |st mt et]; cbn [sgn_in]; try contradiction; intros Ht;
    subst; try (destruct sx); try (destruct st); try exact I; try reflexivity.
  unfold f32_sub. cbn [SFsub cond_Zopp].
  match goal with |- sgn_in false (binary_normalize _ _ ?v ?e _) =>
    assert (Hv : 0 < v) by lia; destruct v as [|p|p]; try lia end.
  cbn [binary_normalize]. unfold binary_round.
  destruct (shl_align p _ _) as [mz ez].
  apply binary_round_aux_sgn. lia.
Qed.

(** One term of the entropy sum keeps the sum from going negative. *)
Lemma entropy_step_sgn (entropy p l l2 : f32) :
  sgn_in false entropy ->
  (exists pm pe, p = S754_finite false pm pe) ->
  (l <=? f32_zero)%f32 = true ->
  (f32_zero <? l2)%f32 = true -> f32_finite l2 = true ->
  sgn_in false (entropy - p * (l / l2))%f32.
Proof.
  intros He (pm & pe & ->) Hl Hl2 Hf.
  apply sgn_in_nonpos in Hl.
  destruct l2 as [[]|[]| |[] m2 e2]; try discriminate Hl2; try discriminate Hf.
  apply SFsub_sgn; [exact He|]. apply SFmul_sgn. now apply SFdiv_sgn.
Qed.

Lemma digit_counts_fold_range (ds : list Z) (counts : list Z) (n : Z) :
  Forall (fun c => 0 <= c <= n) counts -> 0 <= n ->
  n + Z.of_nat (length ds) < 65536 ->
  Forall (fun c => 0 <= c <= n + Z.of_nat (length ds))
    (fold_left (fun counts digit =>
                  <[Z.to_nat digit := u16 (nth (Z.to_nat digit) counts 0 + 1)]> counts)
               ds counts).
Proof.
  revert counts n. induction ds as [|d ds IH]; intros counts n Hc Hn Hlen.
  - cbn. rewrite Z.add_0_r. exact Hc.
  - cbn [fold_left length] in *.
    replace (n + Z.of_nat (S (length ds))) with (n + 1 + Z.of_nat (length ds)) by lia.
    apply IH; [|lia|lia].
    assert (Hnth : 0 <= nth (Z.to_nat d) counts 0 <= n).
    { destruct (nth_lookup_or_length counts (Z.to_nat d) 0) as [Hi | Hi].
      - rewrite Forall_forall in Hc. apply Hc. apply list_elem_of_lookup. eauto.
      - rewrite nth_overflow by lia. lia. }
    apply Forall_insert.
    + eapply Forall_impl; [exact Hc|]. cbn. intros; lia.
    + unfold u16. rewrite Z.mod_small by lia. lia.
Qed.

Lemma digit_counts_range (ds : list Z) :
  length ds = 20%nat -> Forall (fun c => 0 <= c <= 20) (digit_counts ds).
Proof.
  intros Hlen. unfold digit_counts.
  pose proof (digit_counts_fold_range ds (replicate 10 0) 0) as H.
  rewrite Hlen in H. apply H; [|lia|lia].
  repeat constructor; lia.
Qed.

Lemma probability_positive (count : Z) :
  1 <= count <= 20 ->
  exists pm pe, (f32_of_Z count / f32_of_Z 20)%f32 = S754_finite false pm pe.
Proof.
  intros H.
  assert (Hall : forallb (fun k => match (f32_of_Z (Z.of_nat k) / f32_of_Z 20)%f32 with
                                   | S754_finite false _ _ => true
                                   | _ => false
                                   end) (seq 1 20) = true) by (vm_compute; reflexivity).
  rewrite forallb_forall in Hall. specialize (Hall (Z.to_nat count)).
  rewrite Z2Nat.id in Hall by lia.
  destruct (f32_of_Z count / f32_of_Z 20)%f32 as [| | |[] pm pe];
    try (discriminate Hall; apply in_seq; lia).
  eauto.
Qed.

(** The entropy of a 20-digit fingerprint is not negative and not a NaN. *)
Lemma entropy_of_nonneg (M : Libm) (ds : list Z) :
  logf_signs M -> length ds = 20%nat -> (f32_zero <=? entropy_of M ds)%f32 = true.
Proof.
  intros (Hlog & Hl2 & Hf2) Hlen. apply sgn_in_nonneg. unfold entropy_of.
  rewrite Hlen. change (Z.of_nat 20) with 20.
  pose proof (digit_counts_range ds Hlen) as Hc.
  assert (H0 : sgn_in false f32_zero) by exact I.
  revert H0. generalize f32_zero.
  induction Hc as [|c counts Hc _ IH]; intros entropy He; [exact He|].
  cbn [fold_left]. apply IH.
  destruct (Z.eqb_spec c 0) as [E | E]; [exact He|].
  apply entropy_step_sgn; auto.
  - apply probability_positive. lia.
  - apply Hlog. lia.
Qed.

(** ** Ranges of the fingerprint *)

Lemma RefLibm_logf_signs : logf_signs RefLibm.libm.
Proof.
  split; [|split; vm_compute; reflexivity].
  intros count H.
  assert (Hall : forallb (fun k => (logf RefLibm.libm (f32_of_Z (Z.of_nat k) / f32_of_Z 20)
                                    <=? f32_zero)%f32) (seq 1 20) = true)
    by (vm_compute; reflexivity).
  rewrite forallb_forall in Hall. specialize (Hall (Z.to_nat count)).
  rewrite Z2Nat.id in Hall by lia. apply Hall. apply in_seq. lia.
Qed.

(** Every fingerprint has 20 digits between 0 and 9, a coherence in [0, 1]
    and an entropy that is not negative (and not a NaN), whatever the
    matrices, the stage hint and the composer state. *)
Lemma fingerprint_ranges (M : Libm) (fuel : nat) (self : SigprintComposer)
    (amplitude phases : BandMatrix) (stage_hint : Z) :
  atan2f_in_range M -> logf_signs M -> (23 <= fuel)%nat ->
  exists r self',
    compose M fuel self amplitude phases stage_hint = Some (r, self') /\
    length (digits r) = 20%nat /\ Forall is_digit (digits r) /\
    (f32_zero <=? coherence r)%f32 = true /\ (coherence r <=? f32_one)%f32 = true /\
    (f32_zero <=? entropy r)%f32 = true.
Proof.
  intros HM Hlog Hfuel.
  destruct (compose_returns M fuel self amplitude phases stage_hint HM Hfuel)
    as (deg & r & self' & E & Ef).
  exists r, self'. split; [exact E|].
  destruct (compose_finish_digits M self amplitude phases stage_hint deg) as (Hd & Hc & He).
  rewrite Ef in Hd, Hc, He. cbn [fst] in Hd, Hc, He.
  destruct (digits18_of_range M amplitude phases stage_hint deg) as [Hr18 Hl18].
  destruct (checksum_digits_spec _ Hr18 Hl18) as [Hcs Hrcs].
  assert (Hlen : length (digits r) = 20%nat).
  { rewrite Hd, length_app, Hl18, Hcs. reflexivity. }
  split; [exact Hlen|].
  split; [rewrite Hd; apply Forall_app; auto|].
  rewrite Hc, He. unfold coherence_of.
  split; [|split].
  - apply clampValue_f32_range; reflexivity.
  - apply clampValue_f32_range; reflexivity.
  - now apply entropy_of_nonneg.
Qed.

(** C2, the entropy bound: the reference library gives the fingerprint of
    [uniform_amplitude] and [uniform_phases] every digit twice and the entropy
    13933177 * 2^-22.  log2 10 is below 15437 / 4647, since 10^4647 < 2^15437,
    and the entropy is above it; it is one unit in the last place above the
    binary32 quotient logf(10) / logf(2). *)
Lemma entropy_above_log2_10 :
  exists r self',
    compose RefLibm.libm 23 SigprintComposer_new uniform_amplitude uniform_phases 3
      = Some (r, self') /\
    digits r = [0; 0; 1; 3; 7; 2; 2; 7; 8; 4; 9; 9; 4; 5; 6; 6; 5; 3; 8; 1] /\
    entropy r = S754_finite false 13933177 (-22) /\
    10 ^ 4647 < 2 ^ 15437 /\ 15437 * 2 ^ 22 < 13933177 * 4647 /\
    (entropy r <=? logf RefLibm.libm (f32_of_Z 10) / logf RefLibm.libm (f32_of_Z 2))%f32
    = false.
Proof.
  let v := eval vm_compute in
    (compose RefLibm.libm 23 SigprintComposer_new uniform_amplitude uniform_phases 3) in
  lazymatch v with
  | Some (?r, ?s) => exists r, s
  end.
  split; [vm_compute; reflexivity|].
  split; [vm_compute; reflexivity|].
  split; [vm_compute; reflexivity|].
  split; [vm_compute; reflexivity|].
  split; vm_compute; reflexivity.
Qed.

(** ** The theorems at concrete inputs *)

Lemma silence_fingerprint_witness :
  exists r self',
    compose RefLibm.libm 23 SigprintComposer_new
      (fst (silent_snapshot RefLibm.libm 500)) (snd (silent_snapshot RefLibm.libm 500)) 1
      = Some (r, self') /\
    gate_flags r = 0 /\ coherence r = f32_one /\
    slice 8 4 (digits r) = [9; 9; 9; 9].
Proof.
  exact (proj2 (silence_fingerprint RefLibm.libm 23 500 1 RefLibm_at_zero RefLibm_finite
                  RefLibm_atan2f_in_range (le_n 23))).
Defined.

(** C1, as it is worded: after 500 silent frames the coherence of the first
    fingerprint is 1, not at most 1e-3, and digits 8 to 11 are 9, 9, 9, 9, not
    0, 0, 0, 0. *)
Lemma silence_coherence_is_one :
  exists r self',
    compose RefLibm.libm 23 SigprintComposer_new
      (fst (silent_snapshot RefLibm.libm 500)) (snd (silent_snapshot RefLibm.libm 500)) 1
      = Some (r, self') /\
    (coherence r <=? f32_lit 1 1000)%f32 = false /\
    slice 8 4 (digits r) = [9; 9; 9; 9].
Proof.
  destruct (silent_compose RefLibm.libm 23 500 1 RefLibm_at_zero RefLibm_finite
              RefLibm_atan2f_in_range (le_n 23)) as [_ (r & self' & E & _ & Hc & Hd)].
  exists r, self'. split; [exact E|]. split; [|exact Hd].
  rewrite Hc. vm_compute. reflexivity.
Qed.

Lemma compose_checksum_witness :
  exists r self',
    compose RefLibm.libm 23 SigprintComposer_new uniform_amplitude uniform_phases 3
      = Some (r, self') /\
    length (digits r) = 20%nat /\
    let cs := digit_sum (take 18 (digits r)) mod 97 in
    nth 18 (digits r) 0 = cs / 10 /\ nth 19 (digits r) 0 = cs mod 10.
Proof.
  exact (compose_checksum RefLibm.libm 23 SigprintComposer_new uniform_amplitude
           uniform_phases 3 RefLibm_atan2f_in_range (le_n 23)).
Defined.

Lemma packet_round_trip_witness :
  decode_raw (packet_payload
                (encodePacket [-8388608; 8388607; 0; 1; -1; 256; -65536; 42]
                   (flat_matrix f32_one) (flat_matrix f32_zero) blank_result 1 222 1000
                   (replicate 383 0)))
  = [-8388608; 8388607; 0; 1; -1; 256; -65536; 42].
Proof.
  assert (Hm : forall v, is_f32 v -> wf_matrix (flat_matrix v) /\ all_f32 (flat_matrix v)).
  { intros v Hv. split; [split; [reflexivity|]|]; repeat constructor; exact Hv. }
  refine (proj1 (packet_round_trip [-8388608; 8388607; 0; 1; -1; 256; -65536; 42]
                   (flat_matrix f32_one) (flat_matrix f32_zero) blank_result 1 222 1000
                   (replicate 383 0) eq_refl eq_refl _
                   (proj1 (Hm f32_one eq_refl)) (proj2 (Hm f32_one eq_refl))
                   (proj1 (Hm f32_zero eq_refl)) (proj2 (Hm f32_zero eq_refl))
                   eq_refl _)).
  - repeat constructor; unfold in_i24; lia.
  - repeat constructor; unfold is_digit; lia.
Defined.

Lemma compose_gate_flags_witness :
  exists r self',
    compose RefLibm.libm 23 SigprintComposer_new (flat_matrix f32_one)
      (flat_matrix f32_zero) 1 = Some (r, self') /\
    (forall band, (band < BAND_COUNT)%nat ->
       Z.testbit (gate_flags r) (Z.of_nat band)
       = initialized_ SigprintComposer_new
         && (relative_change (band_previous SigprintComposer_new band)
               (avg_power_of (flat_matrix f32_one) band)
             >=? f32_lit 35 100)%f32) /\
    (initialized_ SigprintComposer_new = false -> gate_flags r = 0) /\
    (forall band, (band < BAND_COUNT)%nat ->
       band_previous self' band = avg_power_of (flat_matrix f32_one) band).
Proof.
  exact (compose_gate_flags RefLibm.libm 23 SigprintComposer_new (flat_matrix f32_one)
           (flat_matrix f32_zero) 1 RefLibm_atan2f_in_range (le_n 23)
           (proj1 composer_inv_new)).
Defined.

Lemma compose_gate_on_step_witness :
  exists r1 self1 r2 self2,
    compose RefLibm.libm 23 SigprintComposer_new (alpha_step f32_one)
      (flat_matrix f32_zero) 1 = Some (r1, self1) /\
    compose RefLibm.libm 23 self1 (alpha_step (f32_of_Z 2))
      (flat_matrix f32_zero) 1 = Some (r2, self2) /\
    Z.testbit (gate_flags r2) (Z.of_nat 2) = true.
Proof.
  refine (compose_gate_on_step RefLibm.libm 23 SigprintComposer_new
            (alpha_step f32_one) (flat_matrix f32_zero) 1
            (alpha_step (f32_of_Z 2)) (flat_matrix f32_zero) 1 2
            RefLibm_atan2f_in_range (le_n 23) (proj1 composer_inv_new) _ _).
  - unfold BAND_COUNT. lia.
  - vm_compute. reflexivity.
Defined.

(** C7, as it is worded: the mean of the alpha band goes from 1 to 1.125, a
    change of 12.5 %, and the second call sets no gate bit. *)
Lemma gate_clear_on_small_step :
  exists r1 self1 r2 self2,
    compose RefLibm.libm 23 SigprintComposer_new (alpha_step f32_one)
      (flat_matrix f32_zero) 1 = Some (r1, self1) /\
    compose RefLibm.libm 23 self1 (alpha_step (f32_lit 9 8))
      (flat_matrix f32_zero) 1 = Some (r2, self2) /\
    initialized_ self1 = true /\
    avg_power_of (alpha_step f32_one) 2 = f32_one /\
    avg_power_of (alpha_step (f32_lit 9 8)) 2 = f32_lit 9 8 /\
    (f32_lit 5 100 <? relative_change f32_one (f32_lit 9 8))%f32 = true /\
    Z.testbit (gate_flags r2) 2 = false /\ gate_flags r2 = 0.
Proof.
  let v := eval vm_compute in
    (compose RefLibm.libm 23 SigprintComposer_new (alpha_step f32_one)
       (flat_matrix f32_zero) 1) in
  lazymatch v with
  | Some (?r, ?s) =>
      exists r, s;
      let w := eval vm_compute in
        (compose RefLibm.libm 23 s (alpha_step (f32_lit 9 8)) (flat_matrix f32_zero) 1) in
      lazymatch w with
      | Some (?r2, ?s2) => exists r2, s2
      end
  end.
  repeat split; vm_compute; reflexivity.
Qed.


Lemma process_update_witness :
  exists st st',
    bands_ (lockin_run RefLibm.libm [f32_one]) !! 0%nat = Some st /\
    bands_ (process RefLibm.libm (lockin_run RefLibm.libm [f32_one]) f32_one) !! 0%nat
      = Some st' /\
    index_ (process RefLibm.libm (lockin_run RefLibm.libm [f32_one]) f32_one) = 2 /\
    BandState.filter_alpha st' = reset_alpha RefLibm.libm 0.
Proof.
  destruct (process_update RefLibm.libm [f32_one] f32_one 0 ltac:(unfold BAND_COUNT; lia))
    as (st & st' & E & E' & Hidx & Hidx' & _ & _ & _ & _ & Ha & _).
  exists st, st'. split; [exact E|]. split; [exact E'|]. split; [|exact Ha].
  rewrite Hidx', Hidx. reflexivity.
Defined.

Lemma compose_keeps_invariant_witness :
  exists self r self',
    compose_run RefLibm.libm 23 [(flat_matrix f32_one, flat_matrix f32_zero, 1)]
      SigprintComposer_new = Some self /\
    compose RefLibm.libm 23 self (flat_matrix f32_one) (flat_matrix f32_zero) 1
      = Some (r, self') /\
    initialized_ self' = true.
Proof.
  destruct (compose_keeps_invariant RefLibm.libm 23
              [(flat_matrix f32_one, flat_matrix f32_zero, 1)]
              (flat_matrix f32_one) (flat_matrix f32_zero) 1
              RefLibm_atan2f_in_range (le_n 23)) as (self & r & self' & E1 & E2 & Hi & _).
  exists self, r, self'. auto.
Defined.

(** ** Stage cycling *)

Lemma stageFrequency_spec (stage : Z) :
  0 <= stage < 256 ->
  (stage = 0 -> stageFrequency stage = 0) /\
  (stage <> 0 ->
     stageFrequency stage = nth (Z.to_nat ((stage - 1) mod 6)) kStageFrequencies 0 /\
     In (stageFrequency stage) kStageFrequencies /\
     222 <= stageFrequency stage <= 22222) /\
  (1 <= stage -> stage + 6 < 256 -> stageFrequency (stage + 6) = stageFrequency stage).
Proof.
  intros H. unfold stageFrequency. split; [intros ->; reflexivity|].
  assert (Hin : forall s, 1 <= s < 256 ->
            u32 (s - 1) mod Z.of_nat (length kStageFrequencies) = (s - 1) mod 6).
  { intros s Hs. unfold u32. rewrite (Z.mod_small (s - 1) 0x100000000) by lia. reflexivity. }
  split.
  - intros Hne. destruct (Z.eqb_spec stage 0) as [|_]; [contradiction|].
    cbv zeta. rewrite Hin by lia.
    pose proof (Z.mod_pos_bound (stage - 1) 6 eq_refl) as Hm.
    split; [reflexivity|].
    assert (Hc : (stage - 1) mod 6 = 0 \/ (stage - 1) mod 6 = 1 \/ (stage - 1) mod 6 = 2 \/
                 (stage - 1) mod 6 = 3 \/ (stage - 1) mod 6 = 4 \/ (stage - 1) mod 6 = 5)
      by lia.
    destruct Hc as [-> | [-> | [-> | [-> | [-> | ->]]]]]; (split; [vm_compute; auto 10 | vm_compute; split; discriminate]).
  - intros H1 H6.
    destruct (Z.eqb_spec (stage + 6) 0) as [|_]; [lia|].
    destruct (Z.eqb_spec stage 0) as [|_]; [lia|].
    cbv zeta. rewrite !Hin by lia.
    replace (stage + 6 - 1) with (stage - 1 + 1 * 6) by lia.
    rewrite Z.mod_add by lia. reflexivity.
Qed.

(** X1: [stageFrequency] is 0 for stage 0 only; for any other stage of a byte
    it is the table entry [(stage - 1) mod 6], so the six stages 1 to 6 map to
    the six frequencies in order and higher stages wrap around. *)
Theorem stageFrequency_table (stage : Z) :
  0 <= stage < 256 ->
  (stage = 0 -> stageFrequency stage = 0) /\
  (stage <> 0 ->
     stageFrequency stage = nth (Z.to_nat ((stage - 1) mod 6)) kStageFrequencies 0 /\
     In (stageFrequency stage) kStageFrequencies /\
     222 <= stageFrequency stage <= 22222) /\
  (1 <= stage -> stage + 6 < 256 -> stageFrequency (stage + 6) = stageFrequency stage).
Proof. exact (stageFrequency_spec stage). Qed.

Lemma stageFrequency_table_witness :
  stageFrequency 7 = nth (Z.to_nat ((7 - 1) mod 6)) kStageFrequencies 0.
Proof.
  exact (proj1 (proj1 (proj2 (stageFrequency_table 7 ltac:(lia))) ltac:(lia))).
Defined.

Lemma u32_elapsed (last elapsed : Z) :
  0 <= elapsed < 0x100000000 -> u32 (u32 (last + elapsed) - last) = elapsed.
Proof.
  intros H. unfold u32. rewrite Zminus_mod_idemp_l.
  replace (last + elapsed - last) with elapsed by lia. now apply Z.mod_small.
Qed.

(** X2: [updateStage] compares the time since the last transition modulo 2^32:
    the stage advances exactly when at least 15000 ms have gone by, also when
    [millis()] has wrapped around in between; it then goes from 6 back to 1 and
    otherwise up by one, and the transition time becomes the current time. *)
Theorem updateStage_step (state : StageState.t) (elapsed : Z) :
  1 <= StageState.stage state <= 6 ->
  0 <= elapsed < 0x100000000 ->
  let now_ms := u32 (StageState.last_transition_ms state + elapsed) in
  let state' := updateStage state now_ms in
  (elapsed < 15000 -> state' = state) /\
  (15000 <= elapsed ->
     StageState.stage state' = StageState.stage state mod 6 + 1 /\
     StageState.last_transition_ms state' = now_ms) /\
  1 <= StageState.stage state' <= 6.
Proof.
  intros Hs He now_ms state'. subst state' now_ms. unfold updateStage.
  rewrite u32_elapsed by exact He. unfold STAGE_HOLD_MS.
  destruct (Z.geb_spec elapsed 15000) as [Hge | Hlt].
  - split; [lia|]. cbv zeta. cbn [StageState.stage StageState.last_transition_ms].
    change (Z.of_nat (length kStageFrequencies)) with 6.
    unfold u8. rewrite (Z.mod_small (_ + 1)) by lia.
    destruct (Z.ltb_spec 6 (StageState.stage state + 1)) as [Hw | Hw];
      cbn [StageState.stage StageState.last_transition_ms].
    + assert (E : StageState.stage state = 6) by lia. rewrite E.
      split; [|lia]. intros _. split; reflexivity.
    + split; [|lia]. intros _. rewrite Z.mod_small by lia. split; reflexivity.
  - split; [reflexivity|]. split; [lia|exact Hs].
Qed.

Lemma updateStage_step_witness :
  StageState.stage (updateStage {| StageState.stage := 6; StageState.last_transition_ms := 4294960000 |}
                      (u32 (4294960000 + 15000))) = 6 mod 6 + 1.
Proof.
  exact (proj1 (proj1 (proj2 (updateStage_step
                                {| StageState.stage := 6;
                                   StageState.last_transition_ms := 4294960000 |}
                                15000 ltac:(cbn; lia) ltac:(lia))) ltac:(lia))).
Defined.

Lemma updateStage_stage_range (state : StageState.t) (now_ms : Z) :
  1 <= StageState.stage state <= 6 -> 1 <= StageState.stage (updateStage state now_ms) <= 6.
Proof.
  intros Hs. unfold updateStage.
  destruct (_ >=? _); [|exact Hs].
  cbv zeta. cbn [StageState.stage]. change (Z.of_nat (length kStageFrequencies)) with 6.
  unfold u8. rewrite Z.mod_small by lia.
  destruct (Z.ltb_spec 6 (StageState.stage state + 1)); lia.
Qed.

(** X3: whatever the times at which [loop()] calls [updateStage], the stage
    that started at 1 stays between 1 and 6, so the frequency put into the
    packets is never 0, is the table entry of the stage and fits the 16-bit
    field. *)
Theorem stage_run_frequency (times : list Z) :
  let state := stage_run times StageState_new in
  1 <= StageState.stage state <= 6 /\
  stageFrequency (StageState.stage state)
  = nth (Z.to_nat (StageState.stage state - 1)) kStageFrequencies 0 /\
  In (stageFrequency (StageState.stage state)) kStageFrequencies /\
  le_value (writeUint16LE (stageFrequency (StageState.stage state)))
  = stageFrequency (StageState.stage state).
Proof.
  cbv zeta. unfold stage_run.
  assert (Hr : 1 <= StageState.stage (fold_left updateStage times StageState_new) <= 6).
  { assert (H0 : 1 <= StageState.stage StageState_new <= 6) by (cbn; lia).
    revert H0. generalize StageState_new.
    induction times as [|t times IH]; intros s Hs; [exact Hs|].
    cbn [fold_left]. apply IH. now apply updateStage_stage_range. }
  set (state := fold_left updateStage times StageState_new) in *.
  destruct (stageFrequency_spec (StageState.stage state) ltac:(lia)) as (_ & Hf & _).
  destruct (Hf ltac:(lia)) as (E & Hin & Hb).
  split; [exact Hr|]. split; [|split; [exact Hin|]].
  - rewrite E. rewrite Z.mod_small by lia. reflexivity.
  - rewrite le_value_u16. unfold u16. apply Z.mod_small. lia.
Qed.

(** ** Reading the converter *)

Lemma lor_shifted_add (a b k : Z) :
  0 <= k -> 0 <= b < 2 ^ k -> Z.lor (a * 2 ^ k) b = a * 2 ^ k + b.
Proof.
  intros Hk Hb.
  assert (Hland : Z.land (a * 2 ^ k) b = 0).
  { apply Z.bits_inj'. intros n Hn. rewrite Z.land_spec, Z.bits_0.
    destruct (Z.ltb_spec n k).
    - rewrite Z.mul_pow2_bits_low by lia. reflexivity.
    - replace (Z.testbit b n) with false; [apply andb_false_r|].
      symmetry. apply Z.testbit_false; [lia|].
      rewrite Z.div_small; [reflexivity|]. split; [lia|].
      apply Z.lt_le_trans with (2 ^ k); [lia | apply Z.pow_le_mono_r; lia]. }
  rewrite <- Z.lxor_lor, <- Z.add_nocarry_lxor; try reflexivity; exact Hland.
Qed.

Lemma sign_extend24_val (w : Z) :
  0 <= w < 0x1000000 ->
  sign_extend24 w = if w <? 0x800000 then w else w - 0x1000000.
Proof.
  intros Hw. unfold sign_extend24.
  assert (Hland : Z.land w 0x800000 = if w <? 0x800000 then 0 else 0x800000).
  { change (Z.land w 0x800000) with (Z.land w (2 ^ 23)). rewrite (land_pow2 w 23) by lia.
    pose proof (Z.testbit_spec' w 23 ltac:(lia)) as Hb. change (2 ^ 23) with 0x800000 in *.
    destruct (Z.ltb_spec w 0x800000), (Z.testbit w 23); cbn [Z.b2z] in Hb; try reflexivity;
      exfalso; Z.div_mod_to_equations; lia. }
  rewrite Hland. destruct (Z.ltb_spec w 0x800000) as [Hlt | Hge]; cbn [Z.eqb]; [reflexivity|].
  assert (Hlor : Z.lor w 0xFF000000 = w + 0xFF000000).
  { rewrite <- Z.lxor_lor, <- Z.add_nocarry_lxor; try reflexivity; apply land_high; lia. }
  rewrite Hlor. unfold i32. Z.div_mod_to_equations. lia.
Qed.

Lemma read_channel_eq (b0 b1 b2 : Z) :
  in_u8 b0 -> in_u8 b1 -> in_u8 b2 ->
  read_channel b0 b1 b2 = sign_extend24 (b0 * 65536 + b1 * 256 + b2).
Proof.
  unfold in_u8. intros H0 H1 H2. unfold read_channel. cbv zeta.
  rewrite !Z.shiftl_mul_pow2 by lia. change (2 ^ 16) with 65536. change (2 ^ 8) with 256.
  assert (E0 : i32 (b0 * 65536) = b0 * 65536) by (unfold i32; Z.div_mod_to_equations; lia).
  assert (E1 : i32 (b1 * 256) = b1 * 256) by (unfold i32; Z.div_mod_to_equations; lia).
  rewrite E0, E1, Z.lor_0_l.
  replace (b0 * 65536) with (b0 * 2 ^ 16) by reflexivity.
  rewrite (lor_shifted_add b0 (b1 * 256) 16) by lia.
  replace (b0 * 2 ^ 16 + b1 * 256) with ((b0 * 256 + b1) * 2 ^ 8) by lia.
  rewrite (lor_shifted_add _ b2 8) by lia.
  replace ((b0 * 256 + b1) * 2 ^ 8 + b2) with (b0 * 65536 + b1 * 256 + b2) by lia.
  reflexivity.
Qed.

Lemma raw_sample_bytes_eq (v : Z) :
  raw_sample_bytes v = [v mod 256; v / 256 mod 256; v / 65536 mod 256].
Proof.
  unfold raw_sample_bytes, u8. rewrite !land_255, !Z.shiftr_div_pow2 by lia.
  change (2 ^ 8) with 256. change (2 ^ 16) with 65536.
  rewrite !Z.mod_mod by lia. reflexivity.
Qed.

Lemma read_channel_spec (b0 b1 b2 : Z) :
  in_u8 b0 -> in_u8 b1 -> in_u8 b2 ->
  let w := b0 * 65536 + b1 * 256 + b2 in
  read_channel b0 b1 b2 = (if b0 <? 128 then w else w - 16777216) /\
  in_i24 (read_channel b0 b1 b2) /\
  raw_sample_bytes (read_channel b0 b1 b2) = [b2; b1; b0].
Proof.
  intros H0 H1 H2 w. rewrite read_channel_eq by assumption. fold w.
  unfold in_u8 in *.
  rewrite sign_extend24_val by (subst w; lia).
  assert (E : (w <? 0x800000) = (b0 <? 128)).
  { subst w. destruct (Z.ltb_spec b0 128), (Z.ltb_spec (b0 * 65536 + b1 * 256 + b2) 0x800000);
      (reflexivity || lia). }
  rewrite E. split; [reflexivity|]. rewrite raw_sample_bytes_eq. unfold in_i24.
  destruct (Z.ltb_spec b0 128); subst w.
  - split; [lia|]. repeat f_equal; Z.div_mod_to_equations; lia.
  - split; [lia|]. repeat f_equal; Z.div_mod_to_equations; lia.
Qed.

(** X4: a channel of [readFrame] is the signed value of the converter's 24
    bits: the bytes taken high byte first, less 2^24 when the top bit is set.
    It lies in the signed 24-bit range, and the three bytes [encodePacket]
    writes for it are the converter's bytes in reverse order. *)
Theorem read_channel_value (b0 b1 b2 : Z) :
  in_u8 b0 -> in_u8 b1 -> in_u8 b2 ->
  let w := b0 * 65536 + b1 * 256 + b2 in
  read_channel b0 b1 b2 = (if b0 <? 128 then w else w - 16777216) /\
  in_i24 (read_channel b0 b1 b2) /\
  raw_sample_bytes (read_channel b0 b1 b2) = [b2; b1; b0].
Proof. exact (read_channel_spec b0 b1 b2). Qed.

Lemma read_channel_value_witness :
  read_channel 0x80 0x00 0x00 = -8388608 /\
  raw_sample_bytes (read_channel 0x80 0x00 0x00) = [0x00; 0x00; 0x80].
Proof.
  pose proof (read_channel_value 0x80 0x00 0x00 ltac:(unfold in_u8; lia)
                ltac:(unfold in_u8; lia) ltac:(unfold in_u8; lia)) as (E & _ & Hb).
  split; [exact E|exact Hb].
Defined.

Lemma nth_in_u8 (l : list Z) (i : nat) : Forall in_u8 l -> in_u8 (nth i l 0).
Proof.
  intros H. destruct (nth_lookup_or_length l i 0) as [Hi | Hi].
  - rewrite Forall_forall in H. apply H. apply list_elem_of_lookup. eauto.
  - rewrite nth_overflow by lia. unfold in_u8. lia.
Qed.

(** X5: from the converter to the wire.  [readFrame] reads nothing while the
    data-ready flag is clear; otherwise it yields eight samples in the signed
    24-bit range, and a packet encoded from them carries, for each channel,
    the converter's three bytes in reverse order and decodes to the same
    samples. *)
Theorem readFrame_on_the_wire (spi : list Z) amp ph sig stage zf ts out :
  Forall in_u8 spi -> length out = Z.to_nat PACKET_BYTES ->
  readFrame false spi = None /\
  exists frame,
    readFrame true spi = Some frame /\
    length frame = CHANNEL_COUNT /\ Forall in_i24 frame /\
    let payload := packet_payload (encodePacket frame amp ph sig stage zf ts out) in
    decode_raw payload = frame /\
    forall ch, (ch < CHANNEL_COUNT)%nat ->
      slice (3 * ch) 3 payload
      = [nth (3 + 3 * ch + 2) spi 0; nth (3 + 3 * ch + 1) spi 0; nth (3 + 3 * ch) spi 0].
Proof.
  intros Hspi Hout. split; [reflexivity|].
  unfold readFrame.
  set (frame := map _ (seq 0 CHANNEL_COUNT)).
  exists frame. split; [reflexivity|].
  assert (Hlen : length frame = CHANNEL_COUNT) by (subst frame; now rewrite length_map, length_seq).
  assert (Hval : forall ch, (ch < CHANNEL_COUNT)%nat ->
            nth ch frame 0 = read_channel (nth (3 + 3 * ch) spi 0) (nth (3 + 3 * ch + 1) spi 0)
                                          (nth (3 + 3 * ch + 2) spi 0)).
  { intros ch Hch. subst frame. rewrite nth_lookup.
    change (@map) with (@fmap list _). rewrite list_lookup_fmap, lookup_seq_lt by exact Hch.
    reflexivity. }
  assert (Hrange : Forall in_i24 frame).
  { apply Forall_forall. intros v Hv. apply list_elem_of_lookup in Hv as [ch Hch].
    pose proof (lookup_lt_Some _ _ _ Hch) as Hlt. rewrite Hlen in Hlt.
    pose proof (Hval ch Hlt) as E. rewrite nth_lookup, Hch in E. cbn in E. subst v.
    apply read_channel_spec; now apply nth_in_u8. }
  split; [exact Hlen|]. split; [exact Hrange|].
  cbv zeta. rewrite packet_payload_eq by exact Hout.
  split; [now apply decode_raw_eq|].
  intros ch Hch. rewrite payload_raw_slice, Hval by exact Hch.
  apply read_channel_spec; now apply nth_in_u8.
Qed.

Lemma readFrame_on_the_wire_witness :
  exists frame,
    readFrame true (replicate 27 0xFF) = Some frame /\
    length frame = CHANNEL_COUNT /\ Forall in_i24 frame.
Proof.
  destruct (readFrame_on_the_wire (replicate 27 0xFF) (flat_matrix f32_one)
              (flat_matrix f32_zero) blank_result 1 222 1000 (replicate 383 0)) as [_ H].
  - apply Forall_replicate. unfold in_u8. lia.
  - reflexivity.
  - destruct H as (frame & E & Hl & Hr & _). exists frame. auto.
Defined.

(** ** The rest of the payload *)

(** X6: the fields after the digits.  The payload of an encoded packet holds
    the coherence as a binary32 word at offset 354, the gate and the loop
    flags at 358 and 359, the entropy at 360, the stage at 368 and the zipper
    frequency as a little-endian 16-bit word at 369. *)
Theorem payload_trailer raw amp ph sig stage zf ts out :
  length out = Z.to_nat PACKET_BYTES ->
  is_f32 (coherence sig) -> is_f32 (entropy sig) ->
  let payload := packet_payload (encodePacket raw amp ph sig stage zf ts out) in
  f32_of_bits (le_value (slice 354 4 payload)) = coherence sig /\
  nth 358 payload 0 = gate_flags sig /\
  nth 359 payload 0 = loop_flags sig /\
  f32_of_bits (le_value (slice 360 4 payload)) = entropy sig /\
  nth 368 payload 0 = stage /\
  le_value (slice 369 2 payload) = u16 zf.
Proof.
  intros Hlen Hc He payload. subst payload. rewrite packet_payload_eq by exact Hlen.
  change (slice 354 4 (payload_bytes raw amp ph sig stage zf))
    with (memcpy_float (coherence sig)).
  change (slice 360 4 (payload_bytes raw amp ph sig stage zf))
    with (memcpy_float (entropy sig)).
  change (slice 369 2 (payload_bytes raw amp ph sig stage zf)) with (writeUint16LE zf).
  rewrite !le_value_memcpy_float, !f32_of_bits_bits, le_value_u16 by assumption.
  repeat split.
Qed.

Lemma payload_trailer_witness :
  nth 368 (packet_payload (encodePacket (replicate 8 0) (flat_matrix f32_one)
                             (flat_matrix f32_zero) blank_result 3 1111 1000
                             (replicate 383 0))) 0 = 3.
Proof.
  exact (proj1 (proj2 (proj2 (proj2 (proj2
           (payload_trailer (replicate 8 0) (flat_matrix f32_one) (flat_matrix f32_zero)
              blank_result 3 1111 1000 (replicate 383 0) eq_refl eq_refl eq_refl)))))).
Defined.

(** X7: [encodePacket] writes every byte of the buffer: what the buffer held
    before has no influence on the packet. *)
Theorem encodePacket_overwrites raw amp ph sig stage zf ts out1 out2 :
  length out1 = Z.to_nat PACKET_BYTES -> length out2 = Z.to_nat PACKET_BYTES ->
  encodePacket raw amp ph sig stage zf ts out1
  = encodePacket raw amp ph sig stage zf ts out2.
Proof. intros H1 H2. now rewrite !encodePacket_eq. Qed.

Lemma encodePacket_overwrites_witness :
  encodePacket (replicate 8 0) (flat_matrix f32_one) (flat_matrix f32_zero)
    blank_result 3 1111 1000 (replicate 383 0)
  = encodePacket (replicate 8 0) (flat_matrix f32_one) (flat_matrix f32_zero)
      blank_result 3 1111 1000 (replicate 383 0xAA).
Proof.
  exact (encodePacket_overwrites (replicate 8 0) (flat_matrix f32_one)
           (flat_matrix f32_zero) blank_result 3 1111 1000
           (replicate 383 0) (replicate 383 0xAA) eq_refl eq_refl).
Defined.

Lemma land_255_range (x : Z) : in_u8 (Z.land x 0xFF).
Proof. rewrite land_255. unfold in_u8. apply Z.mod_pos_bound. lia. Qed.

Lemma u8_range (x : Z) : in_u8 (u8 x).
Proof. unfold in_u8, u8. apply Z.mod_pos_bound. lia. Qed.

Lemma writeUint16LE_range (v : Z) : Forall in_u8 (writeUint16LE v).
Proof. repeat constructor; apply land_255_range. Qed.

Lemma writeUint32LE_range (v : Z) : Forall in_u8 (writeUint32LE v).
Proof. repeat constructor; apply land_255_range. Qed.

Lemma Forall_flat_map_seq (f : nat -> list Z) (P : Z -> Prop) (start len : nat) :
  (forall k, Forall P (f k)) -> Forall P (flat_map f (seq start len)).
Proof.
  intros H. revert start. induction len as [|len IH]; intros start; [constructor|].
  cbn [seq flat_map]. apply Forall_app. auto.
Qed.

Lemma encodePacket_in_u8 raw amp ph sig stage zf ts out :
  length out = Z.to_nat PACKET_BYTES ->
  in_u8 stage -> in_u8 (gate_flags sig) -> in_u8 (loop_flags sig) ->
  Forall in_u8 (encodePacket raw amp ph sig stage zf ts out).
Proof.
  intros Hlen Hs Hg Hl. rewrite encodePacket_eq by exact Hlen.
  assert (H0 : in_u8 0) by (unfold in_u8; lia).
  assert (H1 : in_u8 1) by (unfold in_u8; lia).
  assert (Hm : forall m, Forall in_u8 (matrix_bytes m)).
  { intros m. unfold matrix_bytes. apply Forall_flat_map_seq. intros ch.
    apply Forall_flat_map_seq. intros band. apply writeUint32LE_range. }
  unfold header_bytes, payload_bytes, memcpy_float.
  assert (Hraw : Forall in_u8
            (flat_map (fun ch => raw_sample_bytes (nth ch raw 0)) (seq 0 CHANNEL_COUNT))).
  { apply Forall_flat_map_seq. intros ch. unfold raw_sample_bytes.
    repeat (apply Forall_cons; split; [apply u8_range|]). constructor. }
  assert (Hbcd : Forall in_u8 (map (bcd_byte (digits sig)) (seq 0 (20 / 2)))).
  { apply Forall_forall. intros b Hb.
    apply list_elem_of_fmap in Hb as (k & -> & _). apply u8_range. }
  rewrite !Forall_app.
  pose proof (writeUint16LE_range 0x5347). pose proof (writeUint16LE_range PAYLOAD_BYTES).
  pose proof (writeUint16LE_range zf). pose proof (writeUint32LE_range ts).
  pose proof (writeUint16LE_range
                (crc16_ccitt (payload_bytes raw amp ph sig stage zf))) as Hcrc.
  unfold payload_bytes, memcpy_float in Hcrc.
  pose proof (writeUint32LE_range (f32_bits (coherence sig))).
  pose proof (writeUint32LE_range (f32_bits (entropy sig))).
  pose proof (Hm amp). pose proof (Hm ph).
  repeat split; try assumption.
  all: repeat (apply Forall_cons; split; [assumption|]); constructor.
Qed.

(** X8: every one of the 383 bytes of a packet is a byte, whatever the
    samples, the matrices, the digits, the time stamp and the frequency are,
    as long as the three fields that are copied unmasked (stage, gate and loop
    flags) are bytes. *)
Theorem encodePacket_bytes raw amp ph sig stage zf ts out :
  length out = Z.to_nat PACKET_BYTES ->
  in_u8 stage -> in_u8 (gate_flags sig) -> in_u8 (loop_flags sig) ->
  Forall in_u8 (encodePacket raw amp ph sig stage zf ts out).
Proof. exact (encodePacket_in_u8 raw amp ph sig stage zf ts out). Qed.

Lemma encodePacket_bytes_witness :
  Forall in_u8 (encodePacket [-1; 8388607; -8388608; 0; 1; 2; 3; 4] (flat_matrix f32_one)
                  (flat_matrix f32_zero) blank_result 3 1111 1000 (replicate 383 0)).
Proof.
  apply (encodePacket_bytes [-1; 8388607; -8388608; 0; 1; 2; 3; 4] (flat_matrix f32_one)
           (flat_matrix f32_zero) blank_result 3 1111 1000 (replicate 383 0) eq_refl);
    unfold in_u8; cbn; lia.
Defined.

(** X9: digits are packed modulo 10.  A byte of the digit field always holds
    two decimal nibbles: reading the payload back by nibbles gives each of
    the 20 digits modulo 10, whatever values the digit array holds. *)
Theorem decode_digits_mod_10 raw amp ph sig stage zf ts out :
  length out = Z.to_nat PACKET_BYTES -> length (digits sig) = 20%nat ->
  let payload := packet_payload (encodePacket raw amp ph sig stage zf ts out) in
  decode_digits payload = map (fun d => d mod 10) (digits sig) /\
  Forall is_digit (decode_digits payload).
Proof.
  intros Hout Hlen payload. subst payload. rewrite packet_payload_eq by exact Hout.
  assert (E : decode_digits (payload_bytes raw amp ph sig stage zf)
              = map (fun d => d mod 10) (digits sig)).
  { unfold decode_digits.
    rewrite (flat_map_ext_seq _ (fun k => [digit_at (digits sig) (k * 2) mod 10;
                                           digit_at (digits sig) (k * 2 + 1) mod 10])).
    - destruct sig as [ds c g l e]. cbn [digits] in *.
      do 21 (destruct ds as [|? ds]; try discriminate Hlen). reflexivity.
    - intros k Hk. cbv zeta. rewrite payload_bcd_byte by lia. unfold bcd_byte.
      assert (Hd : forall d, is_digit (d mod 10)).
      { intros d. unfold is_digit. pose proof (Z.mod_pos_bound d 10). lia. }
      pose proof (bcd_nibbles _ _ (Hd (digit_at (digits sig) (k * 2)))
                    (Hd (digit_at (digits sig) (k * 2 + 1)))) as Hn.
      cbv zeta in Hn. rewrite !Z.mod_mod in Hn by lia.
      destruct Hn as [-> ->]. reflexivity. }
  split; [exact E|]. rewrite E. apply Forall_forall. intros d Hd.
  apply list_elem_of_fmap in Hd as (x & -> & _).
  unfold is_digit. pose proof (Z.mod_pos_bound x 10). lia.
Qed.

Lemma decode_digits_mod_10_witness :
  decode_digits
    (packet_payload
       (encodePacket (replicate 8 0) (flat_matrix f32_one) (flat_matrix f32_zero)
          {| digits := replicate 20 255; coherence := f32_zero; gate_flags := 0;
             loop_flags := 0; entropy := f32_zero |}
          3 1111 1000 (replicate 383 0)))
  = map (fun d => d mod 10) (replicate 20 255).
Proof.
  exact (proj1 (decode_digits_mod_10 (replicate 8 0) (flat_matrix f32_one)
                  (flat_matrix f32_zero)
                  {| digits := replicate 20 255; coherence := f32_zero; gate_flags := 0;
                     loop_flags := 0; entropy := f32_zero |}
                  3 1111 1000 (replicate 383 0) eq_refl eq_refl)).
Defined.

(** X10: a sample is sent modulo 2^24.  The three bytes written for a sample
    are its low 24 bits, so reading them back with the sign extension gives
    the sample wrapped into the signed 24-bit range; a sample outside that
    range comes back as a different number. *)
Theorem raw_sample_wraps (v : Z) :
  le_value (raw_sample_bytes v) = v mod 16777216 /\
  sign_extend24 (le_value (raw_sample_bytes v)) = (v + 8388608) mod 16777216 - 8388608 /\
  (sign_extend24 (le_value (raw_sample_bytes v)) = v <-> in_i24 v).
Proof.
  assert (Hle : le_value (raw_sample_bytes v) = v mod 16777216).
  { rewrite raw_sample_bytes_eq. unfold le_value. cbn [fold_right].
    Z.div_mod_to_equations. lia. }
  assert (Hs : sign_extend24 (le_value (raw_sample_bytes v))
               = (v + 8388608) mod 16777216 - 8388608).
  { rewrite Hle, sign_extend24_val by (apply Z.mod_pos_bound; lia).
    destruct (Z.ltb_spec (v mod 16777216) 0x800000); Z.div_mod_to_equations; lia. }
  split; [exact Hle|]. split; [exact Hs|]. rewrite Hs. unfold in_i24.
  Z.div_mod_to_equations. lia.
Qed.

(** X11: [writeUint16LE] and [writeUint32LE] write two and four bytes, low byte
    first, that hold the value modulo 2^16 and 2^32: a value of the field's
    width is read back unchanged. *)
Theorem writeUint_round_trip (v : Z) :
  length (writeUint16LE v) = 2%nat /\ Forall in_u8 (writeUint16LE v) /\
  le_value (writeUint16LE v) = v mod 65536 /\
  length (writeUint32LE v) = 4%nat /\ Forall in_u8 (writeUint32LE v) /\
  le_value (writeUint32LE v) = v mod 4294967296 /\
  (0 <= v < 65536 -> le_value (writeUint16LE v) = v) /\
  (0 <= v < 4294967296 -> le_value (writeUint32LE v) = v).
Proof.
  rewrite le_value_u16, le_value_u32. unfold u16, u32.
  repeat split; try apply writeUint16LE_range; try apply writeUint32LE_range;
    intros; now apply Z.mod_small.
Qed.

(** ** The CRC as a linear map *)

Lemma testbit_u16 x b : 0 <= b -> Z.testbit (u16 x) b = (b <? 16) && Z.testbit x b.
Proof.
  intros Hb. unfold u16. change 0x10000 with (2 ^ 16).
  destruct (Z.ltb_spec b 16).
  - now rewrite Z.mod_pow2_bits_low by lia.
  - now rewrite Z.mod_pow2_bits_high by lia.
Qed.

Lemma u16_lxor (a b : Z) : u16 (Z.lxor a b) = Z.lxor (u16 a) (u16 b).
Proof.
  apply Z.bits_inj'. intros n Hn. rewrite Z.lxor_spec, !testbit_u16, Z.lxor_spec by lia.
  destruct (n <? 16); reflexivity.
Qed.

Lemma u16_id (a : Z) : 0 <= a < 0x10000 -> u16 a = a.
Proof. intros H. unfold u16. now apply Z.mod_small. Qed.

Lemma lxor_u16_range (a b : Z) :
  0 <= a < 0x10000 -> 0 <= b < 0x10000 -> 0 <= Z.lxor a b < 0x10000.
Proof.
  intros Ha Hb. rewrite <- (u16_id a), <- (u16_id b), <- u16_lxor by assumption.
  unfold u16. apply Z.mod_pos_bound. lia.
Qed.

(** One shift of the register: the feedback is the polynomial when bit 15 is
    set. *)
Lemma crc16_bit_eq (crc : Z) :
  crc16_bit crc
  = Z.lxor (u16 (Z.shiftl crc 1)) (if Z.testbit crc 15 then CRC16_POLY else 0).
Proof.
  unfold crc16_bit. change 0x8000 with (2 ^ 15). rewrite land_pow2 by lia.
  destruct (Z.testbit crc 15); cbn [Z.eqb Z.pow Z.pow_pos Pos.iter Z.mul Pos.mul].
  - rewrite u16_lxor. reflexivity.
  - now rewrite Z.lxor_0_r.
Qed.

Lemma crc16_bit_lxor (x y : Z) :
  crc16_bit (Z.lxor x y) = Z.lxor (crc16_bit x) (crc16_bit y).
Proof.
  rewrite !crc16_bit_eq, Z.shiftl_lxor, u16_lxor, Z.lxor_spec.
  apply Z.bits_inj'. intros n Hn. rewrite !Z.lxor_spec.
  destruct (Z.testbit x 15), (Z.testbit y 15); cbn [xorb];
    rewrite ?Z.bits_0; 
    destruct (Z.testbit (u16 (Z.shiftl x 1)) n), (Z.testbit (u16 (Z.shiftl y 1)) n),
             (Z.testbit CRC16_POLY n); reflexivity.
Qed.

Lemma crc16_bit_kernel (x : Z) : 0 <= x < 0x10000 -> crc16_bit x = 0 -> x = 0.
Proof.
  intros Hx H. rewrite crc16_bit_eq in H. apply Z.lxor_eq in H.
  rewrite Z.shiftl_mul_pow2 in H by lia. unfold u16, CRC16_POLY in H.
  pose proof (Z.testbit_spec' x 15 ltac:(lia)) as Hb. change (2 ^ 15) with 32768 in Hb.
  destruct (Z.testbit x 15); cbn [Z.b2z] in Hb; Z.div_mod_to_equations; lia.
Qed.

Lemma iter_crc16_bit_lxor (n : nat) (x y : Z) :
  Nat.iter n crc16_bit (Z.lxor x y)
  = Z.lxor (Nat.iter n crc16_bit x) (Nat.iter n crc16_bit y).
Proof.
  induction n as [|n IH]; [reflexivity|]. rewrite !Nat.iter_succ. now rewrite IH, crc16_bit_lxor.
Qed.

Lemma iter_crc16_bit_range (n : nat) (x : Z) :
  0 <= x < 0x10000 -> 0 <= Nat.iter n crc16_bit x < 0x10000.
Proof. intros Hx. destruct n; [exact Hx|]. rewrite Nat.iter_succ. apply crc16_bit_range. Qed.

Lemma iter_crc16_bit_kernel (n : nat) (x : Z) :
  0 <= x < 0x10000 -> Nat.iter n crc16_bit x = 0 -> x = 0.
Proof.
  intros Hx. induction n as [|n IH]; [auto|]. rewrite Nat.iter_succ. intros H.
  apply IH. apply crc16_bit_kernel; [now apply iter_crc16_bit_range|exact H].
Qed.

Lemma crc16_byte_range (crc byte : Z) : 0 <= crc16_byte crc byte < 0x10000.
Proof. unfold crc16_byte. rewrite Nat.iter_succ. apply crc16_bit_range. Qed.

(** Two registers stay different over a common byte. *)
Lemma crc16_byte_inj_l (c1 c2 byte : Z) :
  0 <= c1 < 0x10000 -> 0 <= c2 < 0x10000 ->
  crc16_byte c1 byte = crc16_byte c2 byte -> c1 = c2.
Proof.
  intros H1 H2 E. apply Z.lxor_eq. 
  apply (iter_crc16_bit_kernel 8); [now apply lxor_u16_range|].
  rewrite iter_crc16_bit_lxor.
  replace (Nat.iter 8 crc16_bit c1)
    with (Z.lxor (crc16_byte c1 byte) (Nat.iter 8 crc16_bit (u16 (Z.shiftl byte 8)))).
  2: { unfold crc16_byte. rewrite iter_crc16_bit_lxor, Z.lxor_assoc, Z.lxor_nilpotent.
       apply Z.lxor_0_r. }
  replace (Nat.iter 8 crc16_bit c2)
    with (Z.lxor (crc16_byte c2 byte) (Nat.iter 8 crc16_bit (u16 (Z.shiftl byte 8)))).
  2: { unfold crc16_byte. rewrite iter_crc16_bit_lxor, Z.lxor_assoc, Z.lxor_nilpotent.
       apply Z.lxor_0_r. }
  rewrite E. apply Z.lxor_nilpotent.
Qed.

(** One register gives different results on two different bytes. *)
Lemma crc16_byte_inj_r (c b1 b2 : Z) :
  0 <= c < 0x10000 -> in_u8 b1 -> in_u8 b2 ->
  crc16_byte c b1 = crc16_byte c b2 -> b1 = b2.
Proof.
  unfold in_u8. intros Hc H1 H2 E. unfold crc16_byte in E.
  assert (Hs : forall b, 0 <= b < 0x100 -> u16 (Z.shiftl b 8) = b * 256).
  { intros b Hb. rewrite Z.shiftl_mul_pow2 by lia. apply u16_id. change (2 ^ 8) with 256. lia. }
  rewrite !Hs in E by assumption.
  assert (E' : Z.lxor (Z.lxor c (b1 * 256)) (Z.lxor c (b2 * 256)) = 0).
  { apply (iter_crc16_bit_kernel 8).
    - apply lxor_u16_range; apply lxor_u16_range; lia.
    - rewrite iter_crc16_bit_lxor, E. apply Z.lxor_nilpotent. }
  apply Z.lxor_eq in E'.
  assert (Z.lxor c (Z.lxor c (b1 * 256)) = Z.lxor c (Z.lxor c (b2 * 256))) as E2 by now rewrite E'.
  rewrite <- !Z.lxor_assoc, Z.lxor_nilpotent, !Z.lxor_0_l in E2. lia.
Qed.

Lemma crc16_fold_inj (data : list Z) (c1 c2 : Z) :
  0 <= c1 < 0x10000 -> 0 <= c2 < 0x10000 -> c1 <> c2 ->
  fold_left crc16_byte data c1 <> fold_left crc16_byte data c2.
Proof.
  revert c1 c2. induction data as [|b data IH]; intros c1 c2 H1 H2 Hne; [exact Hne|].
  cbn [fold_left]. apply IH; try apply crc16_byte_range.
  intros E. apply Hne. now apply crc16_byte_inj_l in E.
Qed.

Lemma crc16_byte_error (data : list Z) (i : nat) (byte byte' : Z) :
  data !! i = Some byte -> in_u8 byte -> in_u8 byte' -> byte' <> byte ->
  crc16_ccitt (<[i := byte']> data) <> crc16_ccitt data.
Proof.
  unfold crc16_ccitt. intros Hi Hb Hb' Hne.
  assert (H0 : 0 <= CRC16_INIT < 0x10000) by (unfold CRC16_INIT; lia).
  revert H0. generalize CRC16_INIT. revert i Hi.
  induction data as [|b data IH]; intros i Hi c Hc; [discriminate Hi|].
  destruct i as [|i].
  - cbn in Hi. injection Hi as ->. cbn [insert list_insert fold_left].
    apply crc16_fold_inj; try apply crc16_byte_range.
    intros E. apply Hne. now apply crc16_byte_inj_r in E.
  - cbn [insert list_insert fold_left]. apply (IH i Hi). apply crc16_byte_range.
Qed.

(** X12: the CRC tells any corruption of a single byte.  If one byte of a
    message is replaced by a different byte, the CRC of the message changes,
    wherever the byte is and however long the message is. *)
Theorem crc16_detects_byte_error (data : list Z) (i : nat) (byte byte' : Z) :
  data !! i = Some byte -> in_u8 byte -> in_u8 byte' -> byte' <> byte ->
  crc16_ccitt (<[i := byte']> data) <> crc16_ccitt data.
Proof. apply crc16_byte_error. Qed.

Lemma crc16_detects_byte_error_witness :
  crc16_ccitt (<[1%nat := 0x33]> [0x31; 0x32; 0x33]) <> crc16_ccitt [0x31; 0x32; 0x33].
Proof.
  apply (crc16_detects_byte_error [0x31; 0x32; 0x33] 1 0x32 0x33 eq_refl);
    unfold in_u8; lia.
Defined.

Lemma lookup_nth_Z (l : list Z) (i : nat) :
  (i < length l)%nat -> l !! i = Some (nth i l 0).
Proof.
  intros H. destruct (lookup_lt_is_Some_2 l i H) as [x Hx].
  now rewrite nth_lookup, Hx.
Qed.

(** X13: a packet with one corrupted payload byte fails its check.  When a
    byte of the payload of an encoded packet is replaced by another byte, the
    CRC field of the header no longer equals the CRC of the payload. *)
Theorem packet_corruption_detected raw amp ph sig stage zf ts out (i : nat) (byte' : Z) :
  length out = Z.to_nat PACKET_BYTES ->
  in_u8 stage -> in_u8 (gate_flags sig) -> in_u8 (loop_flags sig) ->
  (12 <= i < 383)%nat -> in_u8 byte' ->
  let packet := encodePacket raw amp ph sig stage zf ts out in
  byte' <> nth i packet 0 ->
  let packet' := <[i := byte']> packet in
  le_value (slice 10 2 packet) = crc16_ccitt (packet_payload packet) /\
  (le_value (slice 10 2 packet') <> crc16_ccitt (packet_payload packet')).
Proof.
  intros Hout Hs Hg Hl Hi Hb' packet Hne packet'.
  pose proof (encodePacket_in_u8 raw amp ph sig stage zf ts out Hout Hs Hg Hl) as Hbytes.
  fold packet in Hbytes. subst packet'.
  assert (E : packet = header_bytes ts (crc16_ccitt (payload_bytes raw amp ph sig stage zf))
                       ++ payload_bytes raw amp ph sig stage zf)
    by (subst packet; now apply encodePacket_eq).
  set (p := payload_bytes raw amp ph sig stage zf) in *.
  set (h := header_bytes ts (crc16_ccitt p)) in *.
  assert (Hh : length h = 12%nat) by reflexivity.
  assert (Hp : length p = 371%nat) by reflexivity.
  pose proof (crc16_ccitt_range p) as Hcrc.
  assert (Hfield : forall q, le_value (slice 10 2 (h ++ q)) = crc16_ccitt p).
  { intros q. rewrite slice_app_l by (rewrite Hh; lia).
    change (slice 10 2 h) with (writeUint16LE (crc16_ccitt p)).
    rewrite le_value_u16. now apply u16_small. }
  assert (Hpay : forall q, packet_payload (h ++ q) = q).
  { intros q. unfold packet_payload. change (Z.to_nat HEADER_SIZE) with (length h).
    apply drop_app_length. }
  rewrite E in *. clear E packet.
  rewrite insert_app_r_alt by lia. rewrite Hh, !Hfield, !Hpay.
  split; [reflexivity|].
  assert (Hlk : p !! (i - 12)%nat = Some (nth i (h ++ p) 0)).
  { rewrite app_nth2 by lia. rewrite Hh. apply lookup_nth_Z. lia. }
  intros Heq. symmetry in Heq. revert Heq.
  apply crc16_byte_error with (byte := nth i (h ++ p) 0); auto.
  rewrite Forall_forall in Hbytes. apply Hbytes.
  apply list_elem_of_lookup. exists i. apply lookup_nth_Z.
  rewrite length_app. lia.
Qed.

Lemma packet_corruption_detected_witness :
  let packet := encodePacket (replicate 8 0) (flat_matrix f32_one) (flat_matrix f32_zero)
                  blank_result 3 1111 1000 (replicate 383 0) in
  le_value (slice 10 2 (<[380%nat := 0x55]> packet))
  <> crc16_ccitt (packet_payload (<[380%nat := 0x55]> packet)).
Proof.
  refine (proj2 (packet_corruption_detected (replicate 8 0) (flat_matrix f32_one)
                   (flat_matrix f32_zero) blank_result 3 1111 1000 (replicate 383 0)
                   380 0x55 eq_refl _ _ _ _ _ _)).
  - unfold in_u8. lia.
  - unfold in_u8. cbn. lia.
  - unfold in_u8. cbn. lia.
  - lia.
  - unfold in_u8. lia.
  - vm_compute. discriminate.
Defined.

(** ** The frames of [loop()] *)

Lemma imap_replicate {A B} (f : nat -> A -> B) (g : A -> B) (n : nat) (x : A) :
  (forall i, f i x = g x) -> imap f (replicate n x) = replicate n (g x).
Proof.
  intros H. revert f H. induction n as [|n IH]; intros f H; [reflexivity|].
  cbn [replicate imap]. rewrite H. f_equal. apply IH. intros i. apply H.
Qed.

(** X14: silence through [loop()].  A converter count of 0 is the sample +0,
    so [n] all-zero frames leave each of the eight processors in the state of
    a processor fed [n] zero samples, and their snapshot is the silent
    snapshot. *)
Theorem silent_frames_eq (M : Libm) (n : nat) :
  sample_uv_of 0 = f32_zero /\
  silent_frames M n = replicate CHANNEL_COUNT (silent_bank M n) /\
  snapshot_all (silent_frames M n) = silent_snapshot M n.
Proof.
  assert (H0 : sample_uv_of 0 = f32_zero) by (vm_compute; reflexivity).
  assert (E : silent_frames M n = replicate CHANNEL_COUNT (silent_bank M n)).
  { unfold silent_frames, silent_bank. induction n as [|n IH]; [reflexivity|].
    rewrite Nat.iter_succ, IH. unfold process_frame.
    rewrite (imap_replicate _ (fun p => process M p f32_zero)).
    - now rewrite replicate_S_end, lockin_run_snoc.
    - intros i.
      assert (Hz : nth i (replicate CHANNEL_COUNT 0) 0 = 0).
      { destruct (nth_lookup_or_length (replicate CHANNEL_COUNT 0) i 0) as [Hi | Hi].
        + apply lookup_replicate in Hi as [Hi _]. exact Hi.
        + apply nth_overflow. lia. }
      rewrite Hz, H0. reflexivity. }
  split; [exact H0|]. split; [exact E|]. rewrite E. reflexivity.
Qed.

(** ** More on [compose] *)

(** X15: the fingerprint does not depend on the composer's memory.  The digits,
    the coherence and the entropy of a [compose] call are the same from any
    two composer states; only the gate and loop flags look at the past. *)
Theorem compose_stateless (M : Libm) (fuel : nat) (self1 self2 : SigprintComposer)
    (amplitude phases : BandMatrix) (stage_hint : Z) :
  let view := fun x : SigprintResult * SigprintComposer =>
                (digits (fst x), coherence (fst x), entropy (fst x)) in
  option_map view (compose M fuel self1 amplitude phases stage_hint)
  = option_map view (compose M fuel self2 amplitude phases stage_hint).
Proof.
  cbv zeta. unfold compose.
  destruct (wrap_below fuel (phase_diff_deg_of M phases)) as [deg|]; [|reflexivity].
  cbn [mbind option_bind].
  destruct (wrap_above fuel deg) as [phase_diff_deg|]; [|reflexivity].
  cbn [mbind option_bind option_map]. rewrite !compose_finish_eq.
  cbv zeta. cbn [fst digits coherence entropy]. reflexivity.
Qed.

Lemma set_flag_range5 (flags : Z) (band : nat) :
  0 <= flags < 32 -> (band < BAND_COUNT)%nat -> 0 <= set_flag flags band < 32.
Proof.
  intros Hf Hb.
  assert (H : forallb (fun f => forallb (fun b => (0 <=? set_flag (Z.of_nat f) b)
                                                  && (set_flag (Z.of_nat f) b <? 32))
                                        (seq 0 BAND_COUNT))
                      (seq 0 32) = true) by (vm_compute; reflexivity).
  rewrite forallb_forall in H. specialize (H (Z.to_nat flags) ltac:(apply in_seq; lia)).
  rewrite forallb_forall in H. specialize (H band ltac:(apply in_seq; lia)).
  rewrite Z2Nat.id in H by lia. apply andb_true_iff in H as [H1 H2]. lia.
Qed.

Lemma detect_fold_flags (avg : list f32) (bands : list nat) :
  Forall (fun band => (band < BAND_COUNT)%nat) bands ->
  forall self gate loop self' gate' loop',
    0 <= gate < 32 -> 0 <= loop < 32 ->
    fold_left (detect_band avg) bands (self, gate, loop) = (self', gate', loop') ->
    0 <= gate' < 32 /\ 0 <= loop' < 32.
Proof.
  induction 1 as [|band bands Hband _ IH]; intros self gate loop self' gate' loop' Hg Hl.
  - cbn. intros [= _ <- <-]. auto.
  - cbn [fold_left]. rewrite detect_band_step. apply IH.
    + destruct (_ && _); [now apply set_flag_range5|exact Hg].
    + destruct (_ && _ && _); [now apply set_flag_range5|exact Hl].
Qed.

Lemma compose_finish_flags (M : Libm) (self : SigprintComposer)
    (amplitude phases : BandMatrix) (stage_hint : Z) (deg : f32) :
  let r := fst (compose_finish M self amplitude phases stage_hint deg) in
  0 <= gate_flags r < 32 /\ 0 <= loop_flags r < 32.
Proof.
  cbv zeta. rewrite compose_finish_eq. cbv zeta. cbn [fst gate_flags loop_flags].
  destruct (fold_left (detect_band (avg_powers amplitude)) (seq 0 BAND_COUNT) (self, 0, 0))
    as [[s g] l] eqn:E.
  cbn [fst snd]. eapply detect_fold_flags; [|split|split|exact E]; try lia.
  apply Forall_forall. intros band Hb. apply list_elem_of_In, in_seq in Hb. lia.
Qed.

(** X16: only five flag bits exist.  The gate and loop flags of every
    fingerprint are below 32: bits 5, 6 and 7 of the two flag bytes are never
    set. *)
Theorem compose_flags_range (M : Libm) (fuel : nat) (self : SigprintComposer)
    (amplitude phases : BandMatrix) (stage_hint : Z) :
  atan2f_in_range M -> (23 <= fuel)%nat ->
  exists r self',
    compose M fuel self amplitude phases stage_hint = Some (r, self') /\
    0 <= gate_flags r < 32 /\ 0 <= loop_flags r < 32.
Proof.
  intros HM Hfuel.
  destruct (compose_returns M fuel self amplitude phases stage_hint HM Hfuel)
    as (deg & r & self' & E & Ef).
  exists r, self'. split; [exact E|].
  pose proof (compose_finish_flags M self amplitude phases stage_hint deg) as H.
  rewrite Ef in H. exact H.
Qed.

Lemma compose_flags_range_witness :
  exists r self',
    compose RefLibm.libm 23 SigprintComposer_new uniform_amplitude uniform_phases 3
      = Some (r, self') /\
    0 <= gate_flags r < 32 /\ 0 <= loop_flags r < 32.
Proof.
  exact (compose_flags_range RefLibm.libm 23 SigprintComposer_new uniform_amplitude
           uniform_phases 3 RefLibm_atan2f_in_range (le_n 23)).
Defined.

Lemma compose_run_fill (M : Libm) (fuel : nat) calls (self : SigprintComposer) :
  atan2f_in_range M -> (23 <= fuel)%nat -> composer_inv self ->
  exists self',
    compose_run M fuel calls self = Some self' /\ composer_inv self' /\
    forall band, (band < BAND_COUNT)%nat ->
      band_fill self' band
      = Z.min (band_fill self band + Z.of_nat (length calls)) HISTORY_WINDOW.
Proof.
  intros HM Hfuel. revert self.
  induction calls as [|[[amp ph] sh] calls IH]; intros self Hinv.
  - exists self. split; [reflexivity|]. split; [exact Hinv|]. intros band Hband.
    destruct Hinv as [_ Hb]. destruct (Hb band Hband) as [_ Hf].
    cbn [length]. lia.
  - cbn [compose_run].
    destruct (compose_returns M fuel self amp ph sh HM Hfuel) as (deg & r & self1 & E & Ef).
    rewrite E. pose proof (compose_finish_inv _ _ _ _ _ _ _ _ Hinv Ef) as Hinv1.
    destruct (IH self1 Hinv1) as (self' & Er & Hi & Hfill).
    exists self'. split; [exact Er|]. split; [exact Hi|]. intros band Hband.
    rewrite (Hfill band Hband).
    destruct Hinv as [Hwf Hb]. destruct (Hb band Hband) as [_ Hf].
    destruct (compose_finish_spec M self amp ph sh deg r self1 Hwf Ef) as (_ & _ & _ & _ & Hs).
    destruct (Hs band Hband) as (_ & -> & _).
    pose proof (next_fill_range _ Hf) as [_ ->]. cbn [length]. unfold HISTORY_WINDOW in *. lia.
Qed.

Lemma flags_zero (x : Z) :
  0 <= x < 32 ->
  (forall band, (band < BAND_COUNT)%nat -> Z.testbit x (Z.of_nat band) = false) -> x = 0.
Proof.
  intros Hx Hbits. apply Z.bits_inj'. intros k Hk. rewrite Z.bits_0.
  destruct (Z.ltb_spec k 5).
  - specialize (Hbits (Z.to_nat k) ltac:(unfold BAND_COUNT; lia)).
    now rewrite Z2Nat.id in Hbits by lia.
  - apply Z.testbit_false; [lia|]. rewrite Z.div_small; [reflexivity|]. split; [lia|].
    apply Z.lt_le_trans with (2 ^ 5); [lia|apply Z.pow_le_mono_r; lia].
Qed.

(** X17: no loop bit before the 21st call.  A composer that has gone through
    fewer than 20 [compose] calls since its construction returns
    [loop_flags = 0] on the next call, whatever the amplitudes are: the
    look-back needs more than 20 entries in the history. *)
Theorem compose_no_early_loop (M : Libm) (fuel : nat)
    (calls : list (BandMatrix * BandMatrix * Z))
    (amplitude phases : BandMatrix) (stage_hint : Z) :
  atan2f_in_range M -> (23 <= fuel)%nat -> (length calls < 20)%nat ->
  exists self r self',
    compose_run M fuel calls SigprintComposer_new = Some self /\
    compose M fuel self amplitude phases stage_hint = Some (r, self') /\
    loop_flags r = 0.
Proof.
  intros HM Hfuel Hn.
  destruct (compose_run_fill M fuel calls SigprintComposer_new HM Hfuel composer_inv_new)
    as (self & Er & Hinv & Hfill).
  destruct (compose_returns M fuel self amplitude phases stage_hint HM Hfuel)
    as (deg & r & self' & E & Ef).
  exists self, r, self'. split; [exact Er|]. split; [exact E|].
  pose proof (compose_finish_flags M self amplitude phases stage_hint deg) as [_ Hr].
  rewrite Ef in Hr. cbn [fst] in Hr.
  apply flags_zero; [exact Hr|]. intros band Hband.
  destruct Hinv as [Hwf Hb]. destruct (Hb band Hband) as [_ Hf].
  destruct (compose_finish_spec M self amplitude phases stage_hint deg r self' Hwf Ef)
    as (_ & _ & _ & _ & Hs).
  destruct (Hs band Hband) as (_ & Hf' & _ & _ & ->).
  rewrite Hf', (Hfill band Hband).
  pose proof (next_fill_range _ Hf) as [_ Hnext]. rewrite (Hfill band Hband) in Hnext.
  rewrite Hnext.
  assert (E0 : band_fill SigprintComposer_new band = 0).
  { unfold BAND_COUNT in Hband. do 5 (destruct band as [|band]; [reflexivity|]). lia. }
  rewrite E0.
  replace (20 <? _) with false; [now rewrite andb_false_r|].
  symmetry. apply Z.ltb_ge. unfold HISTORY_WINDOW. lia.
Qed.

Lemma compose_no_early_loop_witness :
  exists self r self',
    compose_run RefLibm.libm 23
      (replicate 19 (flat_matrix f32_one, flat_matrix f32_zero, 1)) SigprintComposer_new
      = Some self /\
    compose RefLibm.libm 23 self (flat_matrix f32_one) (flat_matrix f32_zero) 1
      = Some (r, self') /\
    loop_flags r = 0.
Proof.
  refine (compose_no_early_loop RefLibm.libm 23
            (replicate 19 (flat_matrix f32_one, flat_matrix f32_zero, 1))
            (flat_matrix f32_one) (flat_matrix f32_zero) 1
            RefLibm_atan2f_in_range (le_n 23) _).
  cbn. lia.
Defined.

(** X18: the stage hint reaches digit 17 and nothing else but the checksum.
    Two [compose] calls that differ only in the stage hint return the same
    first 17 digits and leave the composer in the same state; digit 17 is the
    stage hint modulo 10. *)
Theorem compose_stage_digit (M : Libm) (fuel : nat) (self : SigprintComposer)
    (amplitude phases : BandMatrix) (stage_hint1 stage_hint2 : Z) :
  atan2f_in_range M -> (23 <= fuel)%nat ->
  exists r1 self1 r2 self2,
    compose M fuel self amplitude phases stage_hint1 = Some (r1, self1) /\
    compose M fuel self amplitude phases stage_hint2 = Some (r2, self2) /\
    nth 17 (digits r1) 0 = stage_hint1 mod 10 /\
    take 17 (digits r1) = take 17 (digits r2) /\
    self1 = self2.
Proof.
  intros HM Hfuel.
  destruct (compose_terminates M fuel self amplitude phases stage_hint1 HM Hfuel) as (deg & E1).
  unfold compose in E1 |- *.
  destruct (wrap_below fuel (phase_diff_deg_of M phases)) as [d|]; [|discriminate E1].
  cbn [mbind option_bind] in E1 |- *.
  destruct (wrap_above fuel d) as [d'|]; [|discriminate E1].
  clear E1. cbn [mbind option_bind].
  rewrite !compose_finish_eq. cbv zeta.
  do 4 eexists. split; [reflexivity|]. split; [reflexivity|].
  cbn [digits].
  unfold digits18_of. destruct (regional_pct M amplitude) as [frontal occipital].
  unfold two_digits, coherence_digits, BAND_COUNT. cbn [app map seq nth take].
  split; [|split; reflexivity].
  unfold u8. pose proof (Z.mod_pos_bound stage_hint1 10). apply Z.mod_small. lia.
Qed.

Lemma compose_stage_digit_witness :
  exists r1 self1 r2 self2,
    compose RefLibm.libm 23 SigprintComposer_new uniform_amplitude uniform_phases 3
      = Some (r1, self1) /\
    compose RefLibm.libm 23 SigprintComposer_new uniform_amplitude uniform_phases 14
      = Some (r2, self2) /\
    nth 17 (digits r1) 0 = 3 mod 10 /\
    take 17 (digits r1) = take 17 (digits r2) /\
    self1 = self2.
Proof.
  exact (compose_stage_digit RefLibm.libm 23 SigprintComposer_new uniform_amplitude
           uniform_phases 3 14 RefLibm_atan2f_in_range (le_n 23)).
Defined.

(** ** NaN *)

Lemma f32_add_nan_r (x : f32) : (x + S754_nan)%f32 = S754_nan.
Proof. destruct x; reflexivity. Qed.

Lemma fold_add_nan {A} (f : A -> f32) (l : list A) :
  fold_left (fun acc x => (acc + f x)%f32) l S754_nan = S754_nan.
Proof. induction l as [|x l IH]; [reflexivity|]. cbn [fold_left]. exact IH. Qed.

Lemma accumulate_nan {A} (f : A -> f32) (l : list A) (x : A) :
  In x l -> f x = S754_nan -> accumulate f l = S754_nan.
Proof.
  unfold accumulate. generalize f32_zero. induction l as [|y l IH]; intros acc Hin Hx.
  - destruct Hin.
  - cbn [fold_left]. destruct Hin as [-> | Hin].
    + rewrite Hx, f32_add_nan_r. apply fold_add_nan.
    + now apply IH.
Qed.

Lemma band_coherence_nan (M : Libm) (phases : BandMatrix) (band ch : nat) :
  sinf M S754_nan = S754_nan ->
  (ch < CHANNEL_COUNT)%nat -> mat_get phases ch band = S754_nan ->
  band_coherence_of M phases band = f32_one.
Proof.
  intros Hsin Hch Hnan. unfold band_coherence_of.
  rewrite (accumulate_nan (fun ch => sinf M (mat_get phases ch band)) _ ch).
  - reflexivity.
  - apply in_seq. lia.
  - now rewrite Hnan.
Qed.

(** X19: a NaN phase counts as full coherence.  With a [sinf] that maps NaN to
    NaN, a band in which some channel's phase is NaN gets the band coherence
    1, because [clampValue] turns the NaN magnitude into its upper bound; when
    every band has such a channel the coherence of the fingerprint is 1. *)
Theorem coherence_of_nan_phases (M : Libm) (phases : BandMatrix) :
  sinf M S754_nan = S754_nan ->
  (forall band ch, (ch < CHANNEL_COUNT)%nat -> mat_get phases ch band = S754_nan ->
     band_coherence_of M phases band = f32_one) /\
  ((forall band, (band < BAND_COUNT)%nat ->
      exists ch, (ch < CHANNEL_COUNT)%nat /\ mat_get phases ch band = S754_nan) ->
   coherence_of M phases = f32_one /\ coherence_digits M (coherence_of M phases) = [9; 9; 9; 9]).
Proof.
  intros Hsin. split.
  - intros band ch. now apply band_coherence_nan.
  - intros Hall.
    assert (Hb : forall band, (band < BAND_COUNT)%nat ->
              band_coherence_of M phases band = f32_one).
    { intros band Hband. destruct (Hall band Hband) as (ch & Hch & Hnan).
      now apply (band_coherence_nan M phases band ch). }
    assert (E : coherence_of M phases = f32_one).
    { unfold coherence_of, accumulate, BAND_COUNT in *. cbn [seq fold_left].
      rewrite !Hb by lia. vm_compute. reflexivity. }
    split; [exact E|]. rewrite E. apply coherence_digits_one.
Qed.

Lemma coherence_of_nan_phases_witness :
  coherence_of RefLibm.libm (flat_matrix S754_nan) = f32_one.
Proof.
  refine (proj1 (proj2 (coherence_of_nan_phases RefLibm.libm (flat_matrix S754_nan) eq_refl) _)).
  intros band Hband. exists 0%nat. split; [unfold CHANNEL_COUNT; lia|].
  unfold BAND_COUNT in Hband. do 5 (destruct band as [|band]; [reflexivity|]). lia.
Defined.

(** X20: [clampValue] and NaN.  On [float] with bounds that are not NaN the
    result is never a NaN and is the value or one of the bounds: it is the
    value when that lies strictly between the bounds, [min_v] when the value
    is below [max_v] but not above [min_v], and [max(min_v, max_v)] when the
    value is not below [max_v]; a NaN value is such a value, and gives the
    upper bound when the bounds are in order. *)
Theorem clampValue_f32_nan (x lo hi : f32) :
  lo <> S754_nan -> hi <> S754_nan ->
  clampValue f32_lt x lo hi <> S754_nan /\
  clampValue f32_lt S754_nan lo hi = std_max f32_lt lo hi /\
  ((lo <? hi)%f32 = true -> clampValue f32_lt S754_nan lo hi = hi) /\
  ((lo <? x)%f32 = true -> (x <? hi)%f32 = true -> clampValue f32_lt x lo hi = x) /\
  ((x <? hi)%f32 = true -> (lo <? x)%f32 = false -> clampValue f32_lt x lo hi = lo) /\
  ((x <? hi)%f32 = false -> clampValue f32_lt x lo hi = std_max f32_lt lo hi) /\
  ((x <? hi)%f32 = false -> (lo <? hi)%f32 = true -> clampValue f32_lt x lo hi = hi) /\
  ((x <? hi)%f32 = false -> (lo <? hi)%f32 = false -> clampValue f32_lt x lo hi = lo) /\
  (clampValue f32_lt x lo hi = x \/ clampValue f32_lt x lo hi = lo \/
   clampValue f32_lt x lo hi = hi).
Proof.
  intros Hlo Hhi. unfold clampValue, std_max, std_min.
  assert (En : f32_lt S754_nan hi = false) by (destruct hi; reflexivity).
  rewrite En. repeat split.
  - destruct (f32_lt x hi) eqn:E1.
    + destruct (f32_lt lo x) eqn:E2; [|exact Hlo].
      intros ->. rewrite En in E1. discriminate E1.
    + destruct (f32_lt lo hi); assumption.
  - intros H. now rewrite H.
  - intros H1 H2. now rewrite H2, H1.
  - intros H1 H2. now rewrite H1, H2.
  - intros H1. now rewrite H1.
  - intros H1 H2. now rewrite H1, H2.
  - intros H1 H2. now rewrite H1, H2.
  - destruct (f32_lt x hi); [destruct (f32_lt lo x)|destruct (f32_lt lo hi)]; auto.
Qed.

Lemma clampValue_f32_nan_witness :
  clampValue f32_lt S754_nan f32_zero (f32_lit 9995 10000) = f32_lit 9995 10000.
Proof.
  refine (proj1 (proj2 (proj2 (clampValue_f32_nan S754_nan f32_zero (f32_lit 9995 10000) _ _))) _).
  - discriminate.
  - vm_compute. discriminate.
  - vm_compute. reflexivity.
Defined.


(** ** [crc16_ccitt] is CRC-16/CCITT-FALSE *)

Lemma spec_crc_shift_eq (reg : Z) (bit : bool) :
  spec_crc_shift CRC16_CCITT_FALSE reg bit
  = crc16_bit (Z.lxor reg (if bit then 0x8000 else 0)).
Proof.
  unfold spec_crc_shift. cbn [crc_width crc_poly CRC16_CCITT_FALSE]. cbv zeta.
  rewrite crc16_bit_eq, Z.shiftl_lxor, u16_lxor, Z.lxor_spec.
  change (16 - 1) with 15.
  assert (E1 : u16 (Z.shiftl reg 1) = (2 * reg) mod 2 ^ 16).
  { unfold u16. rewrite Z.shiftl_mul_pow2 by lia. f_equal. lia. }
  assert (E2 : u16 (Z.shiftl (if bit then 0x8000 else 0) 1) = 0) by (destruct bit; reflexivity).
  assert (E3 : Z.testbit (if bit then 0x8000 else 0) 15 = bit) by (destruct bit; reflexivity).
  rewrite E1, E2, E3, Z.lxor_0_r.
  destruct (xorb (Z.testbit reg 15) bit); [reflexivity|now rewrite Z.lxor_0_r].
Qed.

Lemma spec_crc_fold_lxor (bits : list bool) (x y : Z) :
  fold_left (spec_crc_shift CRC16_CCITT_FALSE) bits (Z.lxor x y)
  = Z.lxor (Nat.iter (length bits) crc16_bit x)
           (fold_left (spec_crc_shift CRC16_CCITT_FALSE) bits y).
Proof.
  revert x y. induction bits as [|b bits IH]; intros x y; [reflexivity|].
  cbn [fold_left length]. rewrite !spec_crc_shift_eq.
  rewrite Z.lxor_assoc, crc16_bit_lxor, IH.
  rewrite Nat.iter_succ_r. reflexivity.
Qed.

Lemma spec_byte_bits_mod (byte : Z) :
  spec_byte_bits false byte = spec_byte_bits false (byte mod 256).
Proof.
  unfold spec_byte_bits. cbn [map]. change 256 with (2 ^ 8).
  rewrite !Z.mod_pow2_bits_low by (cbn; lia). reflexivity.
Qed.

Lemma u16_shiftl8_mod (byte : Z) : u16 (Z.shiftl byte 8) = u16 (Z.shiftl (byte mod 256) 8).
Proof.
  unfold u16. rewrite !Z.shiftl_mul_pow2 by lia. change (2 ^ 8) with 256.
  Z.div_mod_to_equations. lia.
Qed.

Lemma spec_crc_byte_zero (byte : Z) :
  fold_left (spec_crc_shift CRC16_CCITT_FALSE) (spec_byte_bits false byte) 0
  = Nat.iter 8 crc16_bit (u16 (Z.shiftl byte 8)).
Proof.
  rewrite spec_byte_bits_mod, u16_shiftl8_mod.
  pose proof (Z.mod_pos_bound byte 256 eq_refl) as Hb.
  generalize dependent (byte mod 256). intros b Hb.
  assert (Hall : forallb (fun n =>
                   fold_left (spec_crc_shift CRC16_CCITT_FALSE)
                             (spec_byte_bits false (Z.of_nat n)) 0
                   =? Nat.iter 8 crc16_bit (u16 (Z.shiftl (Z.of_nat n) 8)))
                 (seq 0 256) = true) by (vm_compute; reflexivity).
  rewrite forallb_forall in Hall. specialize (Hall (Z.to_nat b) ltac:(apply in_seq; lia)).
  rewrite Z2Nat.id in Hall by lia. now apply Z.eqb_eq.
Qed.

Lemma spec_crc_byte (reg byte : Z) :
  fold_left (spec_crc_shift CRC16_CCITT_FALSE) (spec_byte_bits false byte) reg
  = crc16_byte reg byte.
Proof.
  rewrite <- (Z.lxor_0_r reg) at 1. rewrite spec_crc_fold_lxor, spec_crc_byte_zero.
  unfold crc16_byte. rewrite iter_crc16_bit_lxor. reflexivity.
Qed.

(** The function of the firmware computes the CRC that the spec names. *)
Lemma crc16_ccitt_spec (data : list Z) :
  crc16_ccitt data = spec_crc CRC16_CCITT_FALSE data.
Proof.
  unfold spec_crc, crc16_ccitt. cbn [crc_refin crc_refout crc_xorout crc_init CRC16_CCITT_FALSE].
  cbv zeta. rewrite Z.lxor_0_r. change 0xFFFF with CRC16_INIT.
  generalize CRC16_INIT. induction data as [|b data IH]; intros reg; [reflexivity|].
  cbn [fold_left flat_map]. rewrite fold_left_app, spec_crc_byte. apply IH.
Qed.



(** ** An upper bound of the entropy *)

(** ** An upper bound of the entropy *)

Lemma f32_finb_fin (x : f32) : f32_finb x = true -> f32_fin x.
Proof.
  destruct x as [s|s| |s m e]; cbn; try discriminate; [trivial|].
  intros H. apply andb_true_iff in H as [H1 H2]. lia.
Qed.

Lemma sgn_in_val_nonneg (x : f32) : sgn_in false x -> 0 <= f32_val x.
Proof.
  destruct x as [s|s| |s m e]; cbn [sgn_in f32_val]; try lia.
  intros ->. cbn [cond_Zopp]. pose proof (Z.pow_nonneg 2 (e + 149)). nia.
Qed.

Lemma sgn_in_val_nonpos (x : f32) : sgn_in true x -> f32_val x <= 0.
Proof.
  destruct x as [s|s| |s m e]; cbn [sgn_in f32_val]; try lia.
  intros ->. cbn [cond_Zopp]. pose proof (Z.pow_nonneg 2 (e + 149)). nia.
Qed.

Lemma ulp_near_cands (x ref : f32) : ulp_near x ref = true -> In x (ulp_cands ref).
Proof.
  unfold ulp_near. intros H.
  apply andb_true_iff in H as [H Hn]. apply andb_true_iff in H as [Hv Hf].
  apply Z.leb_le in Hn.
  rewrite <- (f32_of_bits_bits x Hv). unfold ulp_cands. apply in_map.
  pose proof (f32_bits_range x Hv) as Hb.
  assert (Hw : forall o, f32_ord x = o ->
            In (f32_bits x) ((if 0 <=? o then [o] else [])
                             ++ (if o <=? 0 then [0x80000000 - o] else []))).
  { intros o <-. unfold f32_ord. cbv zeta. apply in_app_iff.
    destruct (Z.ltb_spec (f32_bits x) 0x80000000).
    - left. destruct (Z.leb_spec 0 (f32_bits x)); [left; reflexivity|lia].
    - right. destruct (Z.leb_spec (- (f32_bits x - 0x80000000)) 0); [left; lia|lia]. }
  unfold ord_words. cbn [flat_map]. rewrite !in_app_iff.
  assert (Hc : f32_ord x = f32_ord ref - 1 \/ f32_ord x = f32_ord ref
               \/ f32_ord x = f32_ord ref + 1) by lia.
  destruct Hc as [E | [E | E]]; apply Hw in E; rewrite in_app_iff in E; tauto.
Qed.

Lemma entropy_terms_checked :
  forallb (fun n =>
             forallb (fun l =>
                        forallb (fun l2 => entropy_term_ok (Z.of_nat n) l l2)
                                (ulp_cands (RefLibm.logf (f32_of_Z 2))))
                     (ulp_cands (RefLibm.logf (f32_of_Z (Z.of_nat n) / f32_of_Z 20)%f32)))
          (seq 1 20) = true.
Proof. vm_compute. reflexivity. Qed.

Lemma entropy_budget :
  20 * entropy_slope + 10 * (entropy_intercept + entropy_round) < 2 ^ (2 + 149) /\
  100000 * (20 * entropy_slope + 10 * (entropy_intercept + entropy_round))
  <= 332194 * 2 ^ 149.
Proof. split; vm_compute; reflexivity || discriminate. Qed.

Lemma entropy_term_bound (M : Libm) (count : Z) :
  logf_signs M -> logf_near M -> 1 <= count <= 20 ->
  let t := entropy_term count (logf M (f32_of_Z count / f32_of_Z 20)%f32)
                        (logf M (f32_of_Z 2)) in
  f32_fin t /\ sgn_in true t /\
  - f32_val t <= entropy_slope * count + entropy_intercept.
Proof.
  intros (Hlog & Hl2 & Hf2) (Hnear & Hnear2) Hc t.
  assert (Hok : entropy_term_ok count (logf M (f32_of_Z count / f32_of_Z 20)%f32)
                                (logf M (f32_of_Z 2)) = true).
  { pose proof entropy_terms_checked as Hall.
    rewrite forallb_forall in Hall.
    specialize (Hall (Z.to_nat count) ltac:(apply in_seq; lia)).
    rewrite Z2Nat.id in Hall by lia.
    rewrite forallb_forall in Hall.
    specialize (Hall _ (ulp_near_cands _ _ (Hnear count Hc))).
    rewrite forallb_forall in Hall.
    exact (Hall _ (ulp_near_cands _ _ Hnear2)). }
  unfold entropy_term_ok in Hok. fold t in Hok.
  apply andb_true_iff in Hok as [Hfin Hle]. apply Z.leb_le in Hle.
  split; [now apply f32_finb_fin|]. split; [|exact Hle].
  subst t. unfold entropy_term.
  specialize (Hlog count Hc). apply sgn_in_nonpos in Hlog.
  destruct (probability_positive count Hc) as (pm & pe & Hp).
  rewrite Hp at 1.
  destruct (logf M (f32_of_Z 2)) as [[]|[]| |[] m2 e2];
    try discriminate Hl2; try discriminate Hf2.
  apply SFmul_sgn. now apply SFdiv_sgn.
Qed.

Lemma entropy_fold_bound (M : Libm) (counts : list Z) :
  logf_signs M -> logf_near M ->
  Forall (fun c => 0 <= c <= 20) counts ->
  forall (e : f32) (s k : Z),
    f32_fin e -> sgn_in false e -> 0 <= s -> 0 <= k ->
    f32_val e <= entropy_slope * s + (entropy_intercept + entropy_round) * k ->
    s + digit_sum counts <= 20 -> k + Z.of_nat (length counts) <= 10 ->
    let r := fold_left (fun entropy count =>
                          if count =? 0 then entropy
                          else
                            let p := (f32_of_Z count / f32_of_Z 20)%f32 in
                            (entropy - p * (logf M p / logf M (f32_of_Z 2)))%f32)
                       counts e in
    f32_fin r /\
    f32_val r <= 20 * entropy_slope + 10 * (entropy_intercept + entropy_round).
Proof.
  intros Hs Hn Hc.
  assert (HA : 0 <= entropy_slope) by (vm_compute; discriminate).
  assert (HB : 0 <= entropy_intercept + entropy_round) by (vm_compute; discriminate).
  assert (HR : 0 <= entropy_round) by (vm_compute; discriminate).
  destruct entropy_budget as [Hbud _].
  induction Hc as [|c counts Hc0 Hc IH]; intros e s k He Hsg Hs0 Hk0 Hv Hsum Hlen.
  - cbn [fold_left]. split; [exact He|]. cbn [digit_sum foldr length] in *. nia.
  - cbn [fold_left]. cbn [digit_sum foldr length] in Hsum, Hlen.
    fold (digit_sum counts) in Hsum.
    assert (Hsc : 0 <= digit_sum counts).
    { clear -Hc. induction Hc as [|y l Hy _ IHl]; cbn [digit_sum foldr]; [lia|].
      fold (digit_sum l). lia. }
    destruct (Z.eqb_spec c 0) as [-> | Hne].
    + apply (IH e s (k + 1)); try assumption; lia.
    + cbv zeta.
      destruct (entropy_term_bound M c Hs Hn ltac:(lia)) as (Ht & Hts & Htv).
      unfold entropy_term in Ht, Hts, Htv.
      set (t := (f32_of_Z c / f32_of_Z 20 * (logf M (f32_of_Z c / f32_of_Z 20) / logf M (f32_of_Z 2)))%f32) in *.
      pose proof (sgn_in_val_nonneg e Hsg) as He0.
      pose proof (sgn_in_val_nonpos t Hts) as Ht0.
      assert (Hbound : f32_val e - f32_val t
                       <= entropy_slope * (s + c) + (entropy_intercept + entropy_round) * k
                          + entropy_intercept) by lia.
      assert (Hlt : Z.abs (f32_val e - f32_val t) < 2 ^ (2 + 149)).
      { rewrite Z.abs_eq by lia. eapply Z.le_lt_trans; [exact Hbound|].
        eapply Z.le_lt_trans; [|exact Hbud]. nia. }
      destruct (f32_sub_val e t 2 He Ht Hlt ltac:(lia)) as (Hrf & Hrv & _ & _).
      change (2 * 2 ^ (Z.max (2 - 24) (-149) + 149)) with entropy_round in Hrv.
      apply (IH (e - t)%f32 (s + c) (k + 1)); try assumption; try lia.
      now apply SFsub_sgn.
Qed.

Lemma digit_sum_insert (l : list Z) (i : nat) (v : Z) :
  (i < length l)%nat -> digit_sum (<[i := v]> l) = digit_sum l - nth i l 0 + v.
Proof.
  revert i. induction l as [|x l IH]; intros i Hi; cbn [length] in Hi; [lia|].
  destruct i as [|i].
  - change (<[0%nat := v]> (x :: l)) with (v :: l).
    unfold digit_sum. cbn [nth foldr]. lia.
  - change (<[S i := v]> (x :: l)) with (x :: <[i := v]> l).
    unfold digit_sum in *. cbn [nth foldr]. rewrite IH by lia. lia.
Qed.

Lemma digit_counts_fold_sum (ds : list Z) (counts : list Z) (n : Z) :
  Forall (fun c => 0 <= c <= n) counts -> 0 <= n ->
  n + Z.of_nat (length ds) < 65536 ->
  let counts' :=
    fold_left (fun counts digit =>
                 <[Z.to_nat digit := u16 (nth (Z.to_nat digit) counts 0 + 1)]> counts)
              ds counts in
  length counts' = length counts /\
  digit_sum counts' <= digit_sum counts + Z.of_nat (length ds).
Proof.
  revert counts n. induction ds as [|d ds IH]; intros counts n Hc Hn Hlen.
  - cbn [fold_left length]. cbv zeta. split; [reflexivity|].
    change (Z.of_nat 0) with 0. lia.
  - cbn [fold_left length] in *. cbv zeta.
    set (counts1 := <[Z.to_nat d := u16 (nth (Z.to_nat d) counts 0 + 1)]> counts).
    assert (Hnth : 0 <= nth (Z.to_nat d) counts 0 <= n).
    { destruct (nth_lookup_or_length counts (Z.to_nat d) 0) as [Hi | Hi].
      - rewrite Forall_forall in Hc. apply Hc. apply list_elem_of_lookup. eauto.
      - rewrite nth_overflow by lia. lia. }
    assert (Hu : u16 (nth (Z.to_nat d) counts 0 + 1) = nth (Z.to_nat d) counts 0 + 1).
    { unfold u16. apply Z.mod_small. lia. }
    assert (Hc1 : Forall (fun c => 0 <= c <= n + 1) counts1).
    { apply Forall_insert.
      - eapply Forall_impl; [exact Hc|]. cbn. intros; lia.
      - rewrite Hu. lia. }
    destruct (IH counts1 (n + 1) Hc1 ltac:(lia) ltac:(lia)) as [Hl Hs].
    cbv zeta in Hl, Hs.
    assert (Hl1 : length counts1 = length counts) by apply length_insert.
    split; [congruence|].
    assert (Hs1 : digit_sum counts1 <= digit_sum counts + 1).
    { destruct (Nat.lt_ge_cases (Z.to_nat d) (length counts)) as [Hi | Hi].
      - unfold counts1. rewrite digit_sum_insert by exact Hi. rewrite Hu. lia.
      - unfold counts1. rewrite list_insert_ge by exact Hi. lia. }
    lia.
Qed.

Lemma digit_counts_sum (ds : list Z) :
  length ds = 20%nat ->
  length (digit_counts ds) = 10%nat /\ digit_sum (digit_counts ds) <= 20.
Proof.
  intros Hlen. unfold digit_counts.
  destruct (digit_counts_fold_sum ds (replicate 10 0) 0) as [Hl Hs].
  - repeat constructor; lia.
  - lia.
  - rewrite Hlen. lia.
  - cbv zeta in Hl, Hs. rewrite Hlen in Hs. split; [exact Hl|exact Hs].
Qed.

(** With logarithms within one unit in the last place of the reference ones,
    the entropy of a 20-digit fingerprint is finite and at most 3.32194. *)
Lemma entropy_of_upper (M : Libm) (ds : list Z) :
  logf_signs M -> logf_near M -> length ds = 20%nat ->
  f32_fin (entropy_of M ds) /\
  100000 * f32_val (entropy_of M ds) <= 332194 * 2 ^ 149.
Proof.
  intros Hs Hn Hlen.
  destruct (digit_counts_sum ds Hlen) as [Hl10 Hsum].
  pose proof (digit_counts_range ds Hlen) as Hc.
  unfold entropy_of. rewrite Hlen. change (Z.of_nat 20) with 20.
  destruct (entropy_fold_bound M (digit_counts ds) Hs Hn Hc f32_zero 0 0)
    as [Hf Hv]; try exact I; try lia; [vm_compute; discriminate|].
  cbv zeta in Hf, Hv. split; [exact Hf|].
  destruct entropy_budget as [_ Hb]. lia.
Qed.

Lemma RefLibm_logf_near : logf_near RefLibm.libm.
Proof.
  split; [|vm_compute; reflexivity].
  intros count H.
  assert (Hall : forallb (fun k =>
                   ulp_near (logf RefLibm.libm (f32_of_Z (Z.of_nat k) / f32_of_Z 20)%f32)
                            (RefLibm.logf (f32_of_Z (Z.of_nat k) / f32_of_Z 20)%f32))
                         (seq 1 20) = true)
    by (vm_compute; reflexivity).
  rewrite forallb_forall in Hall. specialize (Hall (Z.to_nat count)).
  rewrite Z2Nat.id in Hall by lia. apply Hall. apply in_seq. lia.
Qed.

(** The logarithms of the reference library at the arguments of the entropy
    loop, as binary32 words: of 1/20, 2/20, ..., 20/20, and of 2. *)
Lemma RefLibm_logf_table :
  map (fun k => f32_bits (RefLibm.logf (f32_of_Z (Z.of_nat k) / f32_of_Z 20)%f32)) (seq 1 20)
  = [ 0xC03FBA14; 0xC0135D8E; 0xBFF2D4D4; 0xBFCE0210; 0xBFB17218;
      0xBF9A1BC8; 0xBF866092; 0xBF6A9207; 0xBF4C6B01; 0xBF317218;
      0xBF190BD8; 0xBF02C577; 0xBEDC8F95; 0xBEB69E1A; 0xBE934B11;
      0xBE647FBD; 0xBE266B5B; 0xBDD7C745; 0xBD5218EE; 0x00000000 ] /\
  f32_bits (RefLibm.logf (f32_of_Z 2)) = 0x3F317218.
Proof. split; vm_compute; reflexivity. Qed.

(** C2, amended: every fingerprint has 20 digits between 0 and 9, a
    coherence in [0, 1] and an entropy that is not negative (and not a NaN),
    whatever the matrices, the stage hint and the composer state.  When the
    library's [logf] is within one unit in the last place of the reference
    values at the arguments the entropy loop uses, the entropy is moreover
    finite and at most 3.32194 ([f32_val] is the value in units of 2^-149).
    That is less than 1.2e-5 above log2 10, which exceeds 13301 / 4004 as
    2^13301 < 10^4004; log2 10 itself is not an upper bound, the binary32
    sum of a fingerprint with every digit twice lies above it. *)
Theorem compose_ranges (M : Libm) (fuel : nat) (self : SigprintComposer)
    (amplitude phases : BandMatrix) (stage_hint : Z) :
  atan2f_in_range M -> logf_signs M -> (23 <= fuel)%nat ->
  exists r self',
    compose M fuel self amplitude phases stage_hint = Some (r, self') /\
    length (digits r) = 20%nat /\ Forall is_digit (digits r) /\
    (f32_zero <=? coherence r)%f32 = true /\ (coherence r <=? f32_one)%f32 = true /\
    (f32_zero <=? entropy r)%f32 = true /\
    (logf_near M ->
     f32_fin (entropy r) /\ 100000 * f32_val (entropy r) <= 332194 * 2 ^ 149) /\
    2 ^ 13301 < 10 ^ 4004 /\
    332194 * 4004 * 1000000 < (13301 * 1000000 + 12 * 4004) * 100000.
Proof.
  intros HM Hlog Hfuel.
  destruct (compose_returns M fuel self amplitude phases stage_hint HM Hfuel)
    as (deg & r & self' & E & Ef).
  destruct (fingerprint_ranges M fuel self amplitude phases stage_hint HM Hlog Hfuel)
    as (r0 & self0 & E0 & Hlen & Hdig & Hc0 & Hc1 & He0).
  rewrite E in E0. injection E0 as <- <-.
  exists r, self'.
  split; [exact E|]. split; [exact Hlen|]. split; [exact Hdig|].
  split; [exact Hc0|]. split; [exact Hc1|]. split; [exact He0|].
  split; [|split; [vm_compute; reflexivity|vm_compute; reflexivity]].
  intros Hnear.
  destruct (compose_finish_digits M self amplitude phases stage_hint deg) as (_ & _ & He).
  rewrite Ef in He. cbn [fst] in He. rewrite He.
  apply entropy_of_upper; [exact Hlog|exact Hnear|exact Hlen].
Qed.

Lemma compose_ranges_witness :
  exists r self',
    compose RefLibm.libm 23 SigprintComposer_new uniform_amplitude uniform_phases 3
      = Some (r, self') /\
    length (digits r) = 20%nat /\ Forall is_digit (digits r) /\
    (f32_zero <=? coherence r)%f32 = true /\ (coherence r <=? f32_one)%f32 = true /\
    (f32_zero <=? entropy r)%f32 = true /\
    f32_fin (entropy r) /\ 100000 * f32_val (entropy r) <= 332194 * 2 ^ 149.
Proof.
  destruct (compose_ranges RefLibm.libm 23 SigprintComposer_new uniform_amplitude
              uniform_phases 3 RefLibm_atan2f_in_range RefLibm_logf_signs (le_n 23))
    as (r & self' & E & Hlen & Hdig & Hc0 & Hc1 & He0 & Hub & _).
  exists r, self'.
  split; [exact E|]. split; [exact Hlen|]. split; [exact Hdig|].
  split; [exact Hc0|]. split; [exact Hc1|]. split; [exact He0|].
  exact (Hub RefLibm_logf_near).
Defined.
